(** * Time-frequency masking: a shallow embedding of [helpers/masking_methods.py]

    The Python class [FrequencyMasking] is embedded as a record of its
    attributes and a small state-and-exception monad over that record.

    Numbers.  numpy's float64 values are modelled by exact rationals ([Q]):
    rounding, infinities and NaN are not represented, and a division by
    zero follows [Q]'s convention ([x / 0 == 0]) instead of numpy's
    [inf]/[nan]; in particular the mean of an empty array is 0 here and
    [nan] in numpy, and a ratio that float64 rounds onto a threshold may
    fall on its other side here.  The transcendental functions of numpy
    ([np.power] with a non-integer exponent, [np.log], [np.exp], [np.cos]),
    [np.linalg.pinv] and the cast to float32 are library code, not code of
    this repository: they are parameters of the development.  The literal
    exponents [2.] and [-2.] are exact rational operations and are written
    out.

    What the rational model can and cannot show.  Control flow, exceptions,
    shapes, and bounds that rounding to nearest preserves carry over to the
    float64 program.  An equation between a computed value and a formula
    holds of the program up to the rounding of each operation.  An exact
    identity between two computed values, or a strict bound, need not
    survive rounding: where a statement depends on that, the element
    operations concerned are given a second time in binary64 (the
    definitions named [..._f64], over Rocq's primitive floats) and evaluated
    there.

    Output.  The [print] calls write to stdout only; they are left out. *)

From Stdlib Require Import Floats.
From Stdlib Require Import String.
From Stdlib Require Import QArith Qabs Qround Qminmax ZArith List Bool Arith Lia Lqa.
Import ListNotations.
Open Scope string_scope.
Open Scope Q_scope.

(** ** Exceptions and the state monad *)

Inductive exn : Type :=
| ValueError (msg : string)
| AttributeError (msg : string)
| TypeError (msg : string)
| IndexError (msg : string)
| ZeroDivisionError (msg : string)
| NameError (msg : string).

Inductive outcome (A : Type) : Type :=
| Ok (a : A)
| Raise (e : exn).
Arguments Ok {A} a.
Arguments Raise {A} e.

Definition obind {A B : Type} (c : outcome A) (k : A -> outcome B) : outcome B :=
  match c with
  | Ok a => k a
  | Raise e => Raise e
  end.

Declare Scope outcome_scope.
Delimit Scope outcome_scope with out.
Notation "x <- c ;; k" := (obind c (fun x => k))
  (at level 61, c at next level, right associativity) : outcome_scope.

(** The messages of the two [raise] statements of the source, and the
    messages numpy and Python give where the model needs them. *)
Definition phase_msg : string :=
  "Phase-sensitive masking cannot be performed without phase information.".
Definition reverse_msg : string :=
  "Cannot compute that using such masking method.".
Definition broadcast_msg : string := "operands could not be broadcast together".
Definition inhomogeneous_msg : string := "inhomogeneous shape".
Definition no_size_msg : string := "'list' object has no attribute 'size'".
Definition no_clip_msg : string := "'list' object has no attribute 'clip'".
Definition no_shape_msg : string := "'list' object has no attribute 'shape'".
Definition operand_msg : string := "unsupported operand type(s)".
Definition unsized_msg : string := "len() of unsized object".
Definition index_msg : string := "index out of range".
Definition zero_div_msg : string := "float division by zero".
Definition dot_msg : string := "shapes not aligned".
Definition iter_index_msg : string := "name 'iter_index' is not defined".

(** ** numpy arrays

    Arrays of rank 0 to 3 as nested lists, outermost axis first.  A 2-D
    spectrogram is a list of rows (frequency bins), a 3-D array a list of
    2-D arrays (channels, or stacked sources).  An array with a zero-length
    axis does not record the lengths of the axes inside it. *)

Definition vec : Type := list Q.
Definition arr2 : Type := list vec.
Definition arr3 : Type := list arr2.

Inductive ndarray : Type :=
| Nd0 (x : Q)
| Nd1 (v : vec)
| Nd2 (a : arr2)
| Nd3 (a : arr3).

Definition rank (a : ndarray) : nat :=
  match a with
  | Nd0 _ => 0
  | Nd1 _ => 1
  | Nd2 _ => 2
  | Nd3 _ => 3
  end.

Definition shape (a : ndarray) : list nat :=
  match a with
  | Nd0 _ => []
  | Nd1 v => [length v]
  | Nd2 a => [length a; length (hd [] a)]
  | Nd3 a => [length a; length (hd [] a); length (hd [] (hd [] a))]
  end.

(** [a.size] *)
Definition size (a : ndarray) : nat := fold_right Nat.mul 1%nat (shape a).

Definition shape_eqb (s1 s2 : list nat) : bool :=
  if list_eq_dec Nat.eq_dec s1 s2 then true else false.

Definition nd_map (f : Q -> Q) (a : ndarray) : ndarray :=
  match a with
  | Nd0 x => Nd0 (f x)
  | Nd1 v => Nd1 (map f v)
  | Nd2 a => Nd2 (map (map f) a)
  | Nd3 a => Nd3 (map (map (map f)) a)
  end.

(** *** Broadcasting

    numpy aligns the shapes of two operands from the last axis, reads a
    missing leading axis as length 1, and along every axis either the two
    lengths agree or one of them is 1 and that operand is repeated. *)

Fixpoint zipM {A B C : Type} (op : A -> B -> option C)
         (xs : list A) (ys : list B) : option (list C) :=
  match xs, ys with
  | x :: xs', y :: ys' =>
      match op x y, zipM op xs' ys' with
      | Some c, Some cs => Some (c :: cs)
      | _, _ => None
      end
  | _, _ => Some []
  end.

Fixpoint mapM {A C : Type} (op : A -> option C) (xs : list A) : option (list C) :=
  match xs with
  | [] => Some []
  | x :: xs' =>
      match op x, mapM op xs' with
      | Some c, Some cs => Some (c :: cs)
      | _, _ => None
      end
  end.

Definition bcast_axis {A B C : Type} (op : A -> B -> option C)
           (xs : list A) (ys : list B) : option (list C) :=
  if Nat.eqb (length xs) (length ys) then zipM op xs ys
  else match xs, ys with
       | [x], _ => mapM (op x) ys
       | _, [y] => mapM (fun x => op x y) xs
       | _, _ => None
       end.

Definition bc1 (f : Q -> Q -> Q) : vec -> vec -> option vec :=
  bcast_axis (fun x y => Some (f x y)).
Definition bc2 (f : Q -> Q -> Q) : arr2 -> arr2 -> option arr2 :=
  bcast_axis (bc1 f).
Definition bc3 (f : Q -> Q -> Q) : arr3 -> arr3 -> option arr3 :=
  bcast_axis (bc2 f).

Definition lift3 (a : ndarray) : arr3 :=
  match a with
  | Nd0 x => [[[x]]]
  | Nd1 v => [[v]]
  | Nd2 a => [a]
  | Nd3 a => a
  end.

Definition lower (r : nat) (a : arr3) : ndarray :=
  match r with
  | 0%nat => Nd0 (hd 0 (hd [] (hd [] a)))
  | 1%nat => Nd1 (hd [] (hd [] a))
  | 2%nat => Nd2 (hd [] a)
  | _ => Nd3 a
  end.

(** An elementwise binary ufunc ([+], [-], [*], [np.divide], [**]). *)
Definition nd_binop (f : Q -> Q -> Q) (a b : ndarray) : outcome ndarray :=
  match bc3 f (lift3 a) (lift3 b) with
  | Some c => Ok (lower (Nat.max (rank a) (rank b)) c)
  | None => Raise (ValueError broadcast_msg)
  end.

Definition nd_add : ndarray -> ndarray -> outcome ndarray := nd_binop Qplus.
Definition nd_sub : ndarray -> ndarray -> outcome ndarray := nd_binop Qminus.
Definition nd_mul : ndarray -> ndarray -> outcome ndarray := nd_binop Qmult.
Definition nd_div : ndarray -> ndarray -> outcome ndarray := nd_binop Qdiv.

(** An in-place ufunc ([a += b]): the result must have the shape of [a]. *)
Definition nd_iadd (a b : ndarray) : outcome ndarray :=
  (r <- nd_add a b ;;
   if shape_eqb (shape r) (shape a) then Ok r
   else Raise (ValueError broadcast_msg))%out.

(** ** Python values held by the dynamically typed attributes

    [_nResidual], the phase arguments, [_mask] and [_Out] hold either an
    ndarray or a Python list: a list of 2-D spectrograms for the residual
    components, the empty list [[]] as the default phase arguments and as the
    initial mask and output. *)

Inductive pyval : Type :=
| PyList (l : list arr2)
| PyArr (a : ndarray).

Definition all_same_shape (l : list arr2) : bool :=
  match l with
  | [] => true
  | a :: l' => forallb (fun b => shape_eqb (shape (Nd2 b)) (shape (Nd2 a))) l'
  end.

(** [np.asarray]: what numpy does with a list operand of a ufunc. *)
Definition asarray (v : pyval) : outcome ndarray :=
  match v with
  | PyArr a => Ok a
  | PyList [] => Ok (Nd1 [])
  | PyList l =>
      if all_same_shape l then Ok (Nd3 l)
      else Raise (ValueError inhomogeneous_msg)
  end.

(** [len(v)] and [v[i]] *)
Definition py_len (v : pyval) : outcome nat :=
  match v with
  | PyList l => Ok (length l)
  | PyArr (Nd0 _) => Raise (TypeError unsized_msg)
  | PyArr (Nd1 w) => Ok (length w)
  | PyArr (Nd2 a) => Ok (length a)
  | PyArr (Nd3 a) => Ok (length a)
  end.

Definition py_item (v : pyval) (i : nat) : outcome ndarray :=
  let get {A : Type} (wrap : A -> ndarray) (l : list A) : outcome ndarray :=
    match nth_error l i with
    | Some x => Ok (wrap x)
    | None => Raise (IndexError index_msg)
    end in
  match v with
  | PyList l => get Nd2 l
  | PyArr (Nd0 _) => Raise (IndexError index_msg)
  | PyArr (Nd1 w) => get Nd0 w
  | PyArr (Nd2 a) => get Nd1 a
  | PyArr (Nd3 a) => get Nd2 a
  end.

(** [v.size] *)
Definition py_size (v : pyval) : outcome nat :=
  match v with
  | PyList _ => Raise (AttributeError no_size_msg)
  | PyArr a => Ok (size a)
  end.

(** ** The engine *)

Record FrequencyMasking : Type := mkFM {
  _mX : ndarray;
  _eps : Q;
  _sTarget : ndarray;
  _nResidual : pyval;
  _pTarget : pyval;
  _pY : pyval;
  _mask : pyval;
  _Out : pyval;
  _alpha : ndarray;
  _method : string;
  _iterations : nat;
  _lr : Q;
  _eta_plus : Q;
  _eta_minus : Q;
  _amount_iter : nat;
  _closs : option Q   (* the attribute exists only after [optAlpha] *)
}.

(** [np.finfo(np.float).eps] *)
Definition float_eps : Q := 1 # (2 ^ 52).

(** [__init__] *)
Definition init (mx s_target : ndarray) (n_residual ps_target pn_residual : pyval)
           (alpha : ndarray) (method : string) : FrequencyMasking :=
  {| _mX := mx;
     _eps := float_eps;
     _sTarget := s_target;
     _nResidual := n_residual;
     _pTarget := ps_target;
     _pY := pn_residual;
     _mask := PyList [];
     _Out := PyList [];
     _alpha := alpha;
     _method := method;
     _iterations := 200;
     _lr := 15 # 10000;
     _eta_plus := 11 # 10;
     _eta_minus := 1 # 10;
     _amount_iter := 0;
     _closs := None |}.

Definition set_mask (m : pyval) (self : FrequencyMasking) : FrequencyMasking :=
  {| _mX := _mX self; _eps := _eps self; _sTarget := _sTarget self;
     _nResidual := _nResidual self; _pTarget := _pTarget self; _pY := _pY self;
     _mask := m; _Out := _Out self; _alpha := _alpha self;
     _method := _method self; _iterations := _iterations self; _lr := _lr self;
     _eta_plus := _eta_plus self; _eta_minus := _eta_minus self;
     _amount_iter := _amount_iter self; _closs := _closs self |}.

Definition set_Out (o : pyval) (self : FrequencyMasking) : FrequencyMasking :=
  {| _mX := _mX self; _eps := _eps self; _sTarget := _sTarget self;
     _nResidual := _nResidual self; _pTarget := _pTarget self; _pY := _pY self;
     _mask := _mask self; _Out := o; _alpha := _alpha self;
     _method := _method self; _iterations := _iterations self; _lr := _lr self;
     _eta_plus := _eta_plus self; _eta_minus := _eta_minus self;
     _amount_iter := _amount_iter self; _closs := _closs self |}.

(** A method of the class: it reads and updates [self], and returns or
    raises.  The state that comes with [Raise] is [self] as the exception
    left it. *)
Definition M (A : Type) : Type := FrequencyMasking -> FrequencyMasking * outcome A.

Definition ret {A : Type} (a : A) : M A := fun self => (self, Ok a).
Definition throw {A : Type} (e : exn) : M A := fun self => (self, Raise e).
Definition bind {A B : Type} (c : M A) (k : A -> M B) : M B :=
  fun self =>
    match c self with
    | (self', Ok a) => k a self'
    | (self', Raise e) => (self', Raise e)
    end.
Definition get {A : Type} (field : FrequencyMasking -> A) : M A :=
  fun self => (self, Ok (field self)).
Definition modify (f : FrequencyMasking -> FrequencyMasking) : M unit :=
  fun self => (f self, Ok tt).
Definition lift {A : Type} (c : outcome A) : M A := fun self => (self, c).

Declare Scope method_scope.
Delimit Scope method_scope with method.
Notation "x <- c ;; k" := (bind c (fun x => k))
  (at level 61, c at next level, right associativity) : method_scope.
Notation "c ;; k" := (bind c (fun _ => k))
  (at level 61, right associativity) : method_scope.

(** Operands of a ufunc that may be Python lists are converted first. *)
Definition py_binop (f : Q -> Q -> Q) (a b : pyval) : outcome ndarray :=
  (x <- asarray a ;; y <- asarray b ;; nd_binop f x y)%out.

(** [v.clip(lo, np.inf)]: a method of ndarrays only. *)
Definition py_clip_lo (lo : Q) (v : pyval) : outcome ndarray :=
  match v with
  | PyList _ => Raise (AttributeError no_clip_msg)
  | PyArr a => Ok (nd_map (fun x => Qmax x lo) a)
  end.

(** The binary masks write [1.] and [0.] through the index arrays of
    [np.where]: [mask[bg[0], bg[1]] = 1.] then [mask[sm[0], sm[1]] = 0.],
    both index sets taken from the mask before the writes.  On a 2-D mask
    this thresholds every element.  On a 3-D mask the two leading indices
    select whole rows along the last axis, and the second write wins.  A
    mask of rank below 2 has no [bg[1]]. *)
Definition threshold (theta : Q) (x : Q) : Q :=
  if Qle_bool theta x then 1 else 0.

Definition threshold_row (theta : Q) (row : vec) : vec :=
  if existsb (fun x => negb (Qle_bool theta x)) row
  then map (fun _ => 0) row
  else map (fun _ => 1) row.

Definition where_assign (theta : Q) (mask : ndarray) : outcome ndarray :=
  match mask with
  | Nd0 _ => Raise (IndexError index_msg)
  | Nd1 _ => Raise (IndexError index_msg)
  | Nd2 a => Ok (Nd2 (map (map (threshold theta)) a))
  | Nd3 a => Ok (Nd3 (map (map (threshold_row theta)) a))
  end.

Section MaskingMethods.

(** numpy's [power], [log], [exp], [cos] on one element. *)
Variable np_power : Q -> Q -> Q.
Variable np_log : Q -> Q.
Variable np_exp : Q -> Q.
Variable np_cos : Q -> Q.

(** [x ** alpha] *)
Definition nd_pow (x alpha : ndarray) : outcome ndarray := nd_binop np_power x alpha.

(** [v ** alpha] for an attribute that may hold a list: a list has no
    [**] with a Python float; with an ndarray exponent numpy takes over
    and converts the list. *)
Definition py_pow (v : pyval) (alpha : ndarray) : outcome ndarray :=
  match v, alpha with
  | PyList _, Nd0 _ => Raise (TypeError operand_msg)
  | _, _ => (x <- asarray v ;; nd_pow x alpha)%out
  end.

(** [x ** 2.] *)
Definition nd_square (x : ndarray) : ndarray := nd_map (fun v => v ^ 2) x.

Local Open Scope method_scope.

(** [IRM]: [np.divide(sTarget, eps + sTarget + nResidual)] *)
Definition IRM : M unit :=
  self <- get id ;;
  m <- lift (a <- nd_add (Nd0 (_eps self)) (_sTarget self) ;;
             r <- asarray (_nResidual self) ;;
             d <- nd_add a r ;;
             nd_div (_sTarget self) d)%out ;;
  modify (set_mask (PyArr m)).

(** [IAM]: [np.divide(sTarget, eps + nResidual)] *)
Definition IAM : M unit :=
  self <- get id ;;
  m <- lift (r <- asarray (_nResidual self) ;;
             d <- nd_add (Nd0 (_eps self)) r ;;
             nd_div (_sTarget self) d)%out ;;
  modify (set_mask (PyArr m)).

(** [ExpM]: [log(sTarget.clip(eps, inf) ** alpha) / log(nResidual.clip(eps, inf) ** alpha)] *)
Definition ExpM : M unit :=
  self <- get id ;;
  m <- lift (t <- nd_pow (nd_map (fun x => Qmax x (_eps self)) (_sTarget self))
                         (_alpha self) ;;
             c <- py_clip_lo (_eps self) (_nResidual self) ;;
             r <- nd_pow c (_alpha self) ;;
             nd_div (nd_map np_log t) (nd_map np_log r))%out ;;
  modify (set_mask (PyArr m)).

(** [IBM]: the ratio [sTarget ** alpha / (eps + nResidual ** alpha)]
    thresholded at [theta = 0.5]. *)
Definition IBM : M unit :=
  self <- get id ;;
  m <- lift (t <- nd_pow (_sTarget self) (_alpha self) ;;
             r <- py_pow (_nResidual self) (_alpha self) ;;
             d <- nd_add (Nd0 (_eps self)) r ;;
             mask <- nd_div t d ;;
             where_assign (1 # 2) mask)%out ;;
  modify (set_mask (PyArr m)).

(** [UBBM]: [20 * log(eps + (eps + sTarget ** alpha) / (eps + nResidual ** alpha))]
    thresholded at 0. *)
Definition UBBM : M unit :=
  self <- get id ;;
  m <- lift (t <- nd_pow (_sTarget self) (_alpha self) ;;
             n <- nd_add (Nd0 (_eps self)) t ;;
             r <- py_pow (_nResidual self) (_alpha self) ;;
             d <- nd_add (Nd0 (_eps self)) r ;;
             q <- nd_div n d ;;
             e <- nd_add (Nd0 (_eps self)) q ;;
             where_assign 0 (nd_map (fun x => 20 * np_log x) e))%out ;;
  modify (set_mask (PyArr m)).

(** The loop [for indx in range(1, numElements): localnResidual += power(nResidual[indx])]
    shared by [Wiener] and [alphaHarmonizableProcess]. *)
Fixpoint add_components (power : ndarray -> outcome ndarray) (res : pyval)
         (indices : list nat) (acc : ndarray) : outcome ndarray :=
  match indices with
  | [] => Ok acc
  | indx :: rest =>
      (c <- py_item res indx ;;
       p <- power c ;;
       acc' <- nd_iadd acc p ;;
       add_components power res rest acc')%out
  end.

(** The common body of [Wiener] and [alphaHarmonizableProcess]; [power]
    is [** 2.] or [** self._alpha]. *)
Definition wiener_like (power : ndarray -> outcome ndarray) : M unit :=
  self <- get id ;;
  m <- lift (localsTarget <- power (_sTarget self) ;;
             numElements <- py_len (_nResidual self) ;;
             first <- py_item (_nResidual self) 0 ;;
             p0 <- power first ;;
             start <- nd_add p0 localsTarget ;;
             localnResidual <-
               (if (1 <? numElements)%nat
                then add_components power (_nResidual self)
                                    (seq 1 (numElements - 1)) start
                else Ok start) ;;
             n <- nd_add localsTarget (Nd0 (_eps self)) ;;
             d <- nd_add (Nd0 (_eps self)) localnResidual ;;
             nd_div n d)%out ;;
  modify (set_mask (PyArr m)).

Definition Wiener : M unit := wiener_like (fun x => Ok (nd_square x)).

Definition alphaHarmonizableProcess : M unit :=
  self <- get id ;;
  wiener_like (fun x => nd_pow x (_alpha self)).

(** [phaseSensitive]:
    [2. / (1. + exp(-multiply(divide(sTarget, eps + nResidual), cos(pTarget - pY)))) - 1.] *)
Definition phaseSensitive : M unit :=
  self <- get id ;;
  m <- lift (Theta <-
               match _pTarget self, _pY self with
               | PyList _, PyList _ => Raise (TypeError operand_msg)
               | p, q => py_binop Qminus p q
               end ;;
             r <- asarray (_nResidual self) ;;
             d <- nd_add (Nd0 (_eps self)) r ;;
             q <- nd_div (_sTarget self) d ;;
             p <- nd_mul q (nd_map np_cos Theta) ;;
             Ok (nd_map (fun x => 2 / (1 + np_exp (- x)) - 1) p))%out ;;
  modify (set_mask (PyArr m)).

(** [applyMask] *)
Definition applyMask : M unit :=
  self <- get id ;;
  if String.eqb (_method self) "expMask" then
    o <- lift (b <- nd_pow (_mX self) (_alpha self) ;;
               m <- asarray (_mask self) ;;
               nd_pow b m)%out ;;
    modify (set_Out (PyArr o))
  else
    o <- lift (py_binop Qmult (_mask self) (PyArr (_mX self))) ;;
    modify (set_Out (PyArr o)).

(** [applyReverseMask]; [1. - self._mask] has no meaning for a list. *)
Definition applyReverseMask : M unit :=
  self <- get id ;;
  if String.eqb (_method self) "expMask" then
    throw (ValueError reverse_msg)
  else
    o <- lift (match _mask self with
               | PyList _ => Raise (TypeError operand_msg)
               | PyArr m =>
                   (c <- nd_sub (Nd0 1) m ;; nd_mul c (_mX self))%out
               end) ;;
    modify (set_Out (PyArr o)).

End MaskingMethods.

(** ** Multichannel Wiener filter *)

Fixpoint set_nth {A : Type} (n : nat) (x : A) (l : list A) : list A :=
  match l, n with
  | [], _ => []
  | _ :: t, O => x :: t
  | h :: t, S k => h :: set_nth k x t
  end.

Fixpoint map2 {A B C : Type} (f : A -> B -> C) (xs : list A) (ys : list B) : list C :=
  match xs, ys with
  | x :: xs', y :: ys' => f x y :: map2 f xs' ys'
  | _, _ => []
  end.

(** [np.eye(M)] *)
Definition eye (M : nat) : arr2 :=
  map (fun i => map (fun j => if Nat.eqb i j then 1 else 0) (seq 0 M)) (seq 0 M).

(** [np.repeat(np.reshape(I, (M, M, 1)), F, axis=-1)]: shape (M, M, F). *)
Definition repeat_last (I : arr2) (F : nat) : arr3 :=
  map (map (fun x => repeat x F)) I.

(** [np.zeros((M, F, T))] *)
Definition zeros3 (M F T : nat) : arr3 := repeat (repeat (repeat 0 T) F) M.

(** [R[:, :, f]] for [f] within the last axis. *)
Definition slice_last (R : arr3) (f : nat) : arr2 :=
  map (map (fun v => nth f v 0)) R.

(** [R[:, :, f] = V]: [V] is broadcast to the shape of the slice. *)
Definition assign_slice_last (R : arr3) (f : nat) (V : ndarray) : outcome arr3 :=
  (b <- nd_binop (fun _ new => new) (Nd2 (slice_last R f)) V ;;
   match b with
   | Nd2 b' =>
       if shape_eqb (shape b) (shape (Nd2 (slice_last R f)))
       then Ok (map2 (map2 (fun v x => set_nth f x v)) R b')
       else Raise (ValueError broadcast_msg)
   | _ => Raise (ValueError broadcast_msg)
   end)%out.

(** [a[:, f, t]] on a 3-D array. *)
Definition index_ft (a : ndarray) (f t : nat) : outcome vec :=
  match a with
  | Nd3 chans =>
      match mapM (fun c => match nth_error c f with
                           | Some row => nth_error row t
                           | None => None
                           end) chans with
      | Some v => Ok v
      | None => Raise (IndexError index_msg)
      end
  | _ => Raise (IndexError index_msg)
  end.

(** [a[:, f:f+1, t]] on a 3-D array: the slice never fails, the index
    [t] does; shape (channels, 1), or (channels, 0) beyond the axis. *)
Definition slice_ft (a : ndarray) (f t : nat) : outcome arr2 :=
  match a with
  | Nd3 chans =>
      match mapM (fun c => match nth_error c f with
                           | Some row => match nth_error row t with
                                         | Some x => Some [x]
                                         | None => None
                                         end
                           | None =>
                               match c with
                               | [] => Some []
                               | row :: _ => if (t <? length row)%nat then Some [] else None
                               end
                           end) chans with
      | Some m => Ok m
      | None => Raise (IndexError index_msg)
      end
  | _ => Raise (IndexError index_msg)
  end.

(** [fout[:, f, t] = v] with the cast to the dtype of [fout]. *)
Definition assign_ft (cast : Q -> Q) (fout : arr3) (f t : nat) (v : ndarray) : outcome arr3 :=
  (b <- nd_binop (fun _ new => new) (Nd1 (map (fun _ => 0) fout)) v ;;
   match b with
   | Nd1 b' =>
       if Nat.eqb (length b') (length fout)
       then Ok (map2 (fun chan x =>
                        match nth_error chan f with
                        | Some row => set_nth f (set_nth t (cast x) row) chan
                        | None => chan
                        end) fout b')
       else Raise (ValueError broadcast_msg)
   | _ => Raise (ValueError broadcast_msg)
   end)%out.

Definition Qsum (v : vec) : Q := fold_left Qplus v 0.

Fixpoint transpose_aux (cols : nat) (a : arr2) : arr2 :=
  match cols with
  | O => []
  | S k => (transpose_aux k a ++ [map (fun row => nth k row 0) a])%list
  end.

(** [a.T] of a 2-D array. *)
Definition transpose (a : arr2) : arr2 := transpose_aux (length (hd [] a)) a.

(** [np.dot] of two matrices and of a matrix with a vector. *)
Definition dot_mv (a : arr2) (v : vec) : outcome vec :=
  if forallb (fun row => Nat.eqb (length row) (length v)) a
  then Ok (map (fun row => Qsum (map2 Qmult row v)) a)
  else Raise (ValueError dot_msg).

Definition dot_mm (a b : arr2) : outcome arr2 :=
  if forallb (fun row => Nat.eqb (length row) (length b)) a
  then Ok (map (fun row => map (fun col => Qsum (map2 Qmult row col)) (transpose b)) a)
  else Raise (ValueError dot_msg).

(** [np.trace] *)
Definition trace (a : arr2) : Q :=
  Qsum (map (fun i => nth i (nth i a []) 0) (seq 0 (Nat.min (length a) (length (hd [] a))))).

(** The forgetting factor of [MWF]. *)
Definition flambda : Q := 99 # 100.

Definition as_nd2 (a : ndarray) : outcome arr2 :=
  match a with
  | Nd2 m => Ok m
  | _ => Raise (ValueError dot_msg)
  end.

Section MWF.

Variable np_power : Q -> Q -> Q.
(** [np.linalg.pinv] on a matrix, and the cast to float32. *)
Variable np_pinv : arr2 -> arr2.
Variable to_float32 : Q -> Q.

(** The state of the two loops of [MWF]. *)
Record mwf_state : Type := mkMWF {
  Rxx : arr3;
  Rnn : arr3;
  fout : arr3
}.

(** Lines 386-391: the update of the two covariance slices at [(f, t)]. *)
Definition mwf_covariances (cX cN : ndarray) (eM f t : nat) (st : mwf_state)
  : outcome mwf_state :=
  (if Nat.eqb eM 1 then
     x <- index_ft cX f t ;;
     ax <- nd_mul (Nd0 flambda) (Nd2 (slice_last (Rxx st) f)) ;;
     bx <- nd_mul (Nd0 (1 - flambda)) (Nd1 x) ;;
     vx <- nd_add ax bx ;;
     Rxx' <- assign_slice_last (Rxx st) f vx ;;
     n <- index_ft cN f t ;;
     an <- nd_mul (Nd0 flambda) (Nd2 (slice_last (Rnn st) f)) ;;
     bn <- nd_mul (Nd0 (1 - flambda)) (Nd1 n) ;;
     vn <- nd_add an bn ;;
     Rnn' <- assign_slice_last (Rnn st) f vn ;;
     Ok {| Rxx := Rxx'; Rnn := Rnn'; fout := fout st |}
   else
     cx <- slice_ft cX f t ;;
     ox <- dot_mm cx (transpose cx) ;;
     sx <- index_ft cX f t ;;
     vx <- nd_div (Nd2 ox) (Nd0 (Qsum sx)) ;;
     Rxx' <- assign_slice_last (Rxx st) f vx ;;
     cn <- slice_ft cN f t ;;
     on <- dot_mm cn (transpose cn) ;;
     sn <- index_ft cN f t ;;
     vn <- nd_div (Nd2 on) (Nd0 (Qsum sn)) ;;
     Rnn' <- assign_slice_last (Rnn st) f vn ;;
     Ok {| Rxx := Rxx'; Rnn := Rnn'; fout := fout st |})%out.

(** Lines 393-400: the filter at [(f, t)] and its output column. *)
Definition mwf_filter (mX cX cN : ndarray) (I : arr2) (gF : Q) (eM f t : nat)
           (st : mwf_state) : outcome mwf_state :=
  (s <- nd_add (Nd2 (slice_last (Rnn st) f)) (Nd2 (slice_last (Rxx st) f)) ;;
   s' <- as_nd2 s ;;
   inv <- dot_mm (np_pinv (slice_last (Rnn st) f)) s' ;;
   num <- nd_sub (Nd2 inv) (Nd2 I) ;;
   Wf <- (if Nat.eqb eM 1 then
            n <- index_ft cN f t ;;
            x <- index_ft cX f t ;;
            nx <- nd_add (Nd1 n) (Nd1 x) ;;
            a <- nd_add nx (Nd0 (1 # 10 ^ 16)) ;;
            b <- nd_add (Nd1 x) (Nd0 (1 # 10 ^ 16)) ;;
            q <- nd_div a b ;;
            d <- nd_add q (Nd0 (trace inv * gF)) ;;
            nd_div num d
          else nd_div num (Nd0 (gF * trace inv))) ;;
   Wf' <- as_nd2 Wf ;;
   m <- index_ft mX f t ;;
   col <- dot_mv (transpose Wf') m ;;
   fout' <- assign_ft to_float32 (fout st) f t (Nd1 col) ;;
   Ok {| Rxx := Rxx st; Rnn := Rnn st; fout := fout' |})%out.

(** The body of the inner loop. *)
Definition mwf_step (mX cX cN : ndarray) (I : arr2) (gF : Q) (eM : nat)
           (t f : nat) (st : mwf_state) : outcome mwf_state :=
  (st' <- mwf_covariances cX cN eM f t st ;;
   mwf_filter mX cX cN I gF eM f t st')%out.

(** [for x in xs: body] over a state, stopping at the first exception. *)
Fixpoint for_each {S : Type} (xs : list nat) (body : nat -> S -> outcome S)
         (st : S) : outcome S :=
  match xs with
  | [] => Ok st
  | x :: rest => (st' <- body x st ;; for_each rest body st')%out
  end.

Definition mwf_loops (mX cX cN : ndarray) (I : arr2) (gF : Q) (eM F T : nat)
           (st : mwf_state) : outcome mwf_state :=
  for_each (seq 0 T)
           (fun t => for_each (seq 0 F) (mwf_step mX cX cN I gF eM t)) st.

(** The initial covariances and output of a pass. *)
Definition mwf_init (M F T : nat) : mwf_state :=
  {| Rxx := repeat_last (eye M) F;
     Rnn := repeat_last (eye M) F;
     fout := zeros3 M F T |}.

(** [a.shape[i]] *)
Definition shape_at (a : ndarray) (i : nat) : outcome nat :=
  match nth_error (shape a) i with
  | Some n => Ok n
  | None => Raise (IndexError index_msg)
  end.

(** The pass of [MWF] up to the final state of its loops. *)
Definition mwf_pass (self : FrequencyMasking) : outcome mwf_state :=
  (cX <- nd_binop np_power (_sTarget self) (_alpha self) ;;
   cN <- match _nResidual self, _alpha self with
         | PyList _, Nd0 _ => Raise (TypeError operand_msg)
         | v, a => (x <- asarray v ;; nd_binop np_power x a)
         end ;;
   M <- shape_at (_mX self) 0 ;;
   gF <- (if Nat.eqb M 0 then Raise (ZeroDivisionError zero_div_msg)
          else Ok (1 / inject_Z (Z.of_nat M))) ;;
   eM <- shape_at cX 0 ;;
   F <- shape_at cX 1 ;;
   T <- shape_at cX 2 ;;
   mwf_loops (_mX self) cX cN (eye M) gF eM F T (mwf_init M F T))%out.

(** [MWF]: [self._Out = np.abs(fout)] *)
Definition MWF : M unit :=
  (self <- get id ;;
   st <- lift (mwf_pass self) ;;
   modify (set_Out (PyArr (nd_map Qabs (Nd3 (fout st))))))%method.

End MWF.

(** ** Dispatch: [__call__] *)

Section Call.

Variable np_power : Q -> Q -> Q.
Variable np_log : Q -> Q.
Variable np_exp : Q -> Q.
Variable np_cos : Q -> Q.
Variable np_pinv : arr2 -> arr2.
Variable to_float32 : Q -> Q.

Local Open Scope method_scope.

(** The two branches every masking method but [MWF] ends with. *)
Definition apply_step (reverse : bool) : M unit :=
  if negb reverse then applyMask np_power else applyReverseMask.

(** The guard of the [Phase] branch, as written:
    [not self._pTarget.size or not self._pTarget.size]. *)
Definition phase_guard : M bool :=
  self <- get id ;;
  s1 <- lift (py_size (_pTarget self)) ;;
  if Nat.eqb s1 0 then ret true
  else
    s2 <- lift (py_size (_pTarget self)) ;;
    ret (Nat.eqb s2 0).

Definition call (reverse : bool) : M pyval :=
  self <- get id ;;
  (if String.eqb (_method self) "Phase" then
     missing <- phase_guard ;;
     if missing then throw (ValueError phase_msg)
     else phaseSensitive np_exp np_cos ;; apply_step reverse
   else if String.eqb (_method self) "IRM" then
     IRM ;; apply_step reverse
   else if String.eqb (_method self) "IAM" then
     IAM ;; apply_step reverse
   else if String.eqb (_method self) "IBM" then
     IBM np_power ;; apply_step reverse
   else if String.eqb (_method self) "UBBM" then
     UBBM np_power np_log ;; apply_step reverse
   else if String.eqb (_method self) "Wiener" then
     Wiener ;; apply_step reverse
   else if String.eqb (_method self) "alphaWiener" then
     alphaHarmonizableProcess np_power ;; apply_step reverse
   else if String.eqb (_method self) "expMask" then
     ExpM np_power np_log ;; apply_step reverse
   else if String.eqb (_method self) "MWF" then
     MWF np_power np_pinv to_float32
   else ret tt) ;;
  get _Out.

End Call.

(** The nine method names [__call__] knows. *)
Definition method_names : list string :=
  ["Phase"; "IRM"; "IAM"; "IBM"; "UBBM"; "Wiener"; "alphaWiener"; "expMask"; "MWF"].

(** ** The exponent optimizer: [optAlpha]

    The arrays bound to [alpha] are shared: [alpha_log.append(alpha)]
    stores the array object itself, and the next iteration's
    [alpha -= lrs * d_loss] updates that same object in place before
    [np.clip] binds [alpha] to a new array.  The arrays are therefore kept
    in a store, and [alpha] and the entries of [alpha_log] are references
    into it. *)

Definition ref : Type := nat.
Definition store : Type := list vec.

Definition deref (h : store) (r : ref) : vec := nth r h [].
Definition alloc (h : store) (v : vec) : store * ref := ((h ++ [v])%list, length h).
Definition update (h : store) (r : ref) (v : vec) : store := set_nth r v h.

(** A Python list index, negative indices counted from the end. *)
Definition py_index {A : Type} (l : list A) (i : Z) : option A :=
  let n := Z.of_nat (length l) in
  let j := (if i <? 0 then i + n else i)%Z in
  if ((0 <=? j) && (j <? n))%Z then nth_error l (Z.to_nat j) else None.

(** [l[-1] = x] on a non-empty list. *)
Definition set_last {A : Type} (l : list A) (x : A) : list A :=
  set_nth (length l - 1) x l.

(** [np.argmin]: the first index of the least value. *)
Fixpoint argmin_from (best : Q) (besti : nat) (i : nat) (l : list Q) : nat :=
  match l with
  | [] => besti
  | x :: l' =>
      if Qlt_le_dec x best then argmin_from x i (S i) l'
      else argmin_from best besti (S i) l'
  end.

Definition argmin (l : list Q) : nat :=
  match l with
  | [] => 0%nat
  | x :: l' => argmin_from x 0 1 l'
  end.

(** [np.round] on one element: to the nearest integer, halves to even. *)
Definition rint (x : Q) : Z :=
  let f := Qfloor x in
  let r := x - inject_Z f in
  match Qcompare r (1 # 2) with
  | Lt => f
  | Gt => (f + 1)%Z
  | Eq => if Z.even f then f else (f + 1)%Z
  end.

(** [np.clip(x, a_min, a_max)] on one element. *)
Definition clip (a_min a_max x : Q) : Q := Qmin a_max (Qmax x a_min).

(** All elements of an array, in order. *)
Definition flat (a : ndarray) : list Q :=
  match a with
  | Nd0 x => [x]
  | Nd1 v => v
  | Nd2 a => concat a
  | Nd3 a => concat (concat a)
  end.

(** [np.mean] over all elements. *)
Definition nd_mean (a : ndarray) : Q :=
  Qsum (flat a) / inject_Z (Z.of_nat (length (flat a))).

(** How an iteration of the loop ends: it goes on, or it leaves the loop
    through the [break] after printing 'Local Minimum Found' or after
    'Stuck...'. *)
Inductive loop_exit : Type :=
| GoOn
| LocalMinimum
| Stuck.

Section OptAlpha.

Variable np_power : Q -> Q -> Q.
Variable np_log : Q -> Q.

(** [_IS]: the Itakura-Saito distance to [Xhat], read off the engine's
    own [_mX], [_alpha] and [_eps]. *)
Definition _IS (self : FrequencyMasking) (Xhat : ndarray) : outcome Q :=
  (p <- nd_binop np_power (nd_map Qabs (_mX self)) (_alpha self) ;;
   num <- nd_add p (Nd0 (_eps self)) ;;
   den <- nd_add (nd_map Qabs Xhat) (Nd0 (_eps self)) ;;
   r1 <- nd_div num den ;;
   lg <- nd_sub (nd_map np_log num) (nd_map np_log den) ;;
   d <- nd_sub r1 lg ;;
   e <- nd_sub d (Nd0 1) ;;
   Ok (nd_mean e))%out.

(** [_dIS]: the mean first derivative of the distance. *)
Definition _dIS (self : FrequencyMasking) (Xhat : ndarray) : outcome Q :=
  (s <- nd_add Xhat (Nd0 (_eps self)) ;;
   p <- nd_binop np_power (nd_map Qabs (_mX self)) (_alpha self) ;;
   d <- nd_sub (nd_map Qabs Xhat) p ;;
   dis <- nd_mul (nd_map (fun y => Qabs y ^ (-2)) s) d ;;
   Ok (nd_mean dis))%out.

(** [s_list[source, :, :] ** alpha[source]] *)
Definition source_power (s : arr2) (a : Q) : arr2 :=
  map (map (fun x => np_power x a)) s.

Definition arr2_add (a b : arr2) : arr2 := map2 (map2 Qplus) a b.

(** [np.sum(np.power(s_list, np.reshape(alpha, (n, 1, 1))), axis=0)] *)
Definition Xhat_sum (s_list : list arr2) (alpha : vec) : arr2 :=
  match map2 source_power s_list alpha with
  | [] => []
  | p :: ps => fold_left arr2_add ps p
  end.

(** [Xhat = 0] followed by [Xhat += s_list[source, :, :] ** alpha[source]]
    for every source. *)
Definition Xhat_acc (s_list : list arr2) (alpha : vec) : arr2 :=
  match map2 source_power s_list alpha with
  | [] => []
  | p :: ps => fold_left arr2_add ps (map (map (Qplus 0)) p)
  end.

(** [np.mean(dX)] for one source. *)
Definition mean_dX (eps : Q) (s : arr2) (a : Q) : Q :=
  nd_mean (Nd2 (map (map (fun x => np_power x a * np_log (x + eps))) s)).

(** The variables of the loop. *)
Record opt_state : Type := mkOpt {
  heap : store;
  alpha : ref;
  d_loss : vec;
  lrs : vec;
  i_s_loss : list Q;
  alpha_log : list ref;
  iter_index : option nat;
  exit : loop_exit
}.

Definition opt_init (lr : Q) (num_elements : nat) : opt_state :=
  {| heap := [repeat (115 # 100) num_elements];
     alpha := 0%nat;
     d_loss := repeat 0 num_elements;
     lrs := repeat lr num_elements;
     i_s_loss := [];
     alpha_log := [];
     iter_index := None;
     exit := GoOn |}.

(** The last three losses, [i_s_loss[-1]], [[-2]] and [[-3]]. *)
Definition loss_at (l : list Q) (i : Z) : Q :=
  match py_index l i with
  | Some x => x
  | None => 0
  end.

(** The RProp update of the learning rates (lines 316-320). *)
Definition rprop (eta_plus eta_minus : Q) (l : list Q) (lrs : vec) : vec :=
  let lrs1 := if Qlt_le_dec 0 (loss_at l (-2) - loss_at l (-1))
              then map (fun x => x * eta_plus) lrs else lrs in
  if Qlt_le_dec (loss_at l (-2) - loss_at l (-1)) 0
  then map (fun x => x * eta_minus) lrs1 else lrs1.

(** The stagnation test of line 323. *)
Definition stagnated (l : list Q) : bool :=
  (if Qlt_le_dec (Qabs (loss_at l (-2) - loss_at l (-1))) (1 # 10000) then true else false)
  && (if Qlt_le_dec (Qabs (loss_at l (-3) - loss_at l (-2))) (1 # 10000) then true else false).

(** "Stuck": the terminal loss exceeds [3e-1] (line 324). *)
Definition stuck (l : list Q) : bool :=
  if Qlt_le_dec (3 # 10) (loss_at l (-1)) then true else false.

(** [d_loss[source] = self._dIS(Xhat) * np.mean(dX)] for every source;
    [dis] is the value of [self._dIS(Xhat)]. *)
Definition loss_derivatives (eps dis : Q) (s_list : list arr2) (a : vec) : vec :=
  map2 (fun s ak => dis * mean_dX eps s ak) s_list a.

(** [alpha - lrs * d_loss] *)
Definition gradient_step (a lrs d_loss : vec) : vec :=
  map2 Qminus a (map2 Qmult lrs d_loss).

(** [np.round(np.clip(alpha, a_min=0.5, a_max=2.) * 100.) / 100.] *)
Definition stabilize (a : vec) : vec :=
  map (fun x => inject_Z (rint (x * 100)) / 100) (map (clip (1 # 2) 2) a).

(** One iteration of the loop (lines 289-334). *)
Definition opt_body (self : FrequencyMasking) (s_list : list arr2)
           (idx : nat) (st : opt_state) : outcome opt_state :=
  (let a := deref (heap st) (alpha st) in
   let Xhat := Xhat_sum s_list a in
   dis <- _dIS self (Nd2 Xhat) ;;
   let d_loss' := loss_derivatives (_eps self) dis s_list a in
   (* alpha -= lrs * d_loss : in place, on the object [alpha] refers to *)
   let a1 := gradient_step a (lrs st) d_loss' in
   let h1 := update (heap st) (alpha st) a1 in
   (* np.clip and np.round build new arrays; [alpha] is rebound *)
   let a3 := stabilize a1 in
   let (h2, r) := alloc h1 a3 in
   let log' := (alpha_log st ++ [r])%list in
   loss <- _IS self (Nd2 (Xhat_acc s_list a3)) ;;
   let l1 := (i_s_loss st ++ [loss])%list in
   let st1 := {| heap := h2; alpha := r; d_loss := d_loss'; lrs := lrs st;
                 i_s_loss := l1; alpha_log := log';
                 iter_index := Some idx; exit := GoOn |} in
   if (2 <? idx)%nat then
     let lrs' := rprop (_eta_plus self) (_eta_minus self) l1 (lrs st) in
     if (4 <? idx)%nat && stagnated l1 then
       if stuck l1 then
         match py_index log' (Z.of_nat (argmin l1) - 1) with
         | Some r' =>
             Ok {| heap := h2; alpha := r'; d_loss := d_loss'; lrs := lrs';
                   i_s_loss := set_last l1 (nth (argmin l1) l1 0);
                   alpha_log := log'; iter_index := Some idx; exit := Stuck |}
         | None => Raise (IndexError index_msg)
         end
       else
         Ok {| heap := h2; alpha := r; d_loss := d_loss'; lrs := lrs';
               i_s_loss := l1; alpha_log := log';
               iter_index := Some idx; exit := LocalMinimum |}
     else
       Ok {| heap := h2; alpha := r; d_loss := d_loss'; lrs := lrs';
             i_s_loss := l1; alpha_log := log';
             iter_index := Some idx; exit := GoOn |}
   else Ok st1)%out.

(** [for iter_index in range(...)] with its [break]. *)
Fixpoint opt_loop (self : FrequencyMasking) (s_list : list arr2)
         (indices : list nat) (st : opt_state) : outcome opt_state :=
  match indices with
  | [] => Ok st
  | idx :: rest =>
      (st' <- opt_body self s_list idx st ;;
       match exit st' with
       | GoOn => opt_loop self s_list rest st'
       | _ => Ok st'
       end)%out
  end.

(** Lines 275-278: the target in front of the residual components, as
    one 3-D array.  The model follows sources that are 2-D arrays of one
    shape.  For any other input it stops here with an error; numpy may
    instead build an array of objects and fail at the first indexing of
    the loop, so the class and the place of that error are not those of
    the program, and every statement about the optimizer below is about
    engines for which [stack_sources] returns. *)
Definition stack_sources (self : FrequencyMasking) : outcome (list arr2) :=
  match _sTarget self with
  | Nd2 t =>
      (rest <- match _nResidual self with
               | PyList l => Ok l
               | PyArr (Nd3 l) => Ok l
               | PyArr (Nd0 _) => Raise (TypeError unsized_msg)
               | PyArr _ => Raise (ValueError inhomogeneous_msg)
               end ;;
       if all_same_shape (t :: rest) then Ok (t :: rest)
       else Raise (ValueError inhomogeneous_msg))%out
  | _ => Raise (ValueError inhomogeneous_msg)
  end.

(** What the optimizer leaves on the engine. *)
Definition commit (self : FrequencyMasking) (a : vec) (closs : Q) (iters : nat)
  : FrequencyMasking :=
  {| _mX := _mX self; _eps := _eps self; _sTarget := _sTarget self;
     _nResidual := _nResidual self; _pTarget := _pTarget self; _pY := _pY self;
     _mask := _mask self; _Out := _Out self; _alpha := Nd1 a;
     _method := _method self; _iterations := _iterations self; _lr := _lr self;
     _eta_plus := _eta_plus self; _eta_minus := _eta_minus self;
     _amount_iter := iters; _closs := Some closs |}.

(** Lines 336-345: which exponent and loss are written back. *)
Definition opt_select (self : FrequencyMasking) (st : opt_state)
  : outcome FrequencyMasking :=
  match iter_index st with
  | None => Raise (NameError iter_index_msg)
  | Some idx =>
      if Nat.eqb idx (_iterations self) then
        Ok (commit self
                   (deref (heap st) (nth (argmin (i_s_loss st)) (alpha_log st) 0%nat))
                   (nth (argmin (i_s_loss st)) (i_s_loss st) 0)
                   idx)
      else
        Ok (commit self (deref (heap st) (alpha st)) (loss_at (i_s_loss st) (-1)) idx)
  end.

(** Lines 347-352: the mask from the local [alpha]. *)
Definition opt_mask (eps : Q) (s_list : list arr2) (a : vec) : arr2 :=
  map2 (map2 (fun n d => (n + eps) / (d + eps)))
       (source_power (hd [] s_list) (hd 0 a))
       (Xhat_acc s_list a).

(** The loop of [optAlpha] from its initial state. *)
Definition opt_run (self : FrequencyMasking) (s_list : list arr2) : outcome opt_state :=
  opt_loop self s_list (seq 0 (_iterations self))
           (opt_init (_lr self) (length s_list)).

(** [optAlpha(initloss)]; the argument is never read. *)
Definition optAlpha (initloss : Q) : M unit :=
  fun self =>
    match stack_sources self with
    | Raise e => (self, Raise e)
    | Ok s_list =>
        match opt_run self s_list with
        | Raise e => (self, Raise e)
        | Ok st =>
            match opt_select self st with
            | Raise e => (self, Raise e)
            | Ok self' =>
                (set_mask (PyArr (Nd2 (opt_mask (_eps self) s_list
                                                (deref (heap st) (alpha st)))))
                          self',
                 Ok tt)
            end
        end
    end.

End OptAlpha.

(** ** Arrays of one shape

    [congruent a b]: the two arrays have the same rank and the same
    lengths along every axis, row by row.  For such operands a ufunc does
    no broadcasting and works element by element, as [nd_zip] does. *)

Definition congruent (a b : ndarray) : Prop :=
  match a, b with
  | Nd0 _, Nd0 _ => True
  | Nd1 v, Nd1 w => length v = length w
  | Nd2 a, Nd2 b => Forall2 (fun r s : vec => length r = length s) a b
  | Nd3 a, Nd3 b => Forall2 (Forall2 (fun r s : vec => length r = length s)) a b
  | _, _ => False
  end.

Definition nd_zip (f : Q -> Q -> Q) (a b : ndarray) : ndarray :=
  match a, b with
  | Nd0 x, Nd0 y => Nd0 (f x y)
  | Nd1 v, Nd1 w => Nd1 (map2 f v w)
  | Nd2 a, Nd2 b => Nd2 (map2 (map2 f) a b)
  | Nd3 a, Nd3 b => Nd3 (map2 (map2 (map2 f)) a b)
  | _, _ => a
  end.

(** Every element satisfies [P]; two arrays of one shape are related by
    [R] element by element. *)
Definition nd_all (P : Q -> Prop) (a : ndarray) : Prop := Forall P (flat a).

Definition nd_all2 (R : Q -> Q -> Prop) (a b : ndarray) : Prop :=
  congruent a b /\ Forall2 R (flat a) (flat b).

(** ** Engines used in the examples *)

(** A [Phase] engine on 1x1 spectrograms with a target phase and the empty
    array [np.array([])] as residual phase. *)
Definition phase_engine_no_residual_phase : FrequencyMasking :=
  init (Nd2 [[1]]) (Nd2 [[1]]) (PyArr (Nd2 [[1]]))
       (PyArr (Nd2 [[0]])) (PyArr (Nd1 [])) (Nd0 (12 # 10)) "Phase".

(** The same on 1x2 spectrograms. *)
Definition phase_engine_no_residual_phase_wide : FrequencyMasking :=
  init (Nd2 [[1; 1]]) (Nd2 [[1; 1]]) (PyArr (Nd2 [[1; 1]]))
       (PyArr (Nd2 [[0; 0]])) (PyArr (Nd1 [])) (Nd0 (12 # 10)) "Phase".

(** A [Wiener] engine whose single residual component is the target. *)
Definition wiener_engine : FrequencyMasking :=
  init (Nd2 [[3; 4]]) (Nd2 [[0; 1]]) (PyList [[[0; 1]]])
       (PyList []) (PyList []) (Nd0 (12 # 10)) "Wiener".

(** An [IRM] engine: target and residual constant 2 on a 2x2 grid. *)
Definition irm_engine : FrequencyMasking :=
  init (Nd2 [[4; 4]; [4; 4]]) (Nd2 [[2; 2]; [2; 2]]) (PyArr (Nd2 [[2; 2]; [2; 2]]))
       (PyList []) (PyList []) (Nd0 2) "IRM".

(** The engine above after its mask has been computed. *)
Definition irm_engine_masked : FrequencyMasking :=
  set_mask (PyArr (Nd2 [[1 # 3; 1 # 2]; [1 # 4; 1]])) irm_engine.

(** An [expMask] engine on 1x2 spectrograms. *)
Definition expmask_engine : FrequencyMasking :=
  init (Nd2 [[3; 4]]) (Nd2 [[1; 2]]) (PyArr (Nd2 [[2; 5]]))
       (PyList []) (PyList []) (Nd0 (12 # 10)) "expMask".

(** An engine with a method name [__call__] does not know. *)
Definition ratio_engine : FrequencyMasking :=
  init (Nd2 [[1]]) (Nd2 [[1]]) (PyArr (Nd2 [[1]])) (PyList []) (PyList [])
       (Nd0 (12 # 10)) "Ratio".

(** ** The covariance recurrence of [MWF], in the words of the specification

    [R <- lambda * R + (1 - lambda) * value] with [lambda = 0.99], on every
    entry of a covariance matrix. *)
Definition forget (value : Q) (R : arr2) : arr2 :=
  map (map (fun r => (99 # 100) * r + (1 # 100) * value)) R.

(** Covariances of shape (M, M, F): every entry holds [F] bins. *)
Definition cov_wf (F : nat) (R : arr3) : Prop :=
  Forall (Forall (fun v : vec => length v = F)) R.

(** An [MWF] state and single-channel estimates on 2 channels, 1 bin. *)
Definition mwf_example_state : mwf_state :=
  {| Rxx := repeat_last (eye 2) 1; Rnn := repeat_last (eye 2) 1; fout := zeros3 2 1 1 |}.
Definition mwf_example_cX : ndarray := Nd3 [[[4]]].
Definition mwf_example_cN : ndarray := Nd3 [[[9]]].

(** ** The loss of an iteration, in the words of the specification

    [mean(r - log(r) - 1)] with [r = (|mixture|^a + eps) / (|Xhat| + eps)],
    over the elements of the mixture and of [Xhat] in order; [a] is the
    exponent the reference power is taken with. *)
Definition IS_spec (np_power : Q -> Q -> Q) (np_log : Q -> Q)
           (eps a : Q) (mixture Xhat : list Q) : Q :=
  Qsum (map2 (fun m x =>
                let r := (np_power (Qabs m) a + eps) / (Qabs x + eps) in
                r - np_log r - 1) mixture Xhat)
  / inject_Z (Z.of_nat (length mixture)).

(** The same with [log(r)] computed the way [_IS] computes it, as
    [log(|mixture|^a + eps) - log(|Xhat| + eps)]. *)
Definition IS_code (np_power : Q -> Q -> Q) (np_log : Q -> Q)
           (eps a : Q) (mixture Xhat : list Q) : Q :=
  Qsum (map2 (fun m x =>
                let num := np_power (Qabs m) a + eps in
                let den := Qabs x + eps in
                num / den - (np_log num - np_log den) - 1) mixture Xhat)
  / inject_Z (Z.of_nat (length mixture)).

(** ** Concrete runs of the optimizer

    To run the optimizer on concrete spectrograms, [np.power] and [np.log]
    are given by tables: the float64 results of numpy at exactly the
    arguments the run evaluates, written as the rationals they are (and 0
    at any other argument, which the run never asks for). *)

Definition table_power (values : list (Q * Q * Q)) (x a : Q) : Q :=
  match find (fun e => Qeq_bool (fst (fst e)) x && Qeq_bool (snd (fst e)) a) values with
  | Some e => snd e
  | None => 0
  end.

Definition table_log (values : list (Q * Q)) (x : Q) : Q :=
  match find (fun e => Qeq_bool (fst e) x) values with
  | Some e => snd e
  | None => 0
  end.

(** A 1x1 example: mixture 32, target 0.25, one residual component 1.0,
    engine exponent 2. *)
Definition stuck_engine : FrequencyMasking :=
  init (Nd2 [[32]]) (Nd2 [[1 # 4]]) (PyList [[[1]]]) (PyList []) (PyList [])
       (Nd0 2) "alphaWiener".

Definition stuck_power_values : list (Q * Q * Q) :=
  [((1 # 4), (23 # 20), (3658059589560735 # 18014398509481984));
   ((1 # 1), (23 # 20), (1 # 1));
   ((32 # 1), (2 # 1), (1024 # 1));
   ((1 # 4), (17 # 20), (5544581521179433 # 18014398509481984));
   ((1 # 4), (1 # 2), (1 # 2));
   ((32 # 1), (17 # 20), (5355712719992597 # 281474976710656))].

Definition stuck_log_values : list (Q * Q) :=
  [((1125899906842625 # 4503599627370496), (-6243314768165355 # 4503599627370496));
   ((4503599627370497 # 4503599627370496), (9007199254740991 # 40564819207303340847894502572032));
   ((4611686018427387905 # 4503599627370496), (7804143460206699 # 1125899906842624));
   ((23558980030661421 # 18014398509481984), (4833906416122667 # 18014398509481984));
   ((6755399441055745 # 4503599627370496), (7304210039150671 # 18014398509481984));
   ((12695022743686156 # 872554815950423), (753660454895045 # 281474976710656))].

(** A 1x2 example: mixture [300, 30000], target [1000, 2e7], one residual
    component [20, 40], engine exponent 2. *)
Definition exhaust_engine : FrequencyMasking :=
  init (Nd2 [[300; 30000]]) (Nd2 [[1000; 20000000]]) (PyList [[[20; 40]]])
       (PyList []) (PyList []) (Nd0 2) "alphaWiener".

Definition exhaust_power_values : list (Q * Q * Q) :=
  [((1000 # 1), (23 # 20), (193677800278167 # 68719476736));
   ((20 # 1), (23 # 20), (4411581341371275 # 140737488355328));
   ((20000000 # 1), (23 # 20), (8354767845234915 # 33554432));
   ((40 # 1), (23 # 20), (4894955979929681 # 70368744177664));
   ((300 # 1), (2 # 1), (90000 # 1));
   ((30000 # 1), (2 # 1), (900000000 # 1));
   ((1000 # 1), (2 # 1), (1000000 # 1));
   ((20000000 # 1), (2 # 1), (400000000000000 # 1));
   ((1000 # 1), (1 # 2), (8901020307485223 # 281474976710656));
   ((20000000 # 1), (1 # 2), (1229291370879291 # 274877906944));
   ((20 # 1), (2 # 1), (400 # 1));
   ((40 # 1), (2 # 1), (1600 # 1));
   ((1000 # 1), (27 # 20), (771045210677665 # 68719476736));
   ((20000000 # 1), (27 # 20), (7533389240123163 # 1048576));
   ((1000 # 1), (51 # 100), (1192201886972799 # 35184372088832));
   ((20000000 # 1), (51 # 100), (5817349069056227 # 1099511627776));
   ((1000 # 1), (13 # 25), (5109869350528229 # 140737488355328));
   ((20000000 # 1), (13 # 25), (860291114481749 # 137438953472));
   ((1000 # 1), (53 # 100), (5475323656332947 # 140737488355328));
   ((20000000 # 1), (53 # 100), (8142274211797375 # 1099511627776));
   ((1000 # 1), (27 # 50), (5866915000184911 # 140737488355328));
   ((20000000 # 1), (27 # 50), (1204109650793153 # 137438953472));
   ((1000 # 1), (11 # 20), (6286512684886227 # 140737488355328));
   ((20000000 # 1), (11 # 20), (5698182157638353 # 549755813888));
   ((1000 # 1), (14 # 25), (3368059852238345 # 70368744177664));
   ((20000000 # 1), (14 # 25), (3370673081998845 # 274877906944));
   ((1000 # 1), (57 # 100), (7217882305738209 # 140737488355328));
   ((20000000 # 1), (57 # 100), (7975481802021147 # 549755813888));
   ((1000 # 1), (29 # 50), (7734100233531419 # 140737488355328));
   ((20000000 # 1), (29 # 50), (2358887543636025 # 137438953472));
   ((1000 # 1), (59 # 100), (2071809427217899 # 35184372088832));
   ((20000000 # 1), (59 # 100), (5581456349996141 # 274877906944));
   ((1000 # 1), (3 # 5), (4439967596074493 # 70368744177664));
   ((20000000 # 1), (3 # 5), (825406425980281 # 34359738368));
   ((1000 # 1), (61 # 100), (4757510993823227 # 70368744177664));
   ((20000000 # 1), (61 # 100), (7812106092203117 # 274877906944));
   ((1000 # 1), (31 # 50), (5097764874761739 # 70368744177664));
   ((20000000 # 1), (31 # 50), (4621132668321315 # 137438953472));
   ((1000 # 1), (63 # 100), (1365588369217343 # 17592186044416));
   ((20000000 # 1), (63 # 100), (5467121640741601 # 137438953472));
   ((1000 # 1), (16 # 25), (2926508601248647 # 35184372088832));
   ((20000000 # 1), (16 # 25), (3233992743766307 # 68719476736));
   ((1000 # 1), (13 # 20), (6271620926363659 # 70368744177664));
   ((20000000 # 1), (13 # 20), (7652077092116377 # 137438953472));
   ((1000 # 1), (33 # 50), (3360081448865411 # 35184372088832));
   ((20000000 # 1), (33 # 50), (1131617486166263 # 17179869184));
   ((1000 # 1), (67 # 100), (7200784279260071 # 70368744177664));
   ((20000000 # 1), (67 # 100), (5355129048834323 # 68719476736));
   ((1000 # 1), (69 # 100), (4133803273925133 # 35184372088832));
   ((20000000 # 1), (69 # 100), (7495326245265959 # 68719476736));
   ((1000 # 1), (71 # 100), (1186560299878203 # 8796093022208));
   ((20000000 # 1), (71 # 100), (2622715298299009 # 17179869184));
   ((1000 # 1), (37 # 50), (182473510203241 # 1099511627776));
   ((20000000 # 1), (37 # 50), (4342922199753121 # 17179869184));
   ((1000 # 1), (39 # 50), (3848750950935421 # 17592186044416));
   ((20000000 # 1), (39 # 50), (265872409160109 # 536870912));
   ((1000 # 1), (17 # 20), (6241943154446847 # 17592186044416));
   ((20000000 # 1), (17 # 20), (6899781812994395 # 4294967296));
   ((1000 # 1), (51 # 50), (1262408257308947 # 1099511627776));
   ((20000000 # 1), (51 # 50), (1878583410566645 # 67108864));
   ((1000 # 1), (9 # 5), (8630776059679835 # 34359738368));
   ((20000000 # 1), (9 # 5), (221806349809647 # 16));
   ((1000 # 1), (89 # 50), (469818231315359 # 2147483648));
   ((20000000 # 1), (89 # 50), (5071113761140995 # 512));
   ((1000 # 1), (177 # 100), (3507679079743155 # 17179869184));
   ((20000000 # 1), (177 # 100), (4286403523884943 # 512));
   ((1000 # 1), (101 # 100), (4712591741980837 # 4398046511104));
   ((20000000 # 1), (101 # 100), (6351556624636153 # 268435456));
   ((1000 # 1), (17 # 10), (8651269554814847 # 68719476736));
   ((20000000 # 1), (17 # 10), (5285437539518181 # 2048));
   ((1000 # 1), (169 # 100), (8073834519385025 # 68719476736));
   ((20000000 # 1), (169 # 100), (8935125166494797 # 4096));
   ((1000 # 1), (42 # 25), (3767470394569641 # 34359738368));
   ((20000000 # 1), (42 # 25), (3776246580534113 # 2048));
   ((1000 # 1), (167 # 100), (1758003974428727 # 17179869184));
   ((20000000 # 1), (167 # 100), (3191905646821447 # 2048))].

Definition exhaust_log_values : list (Q * Q) :=
  [((4503599627370496001 # 4503599627370496), (243045032034301 # 35184372088832));
   ((90071992547409920000001 # 4503599627370496), (2365972092239393 # 140737488355328));
   ((90071992547409921 # 4503599627370496), (6745789375439761 # 2251799813685248));
   ((180143985094819841 # 4503599627370496), (8306618067481101 # 2251799813685248));
   ((405323966463344640001 # 4503599627370496), (802736019608251 # 70368744177664));
   ((4503740797973419880801 # 4503599627370496), (7777458671146431 # 562949953421312));
   ((4053239664633446400000001 # 4503599627370496), (5803424420132215 # 281474976710656));
   ((1801439850948511677182715499585 # 4503599627370496), (4731944184478811 # 140737488355328));
   ((283586927843644369 # 4503599627370496), (1166049977646285 # 281474976710656));
   ((20453987003201803329 # 4503599627370496), (1185158286466039 # 140737488355328));
   ((4505401067221444198401 # 4503599627370496), (7777666160055011 # 562949953421312));
   ((1801439850955404159403792793601 # 4503599627370496), (4731944184479349 # 140737488355328));
   ((1943856175867961969 # 4503599627370496), (6831456236595523 # 1125899906842624));
   ((27346469224279097345 # 4503599627370496), (4904119215284961 # 562949953421312));
   ((52332658777919651841 # 4503599627370496), (2634746213193087 # 281474976710656));
   ((32355667620126679889870849 # 4503599627370496), (3194062355866085 # 140737488355328));
   ((1954041692480716673 # 4503599627370496), (6837340381688319 # 1125899906842624));
   ((31033621190647099393 # 4503599627370496), (2487661617323855 # 281474976710656));
   ((1964955670165101729 # 4503599627370496), (1710902853331605 # 281474976710656));
   ((35395778643130744833 # 4503599627370496), (5049363197466579 # 562949953421312));
   ((1976650207950852705 # 4503599627370496), (3425146202401733 # 562949953421312));
   ((40556514575314841601 # 4503599627370496), (2562991428816525 # 281474976710656));
   ((1989181130954115553 # 4503599627370496), (6857407489026265 # 1125899906842624));
   ((46662024440982831105 # 4503599627370496), (1301231927677573 # 140737488355328));
   ((2002608256864557665 # 4503599627370496), (6864981865005965 # 1125899906842624));
   ((53885267639166181377 # 4503599627370496), (5285951104757081 # 562949953421312));
   ((2016995681491452481 # 4503599627370496), (3436520899005403 # 562949953421312));
   ((62430867179261870081 # 4503599627370496), (2684409430764559 # 281474976710656));
   ((2032412084731821089 # 4503599627370496), (3440807306261231 # 562949953421312));
   ((72540906325950029825 # 4503599627370496), (5453312475199101 # 562949953421312));
   ((2048931058421203809 # 4503599627370496), (1722682169276695 # 281474976710656));
   ((84501786433658060801 # 4503599627370496), (1384807762423483 # 140737488355328));
   ((2066631457632089473 # 4503599627370496), (3450206690145153 # 562949953421312));
   ((98652340242129567745 # 4503599627370496), (351649511585985 # 35184372088832));
   ((2085597777096965953 # 4503599627370496), (863837387066155 # 140737488355328));
   ((115393430469880184833 # 4503599627370496), (5714632039989935 # 562949953421312));
   ((2105920554552884929 # 4503599627370496), (865202142671307 # 140737488355328));
   ((135199305618448662529 # 4503599627370496), (2901902389132003 # 281474976710656));
   ((2127696802932949697 # 4503599627370496), (6933199714938131 # 1125899906842624));
   ((158631034679345643521 # 4503599627370496), (5893781599256367 # 562949953421312));
   ((2151030473467838209 # 4503599627370496), (6945479832937503 # 1125899906842624));
   ((186352401327613575169 # 4503599627370496), (5984449498515471 # 562949953421312));
   ((2176032951908025217 # 4503599627370496), (6958491244452285 # 1125899906842624));
   ((219148707859261489153 # 4503599627370496), (759463736120683 # 70368744177664));
   ((2202823590235472577 # 4503599627370496), (871533541990883 # 140737488355328));
   ((257949021558262235137 # 4503599627370496), (6167477173681573 # 562949953421312));
   ((2231530276402971009 # 4503599627370496), (6986846020872733 # 1125899906842624));
   ((303852493697361641473 # 4503599627370496), (6259677337172269 # 562949953421312));
   ((2262290044820842945 # 4503599627370496), (7002259615013143 # 1125899906842624));
   ((358159496748198985729 # 4503599627370496), (6352246600077177 # 562949953421312));
   ((2330566670010615425 # 4503599627370496), (1758934238378159 # 281474976710656));
   ((498419460213542682625 # 4503599627370496), (817285133767117 # 70368744177664));
   ((2408958724485838337 # 4503599627370496), (1768246316011531 # 281474976710656));
   ((694734838561088208897 # 4503599627370496), (6725230125678825 # 562949953421312));
   ((2548851348740673537 # 4503599627370496), (7136540305863411 # 1125899906842624));
   ((1145676756535874945025 # 4503599627370496), (3503414630392057 # 281474976710656));
   ((2786720094387666177 # 4503599627370496), (452312244721739 # 70368744177664));
   ((2237505177863556431873 # 4503599627370496), (3691824400968699 # 281474976710656));
   ((3399377298486591233 # 4503599627370496), (7460742577327621 # 1125899906842624));
   ((7242151373746203525121 # 4503599627370496), (8044865513569681 # 562949953421312));
   ((6972264072885645313 # 4503599627370496), (2067382556535977 # 281474976710656));
   ((126076804371776935034881 # 4503599627370496), (4826599155972407 # 281474976710656));
   ((1133054519545303531521 # 4503599627370496), (875074083403095 # 70368744177664));
   ((62432937154151766627589292033 # 4503599627370496), (4258749766047151 # 140737488355328));
   ((987081683290415955969 # 4503599627370496), (6922950843647115 # 562949953421312));
   ((44605988376401031943747010561 # 4503599627370496), (4211430324208855 # 140737488355328));
   ((921318464531137822721 # 4503599627370496), (1721034278034059 # 140737488355328));
   ((37703604134017888789928607745 # 4503599627370496), (4187770603290623 # 140737488355328));
   ((6627133794736575489 # 4503599627370496), (8212370989015561 # 1125899906842624));
   ((106568643187155453083649 # 4503599627370496), (2389641329608059 # 140737488355328));
   ((568771041395294011393 # 4503599627370496), (3306305351964717 # 281474976710656));
   ((11622800072373782439905984513 # 4503599627370496), (4022152556894221 # 140737488355328));
   ((530928258913365196801 # 4503599627370496), (3286925501750013 # 281474976710656));
   ((9824274023400756669497475073 # 4503599627370496), (7996985671975601 # 281474976710656));
   ((495611319407980183553 # 4503599627370496), (6535100390074501 # 562949953421312));
   ((8304054056498992324045438977 # 4503599627370496), (248427069692769 # 8796093022208));
   ((462651633723592409089 # 4503599627370496), (1624089877204899 # 140737488355328));
   ((7019074754093870106588217345 # 4503599627370496), (3951173394184267 # 140737488355328))].


(** The sources of the two examples as [stack_sources] lists them, and
    the oracles of their runs. *)
Definition stuck_sources : list arr2 := [[[1 # 4]]; [[1]]].
Definition exhaust_sources : list arr2 := [[[1000; 20000000]]; [[20; 40]]].

Definition stuck_power : Q -> Q -> Q := table_power stuck_power_values.
Definition stuck_log : Q -> Q := table_log stuck_log_values.
Definition exhaust_power : Q -> Q -> Q := table_power exhaust_power_values.
Definition exhaust_log : Q -> Q := table_log exhaust_log_values.

(** The loop keeps one exponent and one learning rate per source. *)
Definition opt_inv (s_list : list arr2) (st : opt_state) : Prop :=
  length (deref (heap st) (alpha st)) = length s_list
  /\ length (lrs st) = length s_list.

(** ** Engines of the further examples *)

(** Replacing the residual argument of an engine. *)
Definition set_nResidual (r : pyval) (self : FrequencyMasking) : FrequencyMasking :=
  {| _mX := _mX self; _eps := _eps self; _sTarget := _sTarget self;
     _nResidual := r; _pTarget := _pTarget self; _pY := _pY self;
     _mask := _mask self; _Out := _Out self; _alpha := _alpha self;
     _method := _method self; _iterations := _iterations self; _lr := _lr self;
     _eta_plus := _eta_plus self; _eta_minus := _eta_minus self;
     _amount_iter := _amount_iter self; _closs := _closs self |}.

(** Replacing the iteration cap of an engine ([mask._iterations = n]). *)
Definition set_iterations (n : nat) (self : FrequencyMasking) : FrequencyMasking :=
  {| _mX := _mX self; _eps := _eps self; _sTarget := _sTarget self;
     _nResidual := _nResidual self; _pTarget := _pTarget self; _pY := _pY self;
     _mask := _mask self; _Out := _Out self; _alpha := _alpha self;
     _method := _method self; _iterations := n; _lr := _lr self;
     _eta_plus := _eta_plus self; _eta_minus := _eta_minus self;
     _amount_iter := _amount_iter self; _closs := _closs self |}.

(** An [IBM] engine with exponent 1: target [3, 1], residual [1, 3]. *)
Definition ibm_engine : FrequencyMasking :=
  init (Nd2 [[4; 4]]) (Nd2 [[3; 1]]) (PyArr (Nd2 [[1; 3]]))
       (PyList []) (PyList []) (Nd0 1) "IBM".

(** An [UBBM] engine with exponent 1 on the same spectrograms. *)
Definition ubbm_engine : FrequencyMasking :=
  init (Nd2 [[4; 4]]) (Nd2 [[3; 1]]) (PyArr (Nd2 [[1; 3]]))
       (PyList []) (PyList []) (Nd0 1) "UBBM".

(** A [Wiener] engine with two residual components. *)
Definition wiener_engine_two : FrequencyMasking :=
  init (Nd2 [[3; 4]]) (Nd2 [[1; 2]]) (PyList [[[2; 0]]; [[-1; 1]]])
       (PyList []) (PyList []) (Nd0 (12 # 10)) "Wiener".

(** A [Wiener] engine without residual components. *)
Definition wiener_engine_none : FrequencyMasking :=
  init (Nd2 [[3; 4]]) (Nd2 [[1; 2]]) (PyList [])
       (PyList []) (PyList []) (Nd0 (12 # 10)) "Wiener".

(** An [alphaWiener] engine as the demo builds it: the residual in a list. *)
Definition alpha_wiener_engine : FrequencyMasking :=
  init (Nd2 [[3; 4]]) (Nd2 [[1; 2]]) (PyList [[[2; 5]]])
       (PyList []) (PyList []) (Nd0 2) "alphaWiener".

(** A [Phase] engine built without the two phase arguments. *)
Definition phase_engine_defaults : FrequencyMasking :=
  init (Nd2 [[1]]) (Nd2 [[1]]) (PyArr (Nd2 [[1]]))
       (PyList []) (PyList []) (Nd0 (12 # 10)) "Phase".

(** An [MWF] engine on 2-D spectrograms. *)
Definition mwf_engine_2d : FrequencyMasking :=
  init (Nd2 [[3; 4]]) (Nd2 [[1; 2]]) (PyArr (Nd2 [[2; 5]]))
       (PyList []) (PyList []) (Nd0 2) "MWF".

(** ** What a method may change

    [mask_only c]: whatever [c] does, the engine afterwards differs from
    the engine before in [_mask] at most.  [mask_and_Out_only c]: it differs
    in [_mask] and [_Out] at most, and in [_mask] at most when [c] raises. *)
Definition mask_only {A : Type} (c : M A) : Prop :=
  forall self self' o, c self = (self', o) -> self' = set_mask (_mask self') self.

Definition mask_and_Out_only {A : Type} (c : M A) : Prop :=
  forall self self' o, c self = (self', o) ->
    self' = set_Out (_Out self') (set_mask (_mask self') self)
    /\ (forall e, o = Raise e -> _Out self' = _Out self).

(** ** Column sums

    [column_energy T r]: for each of the [T] columns of [r], the sum of the
    squares of its entries. *)
Definition column_energy (T : nat) (r : arr2) : vec :=
  fold_left (fun acc row => map2 Qplus acc (map (fun v => v ^ 2) row)) r (repeat 0 T).

(** A [Wiener] engine with the residual given as one 2-D array. *)
Definition wiener_engine_array : FrequencyMasking :=
  init (Nd2 [[3; 4]; [5; 6]]) (Nd2 [[1; 2]; [3; 4]]) (PyArr (Nd2 [[2; 0]; [1; 5]]))
       (PyList []) (PyList []) (Nd0 (12 # 10)) "Wiener".

(** ** Methods whose mask is applied by multiplication

    The methods of [__call__] that end in [applyMask] or
    [applyReverseMask] with a multiplicative mask: all but [expMask] and
    [MWF]. *)
Definition multiplicative_methods : list string :=
  ["Phase"; "IRM"; "IAM"; "IBM"; "UBBM"; "Wiener"; "alphaWiener"].

(** [computes_mask c f]: the method [c] stores [f self] as the mask, or
    raises what [f self] raises and leaves the engine alone; and [f] reads
    neither [_mask] nor [_Out]. *)
Definition computes_mask (c : M unit) (f : FrequencyMasking -> outcome ndarray) : Prop :=
  (forall self,
      c self = match f self with
               | Ok m => (set_mask (PyArr m) self, Ok tt)
               | Raise e => (self, Raise e)
               end)
  /\ (forall self m o, f (set_Out o (set_mask m self)) = f self).

(** A [Phase] engine with both phase spectrograms. *)
Definition phase_engine : FrequencyMasking :=
  init (Nd2 [[3; 4]]) (Nd2 [[1; 2]]) (PyArr (Nd2 [[2; 5]]))
       (PyArr (Nd2 [[0; 1]])) (PyArr (Nd2 [[1; 1]])) (Nd0 (12 # 10)) "Phase".

(** ** The shape of the output of [MWF]

    [out_shape M F T o]: [o] has [M] channels of [F] rows of [T] entries. *)
Definition out_shape (M F T : nat) (o : arr3) : Prop :=
  length o = M
  /\ Forall (fun chan : arr2 =>
               length chan = F /\ Forall (fun row : vec => length row = T) chan) o.

(** An [MWF] engine: a mixture of 2 channels, estimates of 1 channel, 1
    frequency row and 2 time frames. *)
Definition mwf_engine : FrequencyMasking :=
  init (Nd3 [[[3; 1]]; [[4; 2]]]) (Nd3 [[[4; 1]]]) (PyArr (Nd3 [[[9; 2]]]))
       (PyList []) (PyList []) (Nd0 1) "MWF".

(** An engine whose mixture is, element by element, the square of the
    estimate [[[2; 3]]]. *)
Definition exact_engine : FrequencyMasking :=
  init (Nd2 [[2; 3]]) (Nd2 [[2; 3]]) (PyList [[[1; 1]]])
       (PyList []) (PyList []) (Nd0 2) "alphaWiener".

(** ** The element operations in binary64

    The arithmetic of one element of [IRM], [Wiener] (with one residual
    component), [applyMask] and [applyReverseMask] as float64 computes it:
    the same operations in the same order, every one rounded to nearest. *)

(** [np.finfo(np.float).eps] *)
Definition f64_eps : float := 0x1p-52%float.

(** [np.divide(sTarget, eps + sTarget + nResidual)] *)
Definition IRM_f64 (sTarget nResidual : float) : float :=
  (sTarget / (f64_eps + sTarget + nResidual))%float.

(** [localsTarget = sTarget ** 2.], [localnResidual = nResidual[0] ** 2. +
    localsTarget], [np.divide(localsTarget + eps, eps + localnResidual)] *)
Definition Wiener_f64 (sTarget nResidual0 : float) : float :=
  let localsTarget := (sTarget * sTarget)%float in
  let localnResidual := (nResidual0 * nResidual0 + localsTarget)%float in
  ((localsTarget + f64_eps) / (f64_eps + localnResidual))%float.

(** [np.multiply(mask, mX)] and [np.multiply(1. - mask, mX)] *)
Definition applyMask_f64 (mask mX : float) : float := (mask * mX)%float.

Definition applyReverseMask_f64 (mask mX : float) : float :=
  ((1 - mask) * mX)%float.

(** * Properties *)

(** ** Dispatch and the two [raise] statements *)

Lemma eqb_name_false (m n : string) :
  ~ In m method_names -> In n method_names -> String.eqb m n = false.
Proof.
  intros Hm Hn. apply String.eqb_neq. intros ->. exact (Hm Hn).
Qed.

(** C10.  A method selector outside the nine names makes [__call__] skip
    every branch: nothing is raised, the engine is left as it was, and the
    value returned is the output it already held, which is the empty list
    [[]] on an engine as [__init__] builds it. *)
Theorem call_unknown_method
        (np_power : Q -> Q -> Q) (np_log np_exp np_cos : Q -> Q)
        (np_pinv : arr2 -> arr2) (to_float32 : Q -> Q)
        (self : FrequencyMasking) (reverse : bool)
        (Hm : ~ In (_method self) method_names) :
  call np_power np_log np_exp np_cos np_pinv to_float32 reverse self
  = (self, Ok (_Out self))
  /\ (forall mx s_target n_residual ps_target pn_residual alpha method,
        self = init mx s_target n_residual ps_target pn_residual alpha method ->
        call np_power np_log np_exp np_cos np_pinv to_float32 reverse self
        = (self, Ok (PyList []))).
Proof.
  assert (E : call np_power np_log np_exp np_cos np_pinv to_float32 reverse self
              = (self, Ok (_Out self))).
  { unfold call, bind, get, id, ret.
    rewrite !(eqb_name_false (_method self)) by (trivial; simpl; tauto).
    reflexivity. }
  split; [exact E|].
  intros mx s_target n_residual ps_target pn_residual alpha method ->.
  rewrite E. reflexivity.
Qed.

Lemma call_unknown_method_witness :
  call (fun x _ => x) (fun x => x) (fun x => x) (fun x => x) (fun a => a) (fun x => x)
       true ratio_engine
  = (ratio_engine, Ok (PyList [])).
Proof.
  refine (proj2 (call_unknown_method (fun x _ => x) (fun x => x) (fun x => x)
                   (fun x => x) (fun a => a) (fun x => x) ratio_engine true _)
                _ _ _ _ _ _ _ eq_refl).
  simpl. intros [H|[H|[H|[H|[H|[H|[H|[H|[H|[]]]]]]]]]]; discriminate H.
Defined.

(** ** Elementwise operations on arrays of one shape *)

Lemma zipM_Forall2 {A B C : Type} (op : A -> B -> option C) (g : A -> B -> C)
      (xs : list A) (ys : list B) :
  Forall2 (fun x y => op x y = Some (g x y)) xs ys ->
  zipM op xs ys = Some (map2 g xs ys).
Proof.
  induction 1 as [|x y xs ys Hxy _ IH]; simpl; [reflexivity|].
  rewrite Hxy, IH. reflexivity.
Qed.

Lemma mapM_Forall {A C : Type} (op : A -> option C) (g : A -> C) (xs : list A) :
  Forall (fun x => op x = Some (g x)) xs -> mapM op xs = Some (map g xs).
Proof.
  induction 1 as [|x xs Hx _ IH]; simpl; [reflexivity|].
  rewrite Hx, IH. reflexivity.
Qed.

Lemma bcast_axis_Forall2 {A B C : Type} (op : A -> B -> option C) (g : A -> B -> C)
      (xs : list A) (ys : list B) :
  Forall2 (fun x y => op x y = Some (g x y)) xs ys ->
  bcast_axis op xs ys = Some (map2 g xs ys).
Proof.
  intros H. unfold bcast_axis.
  rewrite (Forall2_length H), Nat.eqb_refl. now apply zipM_Forall2.
Qed.

Lemma bcast_axis_one_l {A B C : Type} (op : A -> B -> option C) (g : B -> C)
      (x : A) (ys : list B) :
  Forall (fun y => op x y = Some (g y)) ys ->
  bcast_axis op [x] ys = Some (map g ys).
Proof.
  intros H. unfold bcast_axis.
  destruct ys as [|y [|y' ys]].
  - reflexivity.
  - simpl. inversion H as [|? ? Hy _]; subst. rewrite Hy. reflexivity.
  - change (mapM (op x) (y :: y' :: ys) = Some (map g (y :: y' :: ys))).
    now apply mapM_Forall.
Qed.

Lemma bcast_axis_one_r {A B C : Type} (op : A -> B -> option C) (g : A -> C)
      (xs : list A) (y : B) :
  Forall (fun x => op x y = Some (g x)) xs ->
  bcast_axis op xs [y] = Some (map g xs).
Proof.
  intros H. unfold bcast_axis.
  destruct xs as [|x [|x' xs]].
  - reflexivity.
  - simpl. inversion H as [|? ? Hx _]; subst. rewrite Hx. reflexivity.
  - change (mapM (fun x => op x y) (x :: x' :: xs) = Some (map g (x :: x' :: xs))).
    now apply mapM_Forall.
Qed.

Lemma bc1_same (f : Q -> Q -> Q) (v w : vec) :
  length v = length w -> bc1 f v w = Some (map2 f v w).
Proof.
  intros H. apply bcast_axis_Forall2.
  revert w H. induction v as [|x v IH]; intros [|y w] H; try discriminate; constructor.
  - reflexivity.
  - apply IH. now inversion H.
Qed.

Lemma bc2_same (f : Q -> Q -> Q) (a b : arr2) :
  Forall2 (fun r s : vec => length r = length s) a b ->
  bc2 f a b = Some (map2 (map2 f) a b).
Proof.
  intros H. apply bcast_axis_Forall2.
  induction H; constructor; auto using bc1_same.
Qed.

Lemma bc3_same (f : Q -> Q -> Q) (a b : arr3) :
  Forall2 (Forall2 (fun r s : vec => length r = length s)) a b ->
  bc3 f a b = Some (map2 (map2 (map2 f)) a b).
Proof.
  intros H. apply bcast_axis_Forall2.
  induction H; constructor; auto using bc2_same.
Qed.

(** Operands of one shape: no broadcasting. *)
Lemma nd_binop_congruent (f : Q -> Q -> Q) (a b : ndarray) :
  congruent a b -> nd_binop f a b = Ok (nd_zip f a b).
Proof.
  destruct a as [x|v|a|a], b as [y|w|b|b]; simpl; try contradiction; intros H;
    unfold nd_binop; simpl lift3.
  - reflexivity.
  - rewrite (bc3_same f [[v]] [[w]]) by (repeat constructor; exact H). reflexivity.
  - rewrite (bc3_same f [a] [b]) by (repeat constructor; exact H). reflexivity.
  - rewrite (bc3_same f a b) by exact H. reflexivity.
Qed.

Lemma bc1_scalar_l (f : Q -> Q -> Q) (x : Q) (w : vec) :
  bc1 f [x] w = Some (map (f x) w).
Proof.
  apply bcast_axis_one_l. apply Forall_forall. reflexivity.
Qed.

Lemma bc2_scalar_l (f : Q -> Q -> Q) (x : Q) (b : arr2) :
  bc2 f [[x]] b = Some (map (map (f x)) b).
Proof.
  apply bcast_axis_one_l. apply Forall_forall. intros w _. apply bc1_scalar_l.
Qed.

Lemma bc3_scalar_l (f : Q -> Q -> Q) (x : Q) (b : arr3) :
  bc3 f [[[x]]] b = Some (map (map (map (f x))) b).
Proof.
  apply bcast_axis_one_l. apply Forall_forall. intros w _. apply bc2_scalar_l.
Qed.

(** A scalar on the left is applied to every element. *)
Lemma nd_binop_scalar_l (f : Q -> Q -> Q) (x : Q) (b : ndarray) :
  nd_binop f (Nd0 x) b = Ok (nd_map (f x) b).
Proof.
  unfold nd_binop. simpl lift3. rewrite bc3_scalar_l.
  destruct b; reflexivity.
Qed.

Lemma bc1_scalar_r (f : Q -> Q -> Q) (v : vec) (y : Q) :
  bc1 f v [y] = Some (map (fun x => f x y) v).
Proof.
  apply bcast_axis_one_r. apply Forall_forall. reflexivity.
Qed.

Lemma bc2_scalar_r (f : Q -> Q -> Q) (a : arr2) (y : Q) :
  bc2 f a [[y]] = Some (map (map (fun x => f x y)) a).
Proof.
  apply bcast_axis_one_r. apply Forall_forall. intros w _. apply bc1_scalar_r.
Qed.

Lemma bc3_scalar_r (f : Q -> Q -> Q) (a : arr3) (y : Q) :
  bc3 f a [[[y]]] = Some (map (map (map (fun x => f x y))) a).
Proof.
  apply bcast_axis_one_r. apply Forall_forall. intros w _. apply bc2_scalar_r.
Qed.

(** A scalar on the right likewise. *)
Lemma nd_binop_scalar_r (f : Q -> Q -> Q) (a : ndarray) (y : Q) :
  nd_binop f a (Nd0 y) = Ok (nd_map (fun x => f x y) a).
Proof.
  unfold nd_binop. simpl lift3. rewrite bc3_scalar_r.
  destruct a; simpl; rewrite ?Nat.max_0_r; reflexivity.
Qed.

Lemma map2_length_same {A B C : Type} (f : A -> B -> C) (xs : list A) (ys : list B) :
  length xs = length ys -> length (map2 f xs ys) = length xs.
Proof.
  revert ys. induction xs as [|x xs IH]; intros [|y ys] H; simpl in *; try discriminate.
  - reflexivity.
  - f_equal. apply IH. now inversion H.
Qed.

Lemma map2_app {A B C : Type} (f : A -> B -> C) (xs xs' : list A) (ys ys' : list B) :
  length xs = length ys ->
  map2 f (xs ++ xs') (ys ++ ys') = (map2 f xs ys ++ map2 f xs' ys')%list.
Proof.
  revert ys. induction xs as [|x xs IH]; intros [|y ys] H; simpl in *; try discriminate.
  - reflexivity.
  - f_equal. apply IH. now inversion H.
Qed.

Lemma concat_map2 {A B C : Type} (g : A -> B -> C) (a : list (list A)) (b : list (list B)) :
  Forall2 (fun r s => length r = length s) a b ->
  concat (map2 (map2 g) a b) = map2 g (concat a) (concat b).
Proof.
  induction 1 as [|r s a b Hrs _ IH]; simpl; [reflexivity|].
  rewrite map2_app by exact Hrs. now rewrite IH.
Qed.

Lemma Forall2_concat {A B : Type} (R : A -> B -> Prop) (a : list (list A)) (b : list (list B)) :
  Forall2 (Forall2 R) a b -> Forall2 R (concat a) (concat b).
Proof.
  induction 1; simpl; [constructor|]. now apply Forall2_app.
Qed.

Lemma Forall2_lengths {A B : Type} (R : A -> B -> Prop) (a : list (list A)) (b : list (list B)) :
  Forall2 (Forall2 R) a b -> Forall2 (fun r s => length r = length s) a b.
Proof.
  induction 1 as [|r s a b Hrs _ IH]; constructor; [|exact IH].
  exact (Forall2_length Hrs).
Qed.

Lemma flat_zip (f : Q -> Q -> Q) (a b : ndarray) :
  congruent a b -> flat (nd_zip f a b) = map2 f (flat a) (flat b).
Proof.
  destruct a as [x|v|a|a], b as [y|w|b|b]; simpl; try contradiction; intros H.
  - reflexivity.
  - reflexivity.
  - now apply concat_map2.
  - rewrite (concat_map2 (map2 f)) by now apply Forall2_lengths in H.
    apply concat_map2. now apply Forall2_concat.
Qed.

Lemma flat_map (g : Q -> Q) (a : ndarray) : flat (nd_map g a) = map g (flat a).
Proof.
  destruct a as [x|v|a|a]; simpl.
  - reflexivity.
  - reflexivity.
  - now rewrite concat_map.
  - now rewrite !concat_map.
Qed.

Lemma congruent_flat (a b : ndarray) :
  congruent a b -> length (flat a) = length (flat b).
Proof.
  destruct a as [x|v|a|a], b as [y|w|b|b]; simpl; try contradiction; intros H.
  - reflexivity.
  - exact H.
  - assert (G : Forall2 (fun _ _ : Q => True) (concat a) (concat b)).
    { apply Forall2_concat. induction H as [|r s a b Hrs _ IH]; constructor; [|exact IH].
      clear - Hrs. revert s Hrs. induction r; intros [|? s] Hrs; try discriminate;
        constructor; [trivial|]. apply IHr. now inversion Hrs. }
    exact (Forall2_length G).
  - assert (G : Forall2 (fun _ _ : Q => True) (concat (concat a)) (concat (concat b))).
    { apply Forall2_concat, Forall2_concat.
      induction H as [|r s a b Hrs _ IH]; constructor; [|exact IH].
      induction Hrs as [|u v r s Huv _ IH']; constructor; [|exact IH'].
      clear - Huv. revert v Huv. induction u; intros [|? v] Huv; try discriminate;
        constructor; [trivial|]. apply IHu. now inversion Huv. }
    exact (Forall2_length G).
Qed.

Lemma Forall2_map_l {A B C : Type} (R : A -> B -> Prop) (g : C -> A) (xs : list C) (ys : list B) :
  Forall2 (fun x y => R (g x) y) xs ys -> Forall2 R (map g xs) ys.
Proof.
  induction 1; simpl; constructor; auto.
Qed.

Lemma Forall2_map2_l {A B C D : Type} (R : A -> B -> Prop) (g : C -> D -> A)
      (xs : list C) (ys : list D) (zs : list B) :
  length xs = length ys ->
  Forall2 (fun x z => forall y, R (g x y) z) xs zs ->
  Forall2 R (map2 g xs ys) zs.
Proof.
  intros Hl H. revert ys Hl.
  induction H as [|x z xs zs Hxz _ IH]; intros [|y ys] Hl; simpl in *; try discriminate;
    constructor; auto.
Qed.

Lemma congruent_map_l (g : Q -> Q) (a b : ndarray) :
  congruent a b -> congruent (nd_map g a) b.
Proof.
  destruct a as [x|v|a|a], b as [y|w|b|b]; simpl; try contradiction; intros H.
  - exact I.
  - now rewrite length_map.
  - apply Forall2_map_l.
    eapply Forall2_impl; [|exact H]. intros r s Hrs. now rewrite length_map.
  - apply Forall2_map_l.
    eapply Forall2_impl; [|exact H]. intros r s Hrs. apply Forall2_map_l.
    eapply Forall2_impl; [|exact Hrs]. intros u v Huv. now rewrite length_map.
Qed.

Lemma congruent_zip_r (f : Q -> Q -> Q) (a b : ndarray) :
  congruent a b -> congruent (nd_zip f a b) b.
Proof.
  destruct a as [x|v|a|a], b as [y|w|b|b]; simpl; try contradiction; intros H.
  - exact I.
  - now rewrite map2_length_same.
  - induction H as [|r s a b Hrs _ IH]; simpl; constructor; [|exact IH].
    now rewrite map2_length_same.
  - induction H as [|r s a b Hrs _ IH]; simpl; constructor; [|exact IH].
    induction Hrs as [|u v r s Huv _ IH']; simpl; constructor; [|exact IH'].
    now rewrite map2_length_same.
Qed.

Lemma congruent_sym (a b : ndarray) : congruent a b -> congruent b a.
Proof.
  destruct a as [x|v|a|a], b as [y|w|b|b]; simpl; try contradiction; intros H.
  - exact I.
  - now symmetry.
  - induction H; constructor; auto.
  - induction H as [|r s a b Hrs _ IH]; constructor; [|exact IH].
    induction Hrs; constructor; auto.
Qed.

Lemma congruent_trans (a b c : ndarray) :
  congruent a b -> congruent b c -> congruent a c.
Proof.
  destruct a as [x|v|a|a], b as [y|w|b|b], c as [z|u|c|c]; simpl;
    try contradiction; intros H1 H2.
  - exact I.
  - congruence.
  - revert c H2. induction H1 as [|r s a b Hrs _ IH]; intros c H2; inversion H2; subst;
      constructor; [congruence|auto].
  - revert c H2. induction H1 as [|r s a b Hrs _ IH]; intros c H2; inversion H2 as [|? t ? c' Hst Hbc]; subst;
      constructor; [|auto].
    clear - Hrs Hst. revert t Hst.
    induction Hrs as [|u v r s Huv _ IH]; intros t Hst; inversion Hst; subst;
      constructor; [congruence|auto].
Qed.

Lemma congruent_zip_l (f : Q -> Q -> Q) (a b : ndarray) :
  congruent a b -> congruent (nd_zip f a b) a.
Proof.
  intros H. eapply congruent_trans; [now apply congruent_zip_r|now apply congruent_sym].
Qed.

Lemma congruent_refl (a : ndarray) : congruent a a.
Proof.
  destruct a as [x|v|a|a]; simpl.
  - exact I.
  - reflexivity.
  - induction a; constructor; auto.
  - induction a as [|r a IH]; constructor; [|exact IH].
    induction r; constructor; auto.
Qed.

(** ** Applying a mask and its complement *)

Lemma complement_sum (fm fx : list Q) :
  length fm = length fx ->
  Forall2 Qeq (map2 Qplus (map2 Qmult fm fx) (map2 Qmult (map (Qminus 1) fm) fx)) fx.
Proof.
  revert fx. induction fm as [|m fm IH]; intros [|x fx] H; simpl in *; try discriminate.
  - constructor.
  - constructor; [ring|]. apply IH. now inversion H.
Qed.

(** C6, as the code has it.  For every method other than [expMask] (so
    also for every method other than [expMask] and [MWF]), with a mask of
    the shape of the mixture, [applyMask] and [applyReverseMask] run on the
    same engine state both complete; the first stores the product
    [mask * mX], the second the product [(1 - mask) * mX], element by
    element, both of the shape of the mixture.  Where every element of the
    mask is 0 or 1, as for the binary masks, one of the two products is the
    mixture and the other is 0, and the two outputs add up to the mixture.
    (For other masks the two products add up to the mixture as real
    numbers; the float64 program rounds each of them, and their sum need
    not be the mixture, see [apply_plus_reverse_f64_not_mixture].) *)
Theorem apply_and_reverse_are_complementary_products
        (np_power : Q -> Q -> Q) (self : FrequencyMasking) (m : ndarray)
        (Hmethod : _method self <> "expMask")
        (Hmask : _mask self = PyArr m)
        (Hshape : congruent m (_mX self)) :
  exists o1 o2,
    applyMask np_power self = (set_Out (PyArr o1) self, Ok tt)
    /\ applyReverseMask self = (set_Out (PyArr o2) self, Ok tt)
    /\ o1 = nd_zip Qmult m (_mX self)
    /\ o2 = nd_zip Qmult (nd_map (Qminus 1) m) (_mX self)
    /\ congruent o1 (_mX self)
    /\ congruent o2 (_mX self)
    /\ (nd_all (fun y => y == 0 \/ y == 1) m ->
        exists s, nd_add o1 o2 = Ok s /\ nd_all2 Qeq s (_mX self)).
Proof.
  apply String.eqb_neq in Hmethod.
  exists (nd_zip Qmult m (_mX self)),
         (nd_zip Qmult (nd_map (Qminus 1) m) (_mX self)).
  assert (Hc : congruent (nd_map (Qminus 1) m) (_mX self))
    by now apply congruent_map_l.
  assert (H1 : congruent (nd_zip Qmult m (_mX self)) (_mX self))
    by now apply congruent_zip_r.
  assert (H2 : congruent (nd_zip Qmult (nd_map (Qminus 1) m) (_mX self)) (_mX self))
    by now apply congruent_zip_r.
  assert (H12 : congruent (nd_zip Qmult m (_mX self))
                          (nd_zip Qmult (nd_map (Qminus 1) m) (_mX self))).
  { eapply congruent_trans; [exact H1|now apply congruent_sym]. }
  split; [|split; [|split; [reflexivity|split; [reflexivity|split;
    [exact H1|split; [exact H2|]]]]]].
  - unfold applyMask, bind, get, id, lift, modify, py_binop. rewrite Hmethod, Hmask.
    simpl. unfold nd_mul. now rewrite nd_binop_congruent.
  - unfold applyReverseMask, bind, get, id, lift, modify. rewrite Hmethod, Hmask.
    unfold nd_sub, nd_mul. rewrite nd_binop_scalar_l. simpl.
    now rewrite nd_binop_congruent.
  - intros _. eexists. split; [unfold nd_add; now rewrite nd_binop_congruent|].
    split.
    + eapply congruent_trans; [now apply congruent_zip_l|exact H1].
    + rewrite !flat_zip, flat_map by assumption.
      apply complement_sum. now apply congruent_flat.
Qed.

(** C6, as the claim states it, fails of the float64 program.  With the
    target 3 and the residual 7 the mask of [IRM] is the double next to
    0.3; on the mixture 3 the two products are rounded, and their sum is
    2.9999999999999996, not 3. *)
Lemma apply_plus_reverse_f64_not_mixture :
  IRM_f64 3 7 = 0x1.3333333333333p-2%float
  /\ (applyMask_f64 (IRM_f64 3 7) 3 + applyReverseMask_f64 (IRM_f64 3 7) 3)%float
     = 0x1.7ffffffffffffp+1%float
  /\ PrimFloat.eqb
       (applyMask_f64 (IRM_f64 3 7) 3 + applyReverseMask_f64 (IRM_f64 3 7) 3)%float
       3%float
     = false.
Proof. repeat split; vm_compute; reflexivity. Qed.

(** ** The ideal ratio mask *)

Lemma IRM_element (eps x y : Q) :
  0 < eps -> 0 <= x -> 0 <= y ->
  x / (eps + x + y) == x / (x + y + eps)
  /\ 0 <= x / (eps + x + y) <= 1.
Proof.
  intros He Hx Hy.
  assert (Hd : 0 < eps + x + y) by lra.
  split; [|split].
  - assert (E : eps + x + y == x + y + eps) by ring. now rewrite E.
  - apply Qle_shift_div_l; [exact Hd|]. lra.
  - apply Qle_shift_div_r; [exact Hd|]. lra.
Qed.

Lemma IRM_flat (eps : Q) (ft fr : list Q) :
  0 < eps -> length ft = length fr -> Forall (Qle 0) ft -> Forall (Qle 0) fr ->
  Forall2 Qeq (map2 Qdiv ft (map2 Qplus (map (Qplus eps) ft) fr))
          (map2 (fun x y => x / (x + y + eps)) ft fr)
  /\ Forall (fun x => 0 <= x <= 1) (map2 Qdiv ft (map2 Qplus (map (Qplus eps) ft) fr)).
Proof.
  intros He. revert fr.
  induction ft as [|x ft IH]; intros [|y fr] Hl Ht Hr; simpl in *; try discriminate.
  - split; constructor.
  - inversion Ht; inversion Hr; subst.
    destruct (IH fr) as [IH1 IH2]; [now inversion Hl|assumption|assumption|].
    destruct (IRM_element eps x y) as [E B]; try assumption.
    split; constructor; assumption.
Qed.

(** C8.  On non-negative target and residual arrays of one shape (and the
    positive [eps] of the engine), [IRM] sets the mask to
    [target / (target + residual + eps)] element by element, and every
    element of the mask lies in [[0, 1]]. *)
Theorem IRM_is_ratio_within_unit_interval
        (self : FrequencyMasking) (r : ndarray)
        (Hr : _nResidual self = PyArr r)
        (Hshape : congruent (_sTarget self) r)
        (Heps : 0 < _eps self)
        (Htarget : nd_all (Qle 0) (_sTarget self))
        (Hresidual : nd_all (Qle 0) r) :
  exists m,
    IRM self = (set_mask (PyArr m) self, Ok tt)
    /\ congruent m (_sTarget self)
    /\ Forall2 Qeq (flat m)
               (map2 (fun x y => x / (x + y + _eps self)) (flat (_sTarget self)) (flat r))
    /\ nd_all (fun x => 0 <= x <= 1) m.
Proof.
  set (t := _sTarget self) in *.
  exists (nd_zip Qdiv t (nd_zip Qplus (nd_map (Qplus (_eps self)) t) r)).
  assert (H1 : congruent (nd_map (Qplus (_eps self)) t) r) by now apply congruent_map_l.
  assert (H2 : congruent t (nd_zip Qplus (nd_map (Qplus (_eps self)) t) r)).
  { apply congruent_sym. eapply congruent_trans; [now apply congruent_zip_r|].
    now apply congruent_sym. }
  assert (F : flat (nd_zip Qdiv t (nd_zip Qplus (nd_map (Qplus (_eps self)) t) r))
              = map2 Qdiv (flat t) (map2 Qplus (map (Qplus (_eps self)) (flat t)) (flat r))).
  { now rewrite !flat_zip, flat_map by assumption. }
  destruct (IRM_flat (_eps self) (flat t) (flat r)) as [E B]; try assumption.
  { now apply congruent_flat. }
  split; [|split; [|split]].
  - unfold IRM, bind, get, id, lift, modify. fold t. rewrite Hr.
    unfold nd_add, nd_div. rewrite nd_binop_scalar_l. simpl.
    rewrite (nd_binop_congruent Qplus) by assumption. simpl.
    now rewrite (nd_binop_congruent Qdiv) by assumption.
  - now apply congruent_zip_l.
  - rewrite F. exact E.
  - unfold nd_all. rewrite F. exact B.
Qed.

(** ** The Wiener mask with one residual component equal to the target *)

Lemma Wiener_element (eps x : Q) :
  0 < eps ->
  (x ^ 2 + eps) / (eps + (x ^ 2 + x ^ 2)) == (x ^ 2 + eps) / (2 * x ^ 2 + eps)
  /\ 1 # 2 <= (x ^ 2 + eps) / (eps + (x ^ 2 + x ^ 2))
  /\ (x ^ 2 + eps) / (eps + (x ^ 2 + x ^ 2)) <= 1
  /\ (x == 0 -> (x ^ 2 + eps) / (eps + (x ^ 2 + x ^ 2)) == 1).
Proof.
  intros He.
  assert (Hp : 0 <= x ^ 2) by (simpl; nra).
  assert (Hd : 0 < eps + (x ^ 2 + x ^ 2)) by lra.
  split; [|split; [|split]].
  - assert (E : eps + (x ^ 2 + x ^ 2) == 2 * x ^ 2 + eps) by ring. now rewrite E.
  - apply Qle_shift_div_l; [exact Hd|]. lra.
  - apply Qle_shift_div_r; [exact Hd|]. lra.
  - intros Hx.
    assert (Hz : x ^ 2 == 0) by (rewrite Hx; reflexivity).
    rewrite Hz. field. lra.
Qed.

Lemma Wiener_flat (eps : Q) (ft : list Q) :
  0 < eps ->
  Forall2 (fun y x => y == (x ^ 2 + eps) / (2 * x ^ 2 + eps) /\ 1 # 2 <= y /\ y <= 1
                         /\ (x == 0 -> y == 1))
          (map2 Qdiv (map (fun x => x + eps) (map (fun v => v ^ 2) ft))
                (map (Qplus eps) (map2 Qplus (map (fun v => v ^ 2) ft)
                                       (map (fun v => v ^ 2) ft))))
          ft.
Proof.
  intros He. induction ft as [|x ft IH]; simpl; constructor; [|exact IH].
  now apply Wiener_element.
Qed.


(** ** The exponential mask has no reverse application *)

Lemma ExpM_cases (np_power : Q -> Q -> Q) (np_log : Q -> Q) (self : FrequencyMasking) :
  (exists e, ExpM np_power np_log self = (self, Raise e))
  \/ (exists m, ExpM np_power np_log self = (set_mask (PyArr m) self, Ok tt)).
Proof.
  unfold ExpM, bind, get, id, lift, modify.
  match goal with
  | |- context [match ?c with Ok _ => _ | Raise _ => _ end] => destruct c as [m|e]
  end.
  - right. now exists m.
  - left. now exists e.
Qed.

Lemma ExpM_same_shape (np_power : Q -> Q -> Q) (np_log : Q -> Q)
      (self : FrequencyMasking) (r : ndarray) (a : Q) :
  _nResidual self = PyArr r -> _alpha self = Nd0 a -> congruent (_sTarget self) r ->
  exists m, ExpM np_power np_log self = (set_mask (PyArr m) self, Ok tt)
            /\ congruent m (_sTarget self).
Proof.
  intros Hr Ha Hc.
  unfold ExpM, bind, get, id, lift, modify, nd_pow, nd_div. rewrite Hr, Ha.
  rewrite nd_binop_scalar_r. simpl. rewrite nd_binop_scalar_r. simpl.
  match goal with
  | |- context [nd_binop Qdiv ?A ?B] =>
      assert (HA : congruent A (_sTarget self))
        by (repeat apply congruent_map_l; apply congruent_refl);
      assert (HB : congruent B r)
        by (repeat apply congruent_map_l; apply congruent_refl);
      assert (HAB : congruent A B)
        by (eapply congruent_trans; [exact HA|];
            eapply congruent_trans; [exact Hc|now apply congruent_sym]);
      rewrite (nd_binop_congruent Qdiv A B HAB)
  end.
  eexists. split; [reflexivity|].
  eapply congruent_trans; [now apply congruent_zip_l|exact HA].
Qed.

(** C7.  With the method [expMask] and the reverse flag set, [__call__]
    never returns: it always ends in an exception and leaves [_Out]
    untouched.  Whenever the mask computation [ExpM] itself completes, as it
    does for a target and a residual array of one shape with a scalar
    exponent, the exception is the [ValueError] of [applyReverseMask]. *)
Theorem expMask_reverse_raises
        (np_power : Q -> Q -> Q) (np_log np_exp np_cos : Q -> Q)
        (np_pinv : arr2 -> arr2) (to_float32 : Q -> Q)
        (self : FrequencyMasking)
        (Hm : _method self = "expMask") :
  (exists self' e,
      call np_power np_log np_exp np_cos np_pinv to_float32 true self = (self', Raise e)
      /\ _Out self' = _Out self)
  /\ (forall self1,
         ExpM np_power np_log self = (self1, Ok tt) ->
         call np_power np_log np_exp np_cos np_pinv to_float32 true self
         = (self1, Raise (ValueError reverse_msg)))
  /\ (forall r a,
         _nResidual self = PyArr r -> _alpha self = Nd0 a ->
         congruent (_sTarget self) r ->
         exists m,
           call np_power np_log np_exp np_cos np_pinv to_float32 true self
           = (set_mask (PyArr m) self, Raise (ValueError reverse_msg))).
Proof.
  assert (E : call np_power np_log np_exp np_cos np_pinv to_float32 true self
              = bind (bind (ExpM np_power np_log) (fun _ => applyReverseMask))
                     (fun _ => get _Out) self).
  { unfold call at 1. unfold bind at 1. unfold get at 1. unfold id.
    rewrite Hm. reflexivity. }
  assert (Ok_case : forall self1,
             ExpM np_power np_log self = (self1, Ok tt) ->
             _method self1 = "expMask" ->
             call np_power np_log np_exp np_cos np_pinv to_float32 true self
             = (self1, Raise (ValueError reverse_msg))).
  { intros self1 H1 Hm1. rewrite E. unfold bind at 1 2. rewrite H1.
    unfold applyReverseMask, bind, get, id, throw. rewrite Hm1. reflexivity. }
  split; [|split].
  - destruct (ExpM_cases np_power np_log self) as [[e He] | [m Hmk]].
    + exists self, e. split; [|reflexivity].
      rewrite E. unfold bind at 1 2. rewrite He. reflexivity.
    + exists (set_mask (PyArr m) self), (ValueError reverse_msg).
      split; [|reflexivity]. apply Ok_case; [exact Hmk|exact Hm].
  - intros self1 H1. apply Ok_case; [exact H1|].
    destruct (ExpM_cases np_power np_log self) as [[e He] | [m Hmk]].
    + rewrite He in H1. discriminate.
    + rewrite Hmk in H1. inversion H1; subst. exact Hm.
  - intros r a Hr Ha Hc.
    destruct (ExpM_same_shape np_power np_log self r a Hr Ha Hc) as [m [Hmk _]].
    exists m. apply Ok_case; [exact Hmk|exact Hm].
Qed.

(** ** The guard of the phase-sensitive method *)

Lemma phase_guard_array (self : FrequencyMasking) (p : ndarray) :
  _pTarget self = PyArr p ->
  phase_guard self = (self, Ok (Nat.eqb (size p) 0)).
Proof.
  intros Hp. unfold phase_guard, bind, get, id, lift, ret. rewrite Hp.
  unfold py_size. destruct (Nat.eqb (size p) 0); reflexivity.
Qed.

(** The guard reads [_pTarget] twice and [_pY] never: with a non-empty
    target phase array, [__call__] goes on to [phaseSensitive] whatever
    the residual phase is. *)
Lemma phase_guard_ignores_residual_phase
      (np_power : Q -> Q -> Q) (np_log np_exp np_cos : Q -> Q)
      (np_pinv : arr2 -> arr2) (to_float32 : Q -> Q)
      (self : FrequencyMasking) (p : ndarray) (reverse : bool) :
  _method self = "Phase" -> _pTarget self = PyArr p -> size p <> 0%nat ->
  call np_power np_log np_exp np_cos np_pinv to_float32 reverse self
  = bind (bind (phaseSensitive np_exp np_cos) (fun _ => apply_step np_power reverse))
         (fun _ => get _Out) self.
Proof.
  intros Hm Hp Hs. apply Nat.eqb_neq in Hs.
  unfold call at 1. unfold bind at 1. unfold get at 1. unfold id.
  rewrite Hm. simpl String.eqb. cbv iota.
  unfold bind at 1 2. rewrite (phase_guard_array self p Hp), Hs. reflexivity.
Qed.

(** The guard does fire on an empty target phase array. *)
Lemma phase_guard_empty_target_phase
      (np_power : Q -> Q -> Q) (np_log np_exp np_cos : Q -> Q)
      (np_pinv : arr2 -> arr2) (to_float32 : Q -> Q)
      (self : FrequencyMasking) (p : ndarray) (reverse : bool) :
  _method self = "Phase" -> _pTarget self = PyArr p -> size p = 0%nat ->
  call np_power np_log np_exp np_cos np_pinv to_float32 reverse self
  = (self, Raise (ValueError phase_msg)).
Proof.
  intros Hm Hp Hs.
  unfold call at 1. unfold bind at 1. unfold get at 1. unfold id.
  rewrite Hm. simpl String.eqb. cbv iota.
  unfold bind at 1 2. rewrite (phase_guard_array self p Hp), Hs. reflexivity.
Qed.

(** C2, the code at the failing input.  A [Phase] engine with a 1x1 target
    phase and the empty array as residual phase: no exception is raised;
    the target phase broadcasts against the empty array, an empty mask of
    shape (1, 0) is computed and applied, and an empty output is returned. *)
Theorem call_phase_empty_residual_phase_returns
        (np_power : Q -> Q -> Q) (np_log np_exp np_cos : Q -> Q)
        (np_pinv : arr2 -> arr2) (to_float32 : Q -> Q) :
  call np_power np_log np_exp np_cos np_pinv to_float32 false
       phase_engine_no_residual_phase
  = (set_Out (PyArr (Nd2 [[]]))
             (set_mask (PyArr (Nd2 [[]])) phase_engine_no_residual_phase),
     Ok (PyArr (Nd2 [[]]))).
Proof. reflexivity. Qed.

(** On wider spectrograms the same engine does stop with an exception, but
    it is numpy's broadcasting error from inside [phaseSensitive], not the
    error of the guard. *)
Lemma call_phase_empty_residual_phase_wide
      (np_power : Q -> Q -> Q) (np_log np_exp np_cos : Q -> Q)
      (np_pinv : arr2 -> arr2) (to_float32 : Q -> Q) :
  call np_power np_log np_exp np_cos np_pinv to_float32 false
       phase_engine_no_residual_phase_wide
  = (phase_engine_no_residual_phase_wide, Raise (ValueError broadcast_msg)).
Proof. reflexivity. Qed.

(** ** Instances on concrete engines *)

Lemma apply_and_reverse_are_complementary_products_witness :
  exists o1 o2,
    applyMask (fun x _ => x) irm_engine_masked
    = (set_Out (PyArr o1) irm_engine_masked, Ok tt)
    /\ applyReverseMask irm_engine_masked = (set_Out (PyArr o2) irm_engine_masked, Ok tt)
    /\ o1 = nd_zip Qmult (Nd2 [[1 # 3; 1 # 2]; [1 # 4; 1]]) (Nd2 [[4; 4]; [4; 4]])
    /\ o2 = nd_zip Qmult (nd_map (Qminus 1) (Nd2 [[1 # 3; 1 # 2]; [1 # 4; 1]]))
                   (Nd2 [[4; 4]; [4; 4]])
    /\ congruent o1 (Nd2 [[4; 4]; [4; 4]])
    /\ congruent o2 (Nd2 [[4; 4]; [4; 4]])
    /\ (nd_all (fun y => y == 0 \/ y == 1) (Nd2 [[1 # 3; 1 # 2]; [1 # 4; 1]]) ->
        exists s, nd_add o1 o2 = Ok s /\ nd_all2 Qeq s (Nd2 [[4; 4]; [4; 4]])).
Proof.
  apply (apply_and_reverse_are_complementary_products
           (fun x _ => x) irm_engine_masked (Nd2 [[1 # 3; 1 # 2]; [1 # 4; 1]])).
  - discriminate.
  - reflexivity.
  - simpl. repeat constructor.
Defined.

Lemma IRM_is_ratio_within_unit_interval_witness :
  exists m,
    IRM irm_engine = (set_mask (PyArr m) irm_engine, Ok tt)
    /\ congruent m (Nd2 [[2; 2]; [2; 2]])
    /\ Forall2 Qeq (flat m)
               (map2 (fun x y => x / (x + y + float_eps)) [2; 2; 2; 2] [2; 2; 2; 2])
    /\ nd_all (fun x => 0 <= x <= 1) m.
Proof.
  apply (IRM_is_ratio_within_unit_interval irm_engine (Nd2 [[2; 2]; [2; 2]])).
  - reflexivity.
  - simpl. repeat constructor.
  - reflexivity.
  - repeat constructor; discriminate.
  - repeat constructor; discriminate.
Defined.


(** The same element in binary64, target and residual equal: [1.0] at 0,
    one unit in the last place above [0.5] at 1, and [0.5] itself at 2,
    where the rounding of [4 + eps] and of [eps + 8] absorbs [eps]. *)
Lemma Wiener_f64_values :
  Wiener_f64 0 0 = 1%float
  /\ Wiener_f64 1 1 = 0x1.0000000000001p-1%float
  /\ Wiener_f64 2 2 = 0.5%float.
Proof. repeat split; vm_compute; reflexivity. Qed.


Lemma expMask_reverse_raises_witness :
  exists m,
    call (fun x _ => x) (fun x => x) (fun x => x) (fun x => x) (fun a => a) (fun x => x)
         true expmask_engine
    = (set_mask (PyArr m) expmask_engine, Raise (ValueError reverse_msg)).
Proof.
  destruct (expMask_reverse_raises (fun x _ => x) (fun x => x) (fun x => x)
              (fun x => x) (fun a => a) (fun x => x) expmask_engine eq_refl)
    as (_ & _ & H).
  apply (H (Nd2 [[2; 5]]) (12 # 10)).
  - reflexivity.
  - reflexivity.
  - simpl. repeat constructor.
Defined.

(** ** The covariance matrices of the multichannel filter *)

Lemma nth_repeat_lt {A : Type} (x d : A) (n k : nat) :
  (k < n)%nat -> nth k (repeat x n) d = x.
Proof.
  revert k. induction n as [|n IH]; intros [|k] H; simpl; try lia; auto.
  apply IH. lia.
Qed.

Lemma slice_last_repeat_last (I : arr2) (F f : nat) :
  (f < F)%nat -> slice_last (repeat_last I F) f = I.
Proof.
  intros H. unfold slice_last, repeat_last.
  rewrite map_map. rewrite <- (map_id I) at 2. apply map_ext. intros row.
  rewrite map_map. rewrite <- (map_id row) at 2. apply map_ext. intros x.
  now apply nth_repeat_lt.
Qed.

Lemma nth_set_nth_same {A : Type} (x d : A) (k : nat) (l : list A) :
  (k < length l)%nat -> nth k (set_nth k x l) d = x.
Proof.
  revert k. induction l as [|y l IH]; intros [|k] H; simpl in *; try lia; auto.
  apply IH. lia.
Qed.

Lemma nth_set_nth_other {A : Type} (x d : A) (k k' : nat) (l : list A) :
  k' <> k -> nth k' (set_nth k x l) d = nth k' l d.
Proof.
  revert k k'. induction l as [|y l IH]; intros [|k] [|k'] H; simpl; try congruence; auto.
Qed.

Lemma length_set_nth {A : Type} (x : A) (k : nat) (l : list A) :
  length (set_nth k x l) = length l.
Proof.
  revert k. induction l as [|y l IH]; intros [|k]; simpl; auto.
Qed.

Lemma map2_map_r {A B C : Type} (h : A -> B -> C) (k : A -> B) (xs : list A) :
  map2 h xs (map k xs) = map (fun x => h x (k x)) xs.
Proof.
  induction xs as [|x xs IH]; simpl; [reflexivity|]. now rewrite IH.
Qed.

Lemma map2_snd {A B : Type} (xs : list A) (ys : list B) :
  length xs = length ys -> map2 (fun _ y => y) xs ys = ys.
Proof.
  revert ys. induction xs as [|x xs IH]; intros [|y ys] H; simpl in *; try discriminate.
  - reflexivity.
  - f_equal. apply IH. now inversion H.
Qed.

Lemma congruent_shape (a b : ndarray) : congruent a b -> shape a = shape b.
Proof.
  destruct a as [x|v|a|a], b as [y|w|b|b]; simpl; try contradiction; intros H.
  - reflexivity.
  - now rewrite H.
  - destruct H as [|r s a' b' Hrs H]; simpl; [reflexivity|].
    f_equal; [f_equal; exact (Forall2_length H)|f_equal; exact Hrs].
  - destruct H as [|r s a' b' Hrs H]; simpl; [reflexivity|].
    f_equal; [f_equal; exact (Forall2_length H)|].
    f_equal; [exact (Forall2_length Hrs)|].
    destruct Hrs as [|u v r' s' Huv _]; simpl; [reflexivity|]. f_equal. exact Huv.
Qed.

(** [R[:, :, f] = g(R[:, :, f])] entry by entry. *)
Lemma assign_slice_last_map (R : arr3) (f : nat) (g : Q -> Q) :
  assign_slice_last R f (Nd2 (map (map g) (slice_last R f)))
  = Ok (map (map (fun v => set_nth f (g (nth f v 0)) v)) R).
Proof.
  unfold assign_slice_last.
  assert (Hc : congruent (Nd2 (slice_last R f)) (Nd2 (map (map g) (slice_last R f)))).
  { apply congruent_sym. apply (congruent_map_l g (Nd2 _) (Nd2 _)), congruent_refl. }
  rewrite nd_binop_congruent by exact Hc. cbn [obind nd_zip].
  assert (E : map2 (map2 (fun _ new : Q => new)) (slice_last R f)
                   (map (map g) (slice_last R f))
              = map (map g) (slice_last R f)).
  { generalize (slice_last R f). intros S.
    induction S as [|row S IH]; simpl; [reflexivity|].
    rewrite IH. f_equal. apply map2_snd. now rewrite length_map. }
  rewrite E.
  rewrite <- (congruent_shape _ _ Hc).
  unfold shape_eqb. destruct (list_eq_dec Nat.eq_dec _ _) as [_|N]; [|now elim N].
  f_equal. unfold slice_last.
  rewrite map_map, map2_map_r. apply map_ext. intros row.
  rewrite map_map, map2_map_r. reflexivity.
Qed.

Lemma nd_binop_matrix_one (f : Q -> Q -> Q) (a : arr2) (y : Q) :
  nd_binop f (Nd2 a) (Nd1 [y]) = Ok (Nd2 (map (map (fun x => f x y)) a)).
Proof.
  unfold nd_binop. cbn [lift3 rank Nat.max].
  unfold bc3. unfold bcast_axis at 1. cbn [length Nat.eqb zipM].
  fold (bc2 f). now rewrite bc2_scalar_r.
Qed.

(** One update of a covariance array along the single-channel branch. *)
Lemma forgetting_update (R : arr3) (f : nat) (x : Q) :
  (ax <- nd_mul (Nd0 flambda) (Nd2 (slice_last R f)) ;;
   bx <- nd_mul (Nd0 (1 - flambda)) (Nd1 [x]) ;;
   vx <- nd_add ax bx ;;
   assign_slice_last R f vx)%out
  = Ok (map (map (fun v => set_nth f (flambda * nth f v 0 + (1 - flambda) * x) v)) R).
Proof.
  unfold nd_mul, nd_add. rewrite !nd_binop_scalar_l. cbn [obind nd_map map].
  rewrite nd_binop_matrix_one. cbn [obind].
  rewrite map_map.
  rewrite (map_ext _ (map (fun r => flambda * r + (1 - flambda) * x)))
    by (intros row; apply map_map).
  apply (assign_slice_last_map R f (fun r => flambda * r + (1 - flambda) * x)).
Qed.

Lemma slice_after_update (F : nat) (R : arr3) (f : nat) (g : Q -> Q) :
  cov_wf F R -> (f < F)%nat ->
  slice_last (map (map (fun v => set_nth f (g (nth f v 0)) v)) R) f
  = map (map g) (slice_last R f)
  /\ (forall f', f' <> f ->
        slice_last (map (map (fun v => set_nth f (g (nth f v 0)) v)) R) f'
        = slice_last R f')
  /\ cov_wf F (map (map (fun v => set_nth f (g (nth f v 0)) v)) R).
Proof.
  intros Hwf Hf. unfold slice_last, cov_wf in *. repeat split.
  - rewrite !map_map. apply map_ext_in. intros row Hrow.
    rewrite !map_map. apply map_ext_in. intros v Hv.
    apply nth_set_nth_same.
    rewrite Forall_forall in Hwf. specialize (Hwf row Hrow).
    rewrite Forall_forall in Hwf. rewrite (Hwf v Hv). exact Hf.
  - intros f' Hne. rewrite !map_map. apply map_ext. intros row.
    rewrite !map_map. apply map_ext. intros v.
    now apply nth_set_nth_other.
  - apply Forall_map. eapply Forall_impl; [|exact Hwf]. intros row Hrow.
    apply Forall_map. eapply Forall_impl; [|exact Hrow]. intros v Hv.
    now rewrite length_set_nth.
Qed.

Lemma Forall2_map_pointwise (g g' : Q -> Q) (l : list Q) :
  (forall r, g r == g' r) -> Forall2 Qeq (map g l) (map g' l).
Proof.
  intros H. induction l; simpl; constructor; auto.
Qed.

Lemma forget_agrees (x : Q) (S : arr2) :
  nd_all2 Qeq (Nd2 (map (map (fun r => flambda * r + (1 - flambda) * x)) S))
          (Nd2 (forget x S)).
Proof.
  split.
  - eapply congruent_trans.
    + apply (congruent_map_l _ (Nd2 S) (Nd2 S)), congruent_refl.
    + apply congruent_sym, (congruent_map_l _ (Nd2 S) (Nd2 S)), congruent_refl.
  - change (Nd2 (map (map (fun r => flambda * r + (1 - flambda) * x)) S))
      with (nd_map (fun r => flambda * r + (1 - flambda) * x) (Nd2 S)).
    change (Nd2 (forget x S))
      with (nd_map (fun r => (99 # 100) * r + (1 # 100) * x) (Nd2 S)).
    rewrite !flat_map. apply Forall2_map_pointwise.
    intros r. unfold flambda. ring.
Qed.

Ltac step_outcome :=
  match goal with
  | H : context [obind ?c _] |- _ =>
      let E := fresh "E" in
      destruct c eqn:E; cbn [obind] in H; [|discriminate H]
  end.

(** The filter of lines 393-400 leaves the covariances as they are. *)
Lemma mwf_filter_keeps_covariances
      (np_pinv : arr2 -> arr2) (to_float32 : Q -> Q)
      (mX cX cN : ndarray) (I : arr2) (gF : Q) (eM f t : nat) (st st' : mwf_state) :
  mwf_filter np_pinv to_float32 mX cX cN I gF eM f t st = Ok st' ->
  Rxx st' = Rxx st /\ Rnn st' = Rnn st.
Proof.
  unfold mwf_filter. intros H.
  repeat step_outcome.
  inversion H; subst. split; reflexivity.
Qed.



(** ** The exponent optimizer *)

Lemma argmin_from_spec (l : list Q) (best : Q) (besti i : nat) (pre : list Q) :
  length pre = i -> (besti < i)%nat -> nth besti pre 0 = best ->
  (forall x, In x pre -> best <= x) ->
  let k := argmin_from best besti i l in
  (k < i + length l)%nat
  /\ forall x, In x (pre ++ l) -> nth k (pre ++ l) 0 <= x.
Proof.
  revert best besti i pre.
  induction l as [|y l IH]; intros best besti i pre Hlen Hlt Hnth Hmin; simpl.
  - rewrite app_nil_r. split; [lia|]. intros x Hx. rewrite Hnth. now apply Hmin.
  - destruct (Qlt_le_dec y best) as [Hy|Hy].
    + specialize (IH y i (S i) (pre ++ [y])%list).
      rewrite <- app_assoc in IH. simpl in IH.
      destruct IH as [IH1 IH2].
      * rewrite length_app. simpl. lia.
      * lia.
      * rewrite app_nth2 by lia. rewrite Hlen, Nat.sub_diag. reflexivity.
      * intros x Hx. apply in_app_or in Hx. destruct Hx as [Hx|[Hx|[]]].
        -- apply Qlt_le_weak. eapply Qlt_le_trans; [exact Hy|now apply Hmin].
        -- subst. apply Qle_refl.
      * split; [lia|exact IH2].
    + specialize (IH best besti (S i) (pre ++ [y])%list).
      rewrite <- app_assoc in IH. simpl in IH.
      destruct IH as [IH1 IH2].
      * rewrite length_app. simpl. lia.
      * lia.
      * rewrite app_nth1 by lia. exact Hnth.
      * intros x Hx. apply in_app_or in Hx. destruct Hx as [Hx|[Hx|[]]].
        -- now apply Hmin.
        -- subst. exact Hy.
      * split; [lia|exact IH2].
Qed.

(** [np.argmin] points into the list, at a least value. *)
Lemma argmin_least (l : list Q) :
  l <> [] ->
  (argmin l < length l)%nat /\ forall x, In x l -> nth (argmin l) l 0 <= x.
Proof.
  destruct l as [|y l]; [congruence|]. intros _.
  assert (Hmin : forall x, In x [y] -> y <= x)
    by (intros x [<-|[]]; apply Qle_refl).
  destruct (argmin_from_spec l y 0 1 [y] eq_refl (Nat.lt_0_succ 0) eq_refl Hmin)
    as [H1 H2].
  split; [simpl in *; lia|exact H2].
Qed.

Section OptAlphaFacts.

Variable np_power : Q -> Q -> Q.
Variable np_log : Q -> Q.

(** What one iteration does to the variables of the loop. *)
Lemma opt_body_inv (self : FrequencyMasking) (s_list : list arr2)
      (idx : nat) (st st' : opt_state) :
  opt_body np_power np_log self s_list idx st = Ok st' ->
  exists dis loss,
    let a := deref (heap st) (alpha st) in
    let a1 := gradient_step a (lrs st)
                (loss_derivatives np_power np_log (_eps self) dis s_list a) in
    let a3 := stabilize a1 in
    let l1 := (i_s_loss st ++ [loss])%list in
    _dIS np_power self (Nd2 (Xhat_sum np_power s_list a)) = Ok dis
    /\ _IS np_power np_log self (Nd2 (Xhat_acc np_power s_list a3)) = Ok loss
    /\ heap st' = (update (heap st) (alpha st) a1 ++ [a3])%list
    /\ alpha_log st' = (alpha_log st ++ [length (heap st)])%list
    /\ iter_index st' = Some idx
    /\ match exit st' with
       | GoOn =>
           alpha st' = length (heap st) /\ i_s_loss st' = l1
           /\ ((idx <= 4)%nat \/ stagnated l1 = false)
       | LocalMinimum =>
           alpha st' = length (heap st) /\ i_s_loss st' = l1
           /\ (4 < idx)%nat /\ stagnated l1 = true /\ stuck l1 = false
       | Stuck =>
           py_index (alpha_log st') (Z.of_nat (argmin l1) - 1) = Some (alpha st')
           /\ i_s_loss st' = set_last l1 (nth (argmin l1) l1 0)
           /\ (4 < idx)%nat /\ stagnated l1 = true /\ stuck l1 = true
       end.
Proof.
  unfold opt_body. intros H.
  destruct (_dIS np_power self _) as [dis|e] eqn:Ed; [|discriminate H].
  cbn [obind] in H. unfold alloc, update in H.
  rewrite !length_set_nth in H.
  destruct (_IS np_power np_log self _) as [loss|e] eqn:El; [|discriminate H].
  cbn [obind] in H. exists dis, loss. cbv zeta.
  split; [reflexivity|]. split; [exact El|].
  destruct (2 <? idx)%nat eqn:E2.
  - destruct (4 <? idx)%nat eqn:E4; cbn [andb] in H.
    + destruct (stagnated _) eqn:Es.
      * destruct (stuck _) eqn:Ek.
        -- destruct (py_index _ _) as [r'|] eqn:Ep; [|discriminate H].
           inversion H; subst; clear H. cbn.
           apply Nat.ltb_lt in E4. repeat split; auto.
        -- inversion H; subst; clear H. cbn.
           apply Nat.ltb_lt in E4. repeat split; auto.
      * inversion H; subst; clear H. cbn. repeat split; auto.
    + inversion H; subst; clear H. cbn.
      apply Nat.ltb_ge in E4. repeat split; auto.
  - inversion H; subst; clear H. cbn.
    apply Nat.ltb_ge in E2. repeat split; auto; try (left; lia).
Qed.

End OptAlphaFacts.

Lemma nth_error_set_nth_same {A : Type} (x : A) (k : nat) (l : list A) :
  (k < length l)%nat -> nth_error (set_nth k x l) k = Some x.
Proof.
  revert k. induction l as [|y l IH]; intros [|k] H; simpl in *; try lia; auto.
  apply IH. lia.
Qed.

Lemma py_index_last {A : Type} (l : list A) (x : A) :
  py_index (l ++ [x]) (-1) = Some x.
Proof.
  unfold py_index. rewrite length_app. simpl length.
  replace (-1 <? 0)%Z with true by reflexivity.
  assert (H : (0 <= -1 + Z.of_nat (length l + 1))%Z) by lia.
  apply Z.leb_le in H. rewrite H.
  assert (H' : (-1 + Z.of_nat (length l + 1) < Z.of_nat (length l + 1))%Z) by lia.
  apply Z.ltb_lt in H'. rewrite H'. cbn [andb].
  replace (Z.to_nat (-1 + Z.of_nat (length l + 1))) with (length l) by lia.
  rewrite nth_error_app2 by lia. now rewrite Nat.sub_diag.
Qed.

Lemma loss_at_set_last (l : list Q) (x v : Q) :
  loss_at (set_last (l ++ [x]) v) (-1) = v.
Proof.
  unfold set_last. rewrite length_app. simpl length.
  replace (length l + 1 - 1)%nat with (length l) by lia.
  assert (E : set_nth (length l) v (l ++ [x]) = (l ++ [v])%list).
  { induction l as [|y l IH]; simpl; [reflexivity|]. now rewrite IH. }
  rewrite E. unfold loss_at. now rewrite py_index_last.
Qed.

Section OptAlphaRuns.

Variable np_power : Q -> Q -> Q.
Variable np_log : Q -> Q.
Variable self : FrequencyMasking.
Variable s_list : list arr2.

Let body := opt_body np_power np_log self s_list.
Let loop := opt_loop np_power np_log self s_list.

(** The state the loop ends in is the result of the body at one of the
    indices; when no [break] was taken, at the last of them. *)
Lemma opt_loop_last (indices : list nat) (st st' : opt_state) :
  loop indices st = Ok st' -> indices <> [] ->
  exists i prev,
    In i indices /\ body i prev = Ok st'
    /\ (exit st' = GoOn -> i = last indices 0%nat).
Proof.
  revert st. induction indices as [|i rest IH]; intros st H Hne; [congruence|].
  cbn [loop opt_loop] in H. unfold loop in H. cbn [opt_loop] in H.
  destruct (opt_body np_power np_log self s_list i st) as [st1|e] eqn:E1;
    [|discriminate H].
  cbn [obind] in H.
  destruct (exit st1) eqn:Ex.
  - destruct rest as [|j rest'].
    + cbn in H. inversion H; subst. exists i, st. repeat split; auto.
      now left.
    + destruct (IH st1 H) as (k & prev & Hin & Hb & Hl); [discriminate|].
      exists k, prev. repeat split; auto. now right.
  - inversion H; subst. exists i, st. repeat split; auto; [now left|].
    rewrite Ex. discriminate.
  - inversion H; subst. exists i, st. repeat split; auto; [now left|].
    rewrite Ex. discriminate.
Qed.

(** Without a [break], every index has appended one loss. *)
Lemma opt_loop_losses (indices : list nat) (st st' : opt_state) :
  loop indices st = Ok st' -> exit st' = GoOn -> exit st = GoOn ->
  length (i_s_loss st') = (length (i_s_loss st) + length indices)%nat.
Proof.
  revert st. induction indices as [|i rest IH]; intros st H Hx Hx0.
  - cbn in H. inversion H; subst. simpl. lia.
  - unfold loop in H. cbn [opt_loop] in H.
    destruct (opt_body np_power np_log self s_list i st) as [st1|e] eqn:E1;
      [|discriminate H].
    cbn [obind] in H.
    destruct (opt_body_inv _ _ _ _ _ _ _ E1) as (dis & loss & _ & _ & _ & _ & _ & Hex).
    destruct (exit st1) eqn:Ex.
    + destruct Hex as (_ & Hl & _).
      rewrite (IH st1 H Hx Ex), Hl, length_app. simpl. lia.
    + inversion H; subst. congruence.
    + inversion H; subst. congruence.
Qed.

Lemma last_seq (n : nat) : (0 < n)%nat -> last (seq 0 n) 0%nat = (n - 1)%nat.
Proof.
  intros H. destruct n as [|n]; [lia|].
  rewrite seq_S, last_last. simpl. lia.
Qed.

(** The loop variable never reaches [self._iterations]: the first branch
    of line 337 is dead. *)
Lemma opt_run_index_below (st : opt_state) :
  opt_run np_power np_log self s_list = Ok st ->
  (0 < _iterations self)%nat ->
  exists idx, iter_index st = Some idx /\ (idx < _iterations self)%nat
              /\ (exit st = GoOn -> idx = (_iterations self - 1)%nat).
Proof.
  intros H Hn. unfold opt_run in H.
  destruct (opt_loop_last _ _ _ H) as (i & prev & Hin & Hb & Hl).
  { destruct (_iterations self); [lia|discriminate]. }
  destruct (opt_body_inv _ _ _ _ _ _ _ Hb) as (dis & loss & _ & _ & _ & _ & Hi & _).
  exists i. split; [exact Hi|]. apply in_seq in Hin. split; [lia|].
  intros Hx. rewrite (Hl Hx). now apply last_seq.
Qed.

End OptAlphaRuns.

(** What [optAlpha] writes back after a run that ended at index [idx]
    below [self._iterations]. *)
Lemma optAlpha_after_run (np_power : Q -> Q -> Q) (np_log : Q -> Q)
      (self : FrequencyMasking) (s_list : list arr2) (st : opt_state)
      (initloss : Q) (idx : nat) :
  stack_sources self = Ok s_list ->
  opt_run np_power np_log self s_list = Ok st ->
  iter_index st = Some idx -> (idx < _iterations self)%nat ->
  optAlpha np_power np_log initloss self
  = (set_mask (PyArr (Nd2 (opt_mask np_power (_eps self) s_list
                                    (deref (heap st) (alpha st)))))
              (commit self (deref (heap st) (alpha st))
                      (loss_at (i_s_loss st) (-1)) idx),
     Ok tt).
Proof.
  intros Hs Hr Hi Hlt. unfold optAlpha. rewrite Hs, Hr.
  unfold opt_select. rewrite Hi.
  assert (E : Nat.eqb idx (_iterations self) = false) by (apply Nat.eqb_neq; lia).
  rewrite E. reflexivity.
Qed.

(** C1, what the code does.  When the loop has run through all of its
    iterations without a [break], [iter_index] is [self._iterations - 1],
    so the test [iter_index == self._iterations] of line 337 fails and the
    arg-min branch is skipped: the exponent written back is the iterate of
    the final iteration (the last entry of [alpha_log]) and the loss written
    back is the last loss recorded, wherever the least loss of the history
    lies. *)
Theorem optAlpha_exhausted_commits_final_iterate
        (np_power : Q -> Q -> Q) (np_log : Q -> Q)
        (self : FrequencyMasking) (s_list : list arr2) (st : opt_state)
        (initloss : Q)
        (Hiter : (0 < _iterations self)%nat)
        (Hsources : stack_sources self = Ok s_list)
        (Hrun : opt_run np_power np_log self s_list = Ok st)
        (Hexit : exit st = GoOn) :
  iter_index st = Some (_iterations self - 1)%nat
  /\ length (i_s_loss st) = _iterations self
  /\ py_index (alpha_log st) (-1) = Some (alpha st)
  /\ exists self',
      optAlpha np_power np_log initloss self = (self', Ok tt)
      /\ _alpha self' = Nd1 (deref (heap st) (alpha st))
      /\ _closs self' = Some (loss_at (i_s_loss st) (-1))
      /\ _amount_iter self' = (_iterations self - 1)%nat.
Proof.
  destruct (opt_run_index_below _ _ _ _ _ Hrun Hiter) as (idx & Hi & Hlt & Hlast).
  specialize (Hlast Hexit). subst idx.
  split; [exact Hi|]. split; [|split].
  - pose proof (opt_loop_losses np_power np_log self s_list _ _ _ Hrun Hexit eq_refl) as L.
    rewrite L, length_seq. reflexivity.
  - unfold opt_run in Hrun.
    destruct (opt_loop_last _ _ _ _ _ _ _ Hrun) as (i & prev & _ & Hb & _).
    { destruct (_iterations self); [lia|discriminate]. }
    destruct (opt_body_inv _ _ _ _ _ _ _ Hb) as (dis & loss & _ & _ & _ & Hlog & _ & Hex).
    rewrite Hexit in Hex. destruct Hex as (Ha & _).
    rewrite Hlog, Ha. apply py_index_last.
  - eexists. split.
    + eapply optAlpha_after_run; eauto.
    + repeat split.
Qed.

(** The loss history and the exponent history grow together. *)
Lemma opt_body_aligned (np_power : Q -> Q -> Q) (np_log : Q -> Q)
      (self : FrequencyMasking) (s_list : list arr2) (idx : nat) (st st' : opt_state) :
  opt_body np_power np_log self s_list idx st = Ok st' ->
  length (i_s_loss st) = length (alpha_log st) ->
  length (i_s_loss st') = length (alpha_log st').
Proof.
  intros Hb Hlen.
  destruct (opt_body_inv _ _ _ _ _ _ _ Hb) as (dis & loss & _ & _ & _ & Hlog & _ & Hex).
  rewrite Hlog, length_app. simpl length.
  destruct (exit st'); destruct Hex as (_ & Hl & _); rewrite Hl;
    unfold set_last; rewrite ?length_set_nth, length_app; simpl length; lia.
Qed.

Lemma opt_loop_aligned (np_power : Q -> Q -> Q) (np_log : Q -> Q)
      (self : FrequencyMasking) (s_list : list arr2)
      (indices : list nat) (st st' : opt_state) :
  opt_loop np_power np_log self s_list indices st = Ok st' ->
  length (i_s_loss st) = length (alpha_log st) ->
  length (i_s_loss st') = length (alpha_log st').
Proof.
  revert st. induction indices as [|i rest IH]; intros st H Hlen.
  - cbn in H. inversion H; subst. exact Hlen.
  - cbn [opt_loop] in H.
    destruct (opt_body np_power np_log self s_list i st) as [st1|e] eqn:E1;
      [|discriminate H].
    cbn [obind] in H.
    pose proof (opt_body_aligned _ _ _ _ _ _ _ E1 Hlen) as H1.
    destruct (exit st1); [now apply (IH st1)| |]; inversion H; subst; exact H1.
Qed.

(** C3, what the code does.  When the loop leaves through the 'Stuck...'
    branch, with [l] the loss history as recorded up to then (one loss per
    entry of [alpha_log]): the loss written back is the least loss of [l];
    the exponent written back is the entry of [alpha_log] at the Python
    index [argmin(l) - 1], one before the index of the least loss (and the
    last entry when the least loss is the first). *)
Theorem optAlpha_stuck_commits_entry_before_argmin
        (np_power : Q -> Q -> Q) (np_log : Q -> Q)
        (self : FrequencyMasking) (s_list : list arr2) (st : opt_state)
        (initloss : Q)
        (Hiter : (0 < _iterations self)%nat)
        (Hsources : stack_sources self = Ok s_list)
        (Hrun : opt_run np_power np_log self s_list = Ok st)
        (Hexit : exit st = Stuck) :
  exists l,
    stagnated l = true /\ stuck l = true
    /\ length l = length (alpha_log st)
    /\ (forall x, In x l -> nth (argmin l) l 0 <= x)
    /\ i_s_loss st = set_last l (nth (argmin l) l 0)
    /\ py_index (alpha_log st) (Z.of_nat (argmin l) - 1) = Some (alpha st)
    /\ exists self',
        optAlpha np_power np_log initloss self = (self', Ok tt)
        /\ _alpha self' = Nd1 (deref (heap st) (alpha st))
        /\ _closs self' = Some (nth (argmin l) l 0).
Proof.
  destruct (opt_run_index_below _ _ _ _ _ Hrun Hiter) as (idx & Hi & Hlt & _).
  pose proof Hrun as Hrun'. unfold opt_run in Hrun'.
  destruct (opt_loop_last _ _ _ _ _ _ _ Hrun') as (i & prev & _ & Hb & _).
  { destruct (_iterations self); [lia|discriminate]. }
  destruct (opt_body_inv _ _ _ _ _ _ _ Hb) as (dis & loss & _ & _ & _ & Hlog & _ & Hex).
  rewrite Hexit in Hex. destruct Hex as (Hp & Hl & _ & Hs & Hk).
  exists (i_s_loss prev ++ [loss])%list.
  split; [exact Hs|]. split; [exact Hk|]. split; [|split; [|split; [|split]]].
  - pose proof (opt_loop_aligned _ _ _ _ _ _ _ Hrun' eq_refl) as Hal.
    rewrite <- Hal, Hl. unfold set_last. now rewrite length_set_nth.
  - apply argmin_least. destruct (i_s_loss prev); discriminate.
  - exact Hl.
  - exact Hp.
  - eexists. split.
    + eapply optAlpha_after_run; eauto.
    + split; [reflexivity|]. cbn [_closs commit set_mask].
      rewrite Hl, loss_at_set_last. reflexivity.
Qed.

(** ** The optimizer on the two examples *)

(** The 1x2 example runs through all 200 iterations.  The least loss of
    the history, below 3, is the one of iteration 8; the loss written back
    is the last one, above 9000, with the exponents [0.64, 2.0] of the final
    iteration. *)
Lemma optAlpha_exhausted_commits_final_iterate_witness :
  exists st,
    opt_run exhaust_power exhaust_log exhaust_engine exhaust_sources = Ok st
    /\ exit st = GoOn
    /\ iter_index st = Some 199%nat
    /\ length (i_s_loss st) = 200%nat
    /\ argmin (i_s_loss st) = 8%nat
    /\ nth 8 (i_s_loss st) 0 < 3
    /\ 9000 < loss_at (i_s_loss st) (-1)
    /\ py_index (alpha_log st) (-1) = Some (alpha st)
    /\ deref (heap st) (alpha st) = [64 # 100; 200 # 100]
    /\ exists self',
        optAlpha exhaust_power exhaust_log 0 exhaust_engine = (self', Ok tt)
        /\ _alpha self' = Nd1 [64 # 100; 200 # 100]
        /\ _closs self' = Some (loss_at (i_s_loss st) (-1))
        /\ _amount_iter self' = 199%nat.
Proof.
  assert (S : match opt_run exhaust_power exhaust_log exhaust_engine exhaust_sources with
              | Ok st => Some (exit st, argmin (i_s_loss st),
                               nth 8 (i_s_loss st) 0 ?= 3,
                               9000 ?= loss_at (i_s_loss st) (-1),
                               deref (heap st) (alpha st))
              | Raise _ => None
              end = Some (GoOn, 8%nat, Lt, Lt, [64 # 100; 200 # 100]))
    by (vm_compute; reflexivity).
  destruct (opt_run exhaust_power exhaust_log exhaust_engine exhaust_sources)
    as [st|e] eqn:Hrun; [|discriminate S].
  injection S as Hexit Hargmin Hleast Hlast Halpha.
  apply Qlt_alt in Hleast, Hlast.
  exists st. split; [reflexivity|].
  destruct (optAlpha_exhausted_commits_final_iterate
              exhaust_power exhaust_log exhaust_engine exhaust_sources st 0
              (Nat.lt_0_succ 199) eq_refl Hrun Hexit)
    as (Hi & Hlen & Hpy & self' & Hopt & Ha & Hc & Hn).
  split; [exact Hexit|]. split; [exact Hi|]. split; [exact Hlen|].
  split; [exact Hargmin|]. split; [exact Hleast|]. split; [exact Hlast|].
  split; [exact Hpy|]. split; [exact Halpha|].
  exists self'. rewrite <- Halpha.
  split; [exact Hopt|]. split; [exact Ha|]. split; [exact Hc|exact Hn].
Defined.

(** The 1x1 example leaves the loop through 'Stuck...' at iteration 5.
    The least loss is the one of iteration 1, recorded for the exponents
    [0.5, 1.15].  The exponent written back is the entry of [alpha_log] at
    index 0 (which the in-place update of iteration 1 has left at about
    0.467 for the target), not the entry at index 1 (left at about 0.028 by
    the update of iteration 2). *)
Lemma optAlpha_stuck_commits_entry_before_argmin_witness :
  exists st,
    opt_run stuck_power stuck_log stuck_engine stuck_sources = Ok st
    /\ exit st = Stuck
    /\ iter_index st = Some 5%nat
    /\ argmin (i_s_loss st) = 1%nat
    /\ alpha_log st = [1; 2; 3; 4; 5; 6]%nat
    /\ alpha st = 1%nat
    /\ (46 # 100 < nth 0 (deref (heap st) 1%nat) 0 /\ nth 0 (deref (heap st) 1%nat) 0 < 47 # 100)
    /\ (2 # 100 < nth 0 (deref (heap st) 2%nat) 0 /\ nth 0 (deref (heap st) 2%nat) 0 < 3 # 100)
    /\ (exists loss,
           _IS stuck_power stuck_log stuck_engine
               (Nd2 (Xhat_acc stuck_power stuck_sources [50 # 100; 115 # 100]))
           = Ok loss
           /\ loss == nth 1 (i_s_loss st) 0)
    /\ exists self',
        optAlpha stuck_power stuck_log 0 stuck_engine = (self', Ok tt)
        /\ _alpha self' = Nd1 (deref (heap st) 1%nat)
        /\ _closs self' = Some (loss_at (i_s_loss st) (-1))
        /\ loss_at (i_s_loss st) (-1) == nth 1 (i_s_loss st) 0.
Proof.
  assert (EIS : exists loss,
             _IS stuck_power stuck_log stuck_engine
                 (Nd2 (Xhat_acc stuck_power stuck_sources [50 # 100; 115 # 100]))
             = Ok loss).
  { destruct (_IS stuck_power stuck_log stuck_engine _) as [loss|e] eqn:E;
      [now exists loss|]. vm_compute in E. discriminate E. }
  destruct EIS as [loss EIS].
  assert (S : match opt_run stuck_power stuck_log stuck_engine stuck_sources,
                    _IS stuck_power stuck_log stuck_engine
                        (Nd2 (Xhat_acc stuck_power stuck_sources [50 # 100; 115 # 100]))
              with
              | Ok st, Ok x =>
                  Some (exit st, iter_index st, argmin (i_s_loss st), alpha_log st,
                        alpha st,
                        (46 # 100 ?= nth 0 (deref (heap st) 1%nat) 0,
                         nth 0 (deref (heap st) 1%nat) 0 ?= 47 # 100),
                        (2 # 100 ?= nth 0 (deref (heap st) 2%nat) 0,
                         nth 0 (deref (heap st) 2%nat) 0 ?= 3 # 100),
                        Qeq_bool x (nth 1 (i_s_loss st) 0),
                        Qeq_bool (loss_at (i_s_loss st) (-1)) (nth 1 (i_s_loss st) 0))
              | _, _ => None
              end
              = Some (Stuck, Some 5%nat, 1%nat, [1; 2; 3; 4; 5; 6]%nat, 1%nat,
                      (Lt, Lt), (Lt, Lt), true, true))
    by (vm_compute; reflexivity).
  rewrite EIS in S.
  destruct (opt_run stuck_power stuck_log stuck_engine stuck_sources)
    as [st|e] eqn:Hrun; [|discriminate S].
  injection S as Hexit Hidx Hargmin Hlog Halpha H1a H1b H2a H2b HIS Hmin.
  apply Qlt_alt in H1a, H1b, H2a, H2b. apply Qeq_bool_eq in Hmin, HIS.
  exists st. split; [reflexivity|].
  destruct (optAlpha_stuck_commits_entry_before_argmin
              stuck_power stuck_log stuck_engine stuck_sources st 0
              (Nat.lt_0_succ 199) eq_refl Hrun Hexit)
    as (l & _ & _ & _ & _ & Hl & _ & self' & Hopt & Ha & Hc).
  split; [exact Hexit|]. split; [exact Hidx|]. split; [exact Hargmin|].
  split; [exact Hlog|]. split; [exact Halpha|].
  split; [split; [exact H1a|exact H1b]|]. split; [split; [exact H2a|exact H2b]|].
  split.
  - exists loss. split; [exact EIS|exact HIS].
  - exists self'.
    split; [exact Hopt|]. split; [rewrite <- Halpha; exact Ha|]. split; [|exact Hmin].
    rewrite Hc. f_equal. rewrite Hl. clear.
    destruct l as [|x l] using rev_ind; [reflexivity|].
    now rewrite loss_at_set_last.
Defined.

(** ** The loss of an iteration *)

Section LossOfAnIteration.

Variable np_power : Q -> Q -> Q.
Variable np_log : Q -> Q.

Lemma IS_flat (eps a : Q) (fm fx : list Q) :
  length fm = length fx ->
  let N := map (fun x => x + eps) (map (fun x => np_power x a) (map Qabs fm)) in
  let D := map (fun x => x + eps) (map Qabs fx) in
  map (fun x => x - 1)
      (map2 Qminus (map2 Qdiv N D) (map2 Qminus (map np_log N) (map np_log D)))
  = map2 (fun m x =>
            let num := np_power (Qabs m) a + eps in
            let den := Qabs x + eps in
            num / den - (np_log num - np_log den) - 1) fm fx.
Proof.
  revert fx. induction fm as [|m fm IH]; intros [|x fx] H; simpl in *; try discriminate.
  - reflexivity.
  - f_equal. apply IH. now inversion H.
Qed.

(** [_IS] on an estimate of the shape of the mixture, with a scalar
    engine exponent. *)
Lemma IS_same_shape (self : FrequencyMasking) (a : Q) (mX X : arr2) :
  _alpha self = Nd0 a -> _mX self = Nd2 mX -> congruent (Nd2 X) (Nd2 mX) ->
  _IS np_power np_log self (Nd2 X)
  = Ok (IS_code np_power np_log (_eps self) a (concat mX) (concat X)).
Proof.
  intros Ha Hm Hc. unfold _IS. rewrite Ha, Hm.
  unfold nd_add, nd_sub, nd_div.
  rewrite !nd_binop_scalar_r. cbn [obind].
  rewrite !nd_binop_scalar_r. cbn [obind].
  set (N := nd_map (fun x => x + _eps self)
                   (nd_map (fun x => np_power x a) (nd_map Qabs (Nd2 mX)))).
  set (D := nd_map (fun x => x + _eps self) (nd_map Qabs (Nd2 X))).
  assert (HN : congruent N (Nd2 mX))
    by (repeat apply congruent_map_l; apply congruent_refl).
  assert (HD : congruent D (Nd2 mX))
    by (repeat apply congruent_map_l; exact Hc).
  assert (HND : congruent N D)
    by (eapply congruent_trans; [exact HN|now apply congruent_sym]).
  rewrite (nd_binop_congruent Qdiv N D HND). cbn [obind].
  assert (HL : congruent (nd_map np_log N) (nd_map np_log D)).
  { apply congruent_map_l. apply congruent_sym. apply congruent_map_l.
    now apply congruent_sym. }
  rewrite (nd_binop_congruent Qminus _ _ HL). cbn [obind].
  assert (HR : congruent (nd_zip Qdiv N D) (nd_zip Qminus (nd_map np_log N) (nd_map np_log D))).
  { eapply congruent_trans; [now apply congruent_zip_l|].
    apply congruent_sym. eapply congruent_trans; [now apply congruent_zip_l|].
    apply congruent_map_l, congruent_refl. }
  rewrite (nd_binop_congruent Qminus _ _ HR). cbn [obind].
  rewrite nd_binop_scalar_r. cbn [obind]. f_equal.
  unfold nd_mean, IS_code.
  rewrite flat_map, !flat_zip, !flat_map by assumption.
  unfold N, D. rewrite !flat_map. cbn [flat].
  pose proof (congruent_flat _ _ Hc) as Hlen. cbn [flat] in Hlen.
  rewrite (IS_flat (_eps self) a (concat mX) (concat X)) by congruence.
  rewrite map2_length_same by congruence. reflexivity.
Qed.

Lemma arr2_add_congruent (a b : arr2) (m : ndarray) :
  congruent (Nd2 a) m -> congruent (Nd2 b) m -> congruent (Nd2 (arr2_add a b)) m.
Proof.
  intros Ha Hb.
  change (Nd2 (arr2_add a b)) with (nd_zip Qplus (Nd2 a) (Nd2 b)).
  eapply congruent_trans; [|exact Ha]. apply congruent_zip_l.
  eapply congruent_trans; [exact Ha|now apply congruent_sym].
Qed.

Lemma fold_arr2_add_congruent (ps : list arr2) (acc : arr2) (m : ndarray) :
  Forall (fun p => congruent (Nd2 p) m) ps -> congruent (Nd2 acc) m ->
  congruent (Nd2 (fold_left arr2_add ps acc)) m.
Proof.
  revert acc. induction ps as [|p ps IH]; intros acc Hps Hacc; simpl; [exact Hacc|].
  inversion Hps; subst. apply IH; [assumption|]. now apply arr2_add_congruent.
Qed.

Lemma source_powers_congruent (s_list : list arr2) (alpha : vec) (m : ndarray) :
  Forall (fun s => congruent (Nd2 s) m) s_list ->
  Forall (fun p => congruent (Nd2 p) m) (map2 (source_power np_power) s_list alpha).
Proof.
  intros H. revert alpha. induction H as [|s s_list Hs _ IH]; intros [|a alpha]; simpl;
    constructor; [|apply IH].
  exact (congruent_map_l (fun x => np_power x a) (Nd2 s) m Hs).
Qed.

(** The additive power estimate has the shape of the sources. *)
Lemma Xhat_acc_congruent (s_list : list arr2) (alpha : vec) (m : ndarray) :
  s_list <> [] -> length alpha = length s_list ->
  Forall (fun s => congruent (Nd2 s) m) s_list ->
  congruent (Nd2 (Xhat_acc np_power s_list alpha)) m.
Proof.
  intros Hne Hlen Hs. unfold Xhat_acc.
  pose proof (source_powers_congruent s_list alpha m Hs) as Hp.
  destruct s_list as [|s s_list]; [congruence|].
  destruct alpha as [|a alpha]; [discriminate|]. cbn [map2] in Hp |- *.
  inversion Hp as [|p ps H1 H2]; subst.
  apply fold_arr2_add_congruent; [exact H2|].
  exact (congruent_map_l (Qplus 0) (Nd2 (source_power np_power s a)) m H1).
Qed.

Lemma stabilize_length (a : vec) : length (stabilize a) = length a.
Proof. unfold stabilize. now rewrite !length_map. Qed.

Lemma next_iterate_length (eps dis : Q) (s_list : list arr2) (a lrs : vec) :
  length a = length s_list -> length lrs = length s_list ->
  length (stabilize (gradient_step a lrs
                       (loss_derivatives np_power np_log eps dis s_list a)))
  = length s_list.
Proof.
  intros Ha Hl. rewrite stabilize_length. unfold gradient_step, loss_derivatives.
  rewrite map2_length_same; [exact Ha|].
  rewrite map2_length_same; [congruence|].
  rewrite map2_length_same; congruence.
Qed.

Lemma deref_alloc (h : store) (v : vec) : deref (h ++ [v])%list (length h) = v.
Proof.
  unfold deref. rewrite app_nth2 by lia. now rewrite Nat.sub_diag.
Qed.

End LossOfAnIteration.

Lemma opt_init_inv (lr : Q) (s_list : list arr2) :
  opt_inv s_list (opt_init lr (length s_list)).
Proof.
  split; cbn; apply repeat_length.
Qed.

Lemma rprop_length (eta_plus eta_minus : Q) (l : list Q) (lrs : vec) :
  length (rprop eta_plus eta_minus l lrs) = length lrs.
Proof.
  unfold rprop.
  destruct (Qlt_le_dec 0 _), (Qlt_le_dec _ 0); now rewrite ?length_map.
Qed.

Lemma opt_body_lrs_length (np_power : Q -> Q -> Q) (np_log : Q -> Q)
      (self : FrequencyMasking) (s_list : list arr2) (idx : nat) (st st' : opt_state) :
  opt_body np_power np_log self s_list idx st = Ok st' ->
  length (lrs st') = length (lrs st).
Proof.
  unfold opt_body. intros H.
  destruct (_dIS np_power self _) as [dis|e]; [|discriminate H].
  cbn [obind] in H. unfold alloc in H.
  destruct (_IS np_power np_log self _) as [loss|e]; [|discriminate H].
  cbn [obind] in H.
  destruct (2 <? idx)%nat.
  - destruct ((4 <? idx)%nat && stagnated _).
    + destruct (stuck _).
      * destruct (py_index _ _); [|discriminate H].
        inversion H; subst. cbn. apply rprop_length.
      * inversion H; subst. cbn. apply rprop_length.
    + inversion H; subst. cbn. apply rprop_length.
  - inversion H; subst. reflexivity.
Qed.

(** An iteration that goes on keeps one exponent and one learning rate per
    source, so every iteration of a run starts from such a state. *)
Lemma opt_body_keeps_inv (np_power : Q -> Q -> Q) (np_log : Q -> Q)
      (self : FrequencyMasking) (s_list : list arr2) (idx : nat) (st st' : opt_state) :
  opt_inv s_list st ->
  opt_body np_power np_log self s_list idx st = Ok st' ->
  exit st' = GoOn ->
  opt_inv s_list st'.
Proof.
  intros [Ha Hl] Hb Hx. split.
  - destruct (opt_body_inv _ _ _ _ _ _ _ Hb) as (dis & loss & _ & _ & Hh & _ & _ & Hex).
    rewrite Hx in Hex. destruct Hex as (Hr & _).
    rewrite Hh, Hr.
    replace (length (heap st)) with (length (update (heap st) (alpha st)
      (gradient_step (deref (heap st) (alpha st)) (lrs st)
         (loss_derivatives np_power np_log (_eps self) dis s_list
            (deref (heap st) (alpha st))))))
      by apply length_set_nth.
    rewrite deref_alloc. now apply next_iterate_length.
  - rewrite (opt_body_lrs_length _ _ _ _ _ _ _ Hb). exact Hl.
Qed.

(** C4, as the code has it.  In an iteration of [optAlpha], on a mixture
    and sources of one shape and with a scalar engine exponent [a], the
    loss appended to the loss history is
    [mean(r - (log(num) - log(den)) - 1)] with [num = |mixture|^a + eps],
    [den = |Xhat| + eps] and [r = num / den], where [Xhat] is the additive
    power estimate at the exponents this iteration appends to [alpha_log]
    and [a] is the exponent the engine holds in [_alpha], the same in every
    iteration.  (On the 'Stuck...' exit the appended loss is then overwritten
    with the least loss.) *)
Theorem optAlpha_loss_is_IS_at_engine_exponent
        (np_power : Q -> Q -> Q) (np_log : Q -> Q)
        (self : FrequencyMasking) (s_list : list arr2) (idx : nat)
        (st st' : opt_state) (a : Q) (mX : arr2)
        (Halpha : _alpha self = Nd0 a)
        (HmX : _mX self = Nd2 mX)
        (Hne : s_list <> [])
        (Hshape : Forall (fun s => congruent (Nd2 s) (Nd2 mX)) s_list)
        (Hinv : opt_inv s_list st)
        (Hbody : opt_body np_power np_log self s_list idx st = Ok st') :
  exists r loss,
    alpha_log st' = (alpha_log st ++ [r])%list
    /\ loss = IS_code np_power np_log (_eps self) a (concat mX)
                      (concat (Xhat_acc np_power s_list (deref (heap st') r)))
    /\ (i_s_loss st' = (i_s_loss st ++ [loss])%list
        \/ (exit st' = Stuck
            /\ i_s_loss st'
               = set_last (i_s_loss st ++ [loss])
                          (nth (argmin (i_s_loss st ++ [loss])) (i_s_loss st ++ [loss]) 0))).
Proof.
  destruct Hinv as [Ha Hl].
  destruct (opt_body_inv _ _ _ _ _ _ _ Hbody)
    as (dis & loss & _ & HIS & Hh & Hlog & _ & Hex).
  cbv zeta in HIS, Hh.
  set (a3 := stabilize (gradient_step (deref (heap st) (alpha st)) (lrs st)
               (loss_derivatives np_power np_log (_eps self) dis s_list
                  (deref (heap st) (alpha st))))) in *.
  assert (Hd : deref (heap st') (length (heap st)) = a3).
  { rewrite Hh.
    replace (length (heap st)) with (length (update (heap st) (alpha st)
      (gradient_step (deref (heap st) (alpha st)) (lrs st)
         (loss_derivatives np_power np_log (_eps self) dis s_list
            (deref (heap st) (alpha st))))))
      by apply length_set_nth.
    apply deref_alloc. }
  assert (Hc : congruent (Nd2 (Xhat_acc np_power s_list a3)) (Nd2 mX)).
  { apply Xhat_acc_congruent; [exact Hne| |exact Hshape].
    unfold a3. now apply next_iterate_length. }
  rewrite (IS_same_shape np_power np_log self a mX _ Halpha HmX Hc) in HIS.
  inversion HIS as [Hloss].
  exists (length (heap st)), loss.
  split; [exact Hlog|]. split; [now rewrite Hd|].
  destruct (exit st').
  - left. now destruct Hex as (_ & Hi & _).
  - left. now destruct Hex as (_ & Hi & _).
  - right. split; [reflexivity|]. now destruct Hex as (_ & Hi & _).
Qed.

(** The first iteration on the 1x1 example: the loss appended, about
    775.3, is the distance taken with the engine exponent 2. *)
Lemma optAlpha_loss_is_IS_at_engine_exponent_witness :
  exists st1 r loss,
    opt_body stuck_power stuck_log stuck_engine stuck_sources 0
             (opt_init (_lr stuck_engine) 2) = Ok st1
    /\ alpha_log st1 = [r]
    /\ i_s_loss st1 = [loss]
    /\ loss = IS_code stuck_power stuck_log float_eps 2 [32]
                      (concat (Xhat_acc stuck_power stuck_sources (deref (heap st1) r))).
Proof.
  destruct (opt_body stuck_power stuck_log stuck_engine stuck_sources 0
                     (opt_init (_lr stuck_engine) 2)) as [st1|e] eqn:Hbody.
  2:{ vm_compute in Hbody. discriminate Hbody. }
  destruct (optAlpha_loss_is_IS_at_engine_exponent
              stuck_power stuck_log stuck_engine stuck_sources 0
              (opt_init (_lr stuck_engine) 2) st1 2 [[32]]
              eq_refl eq_refl) as (r & loss & Hlog & Hloss & Hl).
  - discriminate.
  - repeat constructor.
  - exact (opt_init_inv (_lr stuck_engine) stuck_sources).
  - exact Hbody.
  - exists st1, r, loss. split; [reflexivity|]. split; [exact Hlog|].
    split; [|exact Hloss].
    destruct Hl as [Hl|[Hx _]]; [exact Hl|].
    destruct (opt_body_inv _ _ _ _ _ _ _ Hbody) as (dis & loss' & _ & _ & _ & _ & _ & Hex).
    rewrite Hx in Hex. destruct Hex as (_ & _ & Hidx & _). lia.
Defined.

(** C4, as the claim states it, fails.  After the first iteration on the
    1x1 example the exponent of the target is 0.85; the loss appended is
    above 775, while the distance with the mixture raised to that exponent
    is below 11. *)
Lemma optAlpha_loss_is_not_IS_at_target_exponent :
  exists st1 loss,
    opt_body stuck_power stuck_log stuck_engine stuck_sources 0
             (opt_init (_lr stuck_engine) 2) = Ok st1
    /\ deref (heap st1) (alpha st1) = [85 # 100; 115 # 100]
    /\ i_s_loss st1 = [loss]
    /\ 775 < loss
    /\ IS_spec stuck_power stuck_log float_eps (85 # 100) [32]
               (concat (Xhat_acc stuck_power stuck_sources [85 # 100; 115 # 100])) < 11
    /\ ~ loss == IS_spec stuck_power stuck_log float_eps (85 # 100) [32]
                         (concat (Xhat_acc stuck_power stuck_sources
                                           [85 # 100; 115 # 100])).
Proof.
  set (claimed := IS_spec stuck_power stuck_log float_eps (85 # 100) [32]
                          (concat (Xhat_acc stuck_power stuck_sources
                                            [85 # 100; 115 # 100]))).
  assert (Hhi : (claimed ?= 11) = Lt) by (vm_compute; reflexivity).
  assert (S : match opt_body stuck_power stuck_log stuck_engine stuck_sources 0
                             (opt_init (_lr stuck_engine) 2) with
              | Ok st1 =>
                  Some (deref (heap st1) (alpha st1),
                        length (i_s_loss st1),
                        775 ?= nth 0 (i_s_loss st1) 0,
                        Qeq_bool (nth 0 (i_s_loss st1) 0) claimed)
              | Raise _ => None
              end = Some ([85 # 100; 115 # 100], 1%nat, Lt, false))
    by (vm_compute; reflexivity).
  clearbody claimed.
  destruct (opt_body stuck_power stuck_log stuck_engine stuck_sources 0
                     (opt_init (_lr stuck_engine) 2)) as [st1|e]; [|discriminate S].
  injection S as Ha Hlen Hlo Hne.
  apply Qlt_alt in Hlo, Hhi. apply Qeq_bool_neq in Hne.
  destruct (i_s_loss st1) as [|loss [|? ?]] eqn:El; try discriminate Hlen.
  exists st1, loss. cbn [nth] in Hlo, Hne.
  split; [reflexivity|]. split; [exact Ha|]. split; [exact El|].
  split; [exact Hlo|]. split; [exact Hhi|exact Hne].
Qed.


(** * Further properties of the masking methods *)

(** ** The binary masks *)

Lemma threshold_binary (theta x : Q) : threshold theta x = 0 \/ threshold theta x = 1.
Proof.
  unfold threshold. destruct (Qle_bool theta x); auto.
Qed.

Lemma threshold_row_binary (theta : Q) (row : vec) :
  Forall (fun y => y = 0 \/ y = 1) (threshold_row theta row).
Proof.
  unfold threshold_row. destruct (existsb _ row);
    apply Forall_forall; intros y Hy; apply in_map_iff in Hy;
    destruct Hy as (x & <- & _); auto.
Qed.

Lemma Forall_concat {A : Type} (P : A -> Prop) (l : list (list A)) :
  Forall (Forall P) l -> Forall P (concat l).
Proof.
  induction 1; simpl; [constructor|]. now apply Forall_app.
Qed.

(** Whatever array the ratio is, the two writes through [np.where] leave
    only zeros and ones. *)
Lemma where_assign_binary (theta : Q) (mask m : ndarray) :
  where_assign theta mask = Ok m -> nd_all (fun y => y = 0 \/ y = 1) m.
Proof.
  destruct mask as [x|v|a|a]; simpl; intros H; inversion H; subst; unfold nd_all; simpl.
  - apply Forall_concat. apply Forall_forall. intros row Hrow.
    apply in_map_iff in Hrow. destruct Hrow as (r & <- & _).
    apply Forall_forall. intros y Hy. apply in_map_iff in Hy.
    destruct Hy as (x & <- & _). apply threshold_binary.
  - apply Forall_concat, Forall_concat. apply Forall_forall. intros mat Hmat.
    apply in_map_iff in Hmat. destruct Hmat as (c & <- & _).
    apply Forall_forall. intros row Hrow.
    apply in_map_iff in Hrow. destruct Hrow as (r & <- & _).
    apply threshold_row_binary.
Qed.

(** X1.  Whenever [IBM] completes, on inputs of any rank and shape, the
    mask it stores holds only the values 0 and 1, and nothing else of the
    engine has changed. *)
Theorem IBM_mask_is_binary
        (np_power : Q -> Q -> Q) (self self' : FrequencyMasking)
        (H : IBM np_power self = (self', Ok tt)) :
  exists m, self' = set_mask (PyArr m) self /\ nd_all (fun y => y = 0 \/ y = 1) m.
Proof.
  unfold IBM, bind, get, id, lift, modify in H.
  repeat match type of H with
         | context [obind ?c _] =>
             let E := fresh "E" in
             destruct c eqn:E; cbn [obind] in H; [|discriminate H]
         end.
  match type of H with
  | context [where_assign ?th ?x] =>
      destruct (where_assign th x) as [m|e] eqn:Ew; [|discriminate H]
  end.
  inversion H; subst. exists m. split; [reflexivity|].
  eapply where_assign_binary. exact Ew.
Qed.

(** X2.  Whenever [UBBM] completes, on inputs of any rank and shape, the
    mask it stores holds only the values 0 and 1, and nothing else of the
    engine has changed. *)
Theorem UBBM_mask_is_binary
        (np_power : Q -> Q -> Q) (np_log : Q -> Q) (self self' : FrequencyMasking)
        (H : UBBM np_power np_log self = (self', Ok tt)) :
  exists m, self' = set_mask (PyArr m) self /\ nd_all (fun y => y = 0 \/ y = 1) m.
Proof.
  unfold UBBM, bind, get, id, lift, modify in H.
  repeat match type of H with
         | context [obind ?c _] =>
             let E := fresh "E" in
             destruct c eqn:E; cbn [obind] in H; [|discriminate H]
         end.
  match type of H with
  | context [where_assign ?th ?x] =>
      destruct (where_assign th x) as [m|e] eqn:Ew; [|discriminate H]
  end.
  inversion H; subst. exists m. split; [reflexivity|].
  eapply where_assign_binary. exact Ew.
Qed.

Lemma IBM_mask_is_binary_witness :
  exists m,
    set_mask (PyArr (Nd2 [[1; 0]])) ibm_engine = set_mask (PyArr m) ibm_engine
    /\ nd_all (fun y => y = 0 \/ y = 1) m.
Proof.
  apply (IBM_mask_is_binary (fun x _ => x) ibm_engine). reflexivity.
Defined.

Lemma UBBM_mask_is_binary_witness :
  exists m,
    set_mask (PyArr (Nd2 [[1; 0]])) ubbm_engine = set_mask (PyArr m) ubbm_engine
    /\ nd_all (fun y => y = 0 \/ y = 1) m.
Proof.
  apply (UBBM_mask_is_binary (fun x _ => x) (fun x => x - 1) ubbm_engine). reflexivity.
Defined.

(** ** The Wiener mask with any number of residual components *)

Lemma py_item_list (l : list arr2) (i : nat) (r : arr2) :
  nth_error l i = Some r -> py_item (PyList l) i = Ok (Nd2 r).
Proof.
  intros H. unfold py_item. now rewrite H.
Qed.

(** The accumulation of squared components keeps the shape of the target
    and stays at or above the squared target. *)
Lemma add_squares (l : list arr2) (t : arr2) (indices : list nat) (acc : arr2) :
  Forall (fun r => congruent (Nd2 r) (Nd2 t)) l ->
  Forall (fun i => (i < length l)%nat) indices ->
  congruent (Nd2 acc) (Nd2 t) ->
  Forall2 (fun a x => x ^ 2 <= a) (concat acc) (concat t) ->
  exists acc',
    add_components (fun x => Ok (nd_square x)) (PyList l) indices (Nd2 acc) = Ok (Nd2 acc')
    /\ congruent (Nd2 acc') (Nd2 t)
    /\ Forall2 (fun a x => x ^ 2 <= a) (concat acc') (concat t).
Proof.
  intros Hl Hi. revert acc.
  induction Hi as [|i indices Hlt _ IH]; intros acc Hc Hge.
  - exists acc. repeat split; assumption.
  - destruct (nth_error l i) as [r|] eqn:Er;
      [|apply nth_error_None in Er; lia].
    assert (Hr : congruent (Nd2 r) (Nd2 t)).
    { rewrite Forall_forall in Hl. apply Hl. eapply nth_error_In. exact Er. }
    set (p := nd_square (Nd2 r)).
    assert (Hp : congruent p (Nd2 t)) by (apply congruent_map_l; exact Hr).
    assert (Hap : congruent (Nd2 acc) p)
      by (eapply congruent_trans; [exact Hc|now apply congruent_sym]).
    destruct (IH (map2 (map2 Qplus) acc (map (map (fun v => v ^ 2)) r)))
      as (acc' & E & Hc' & Hge').
    + change (congruent (nd_zip Qplus (Nd2 acc) p) (Nd2 t)).
      eapply congruent_trans; [now apply congruent_zip_l|exact Hc].
    + change (Forall2 (fun a x => x ^ 2 <= a)
                      (flat (nd_zip Qplus (Nd2 acc) p)) (concat t)).
      rewrite flat_zip by exact Hap. unfold p, nd_square. rewrite flat_map.
      cbn [flat].
      pose proof (congruent_flat _ _ Hr) as Hlen. cbn [flat] in Hlen.
      clear - Hge Hlen. revert Hlen. generalize (concat r).
      induction Hge as [|a x la lx Hax _ IHge]; intros [|y ly] Hlen; simpl in *;
        try discriminate; constructor.
      * assert (0 <= y ^ 2) by (simpl; nra). lra.
      * apply IHge. now inversion Hlen.
    + exists acc'. split; [|split; assumption].
      cbn [add_components]. rewrite (py_item_list l i r Er). cbn [obind].
      unfold nd_iadd, nd_add. fold p.
      rewrite (nd_binop_congruent Qplus (Nd2 acc) p Hap). cbn [obind].
      rewrite (congruent_shape _ _ (congruent_zip_l Qplus (Nd2 acc) p Hap)).
      unfold shape_eqb. destruct (list_eq_dec Nat.eq_dec _ _) as [_|N]; [|now elim N].
      exact E.
Qed.

Lemma Wiener_ratio_flat (eps : Q) (ft fa : list Q) :
  0 < eps ->
  Forall2 (fun a x => x ^ 2 <= a) fa ft ->
  Forall (fun y => 0 < y /\ y <= 1)
         (map2 Qdiv (map (fun x => x + eps) (map (fun v => v ^ 2) ft))
               (map (Qplus eps) fa)).
Proof.
  intros He H. induction H as [|a x fa ft Hax _ IH]; simpl; constructor; [|exact IH].
  assert (Hp : 0 <= x ^ 2) by (simpl; nra).
  assert (Hd : 0 < eps + a) by lra.
  split.
  - apply Qlt_shift_div_l; [exact Hd|]. lra.
  - apply Qle_shift_div_r; [exact Hd|]. lra.
Qed.

(** X3.  With the residual given as a non-empty list of components of the
    shape of the target, [Wiener] completes and every element of the mask
    lies in (0, 1], whatever the signs of the inputs: the components enter
    through their squares only. *)
Theorem Wiener_mask_in_unit_interval
        (self : FrequencyMasking) (t : arr2) (l : list arr2)
        (Ht : _sTarget self = Nd2 t)
        (Hr : _nResidual self = PyList l)
        (Hne : l <> [])
        (Hshape : Forall (fun r => congruent (Nd2 r) (Nd2 t)) l)
        (Heps : 0 < _eps self) :
  exists m,
    Wiener self = (set_mask (PyArr (Nd2 m)) self, Ok tt)
    /\ congruent (Nd2 m) (Nd2 t)
    /\ Forall (fun y => 0 < y /\ y <= 1) (concat m).
Proof.
  destruct l as [|r0 l']; [congruence|]. clear Hne.
  set (sqt := map (map (fun v : Q => v ^ 2)) t).
  set (sq0 := map (map (fun v : Q => v ^ 2)) r0).
  assert (Hr0 : congruent (Nd2 r0) (Nd2 t)) by now inversion Hshape.
  assert (Hsqt : congruent (Nd2 sqt) (Nd2 t))
    by apply (congruent_map_l _ (Nd2 t)), congruent_refl.
  assert (Hsq0 : congruent (Nd2 sq0) (Nd2 t))
    by (apply (congruent_map_l _ (Nd2 r0)); exact Hr0).
  assert (H0t : congruent (Nd2 sq0) (Nd2 sqt))
    by (eapply congruent_trans; [exact Hsq0|now apply congruent_sym]).
  set (start := map2 (map2 Qplus) sq0 sqt).
  assert (Hstart : congruent (Nd2 start) (Nd2 t)).
  { change (congruent (nd_zip Qplus (Nd2 sq0) (Nd2 sqt)) (Nd2 t)).
    eapply congruent_trans; [now apply congruent_zip_l|exact Hsq0]. }
  assert (Hge : Forall2 (fun a x => x ^ 2 <= a) (concat start) (concat t)).
  { change (Forall2 (fun a x => x ^ 2 <= a)
                    (flat (nd_zip Qplus (Nd2 sq0) (Nd2 sqt))) (concat t)).
    rewrite flat_zip by exact H0t.
    change (Nd2 sq0) with (nd_map (fun v : Q => v ^ 2) (Nd2 r0)).
    change (Nd2 sqt) with (nd_map (fun v : Q => v ^ 2) (Nd2 t)).
    rewrite !flat_map. cbn [flat].
    pose proof (congruent_flat _ _ Hr0) as Hlen. cbn [flat] in Hlen.
    clear - Hlen. revert Hlen. generalize (concat r0).
    induction (concat t) as [|x lx IH]; intros [|y ly] Hlen; simpl in *;
      try discriminate; constructor.
    - assert (0 <= y * y) by nra. lra.
    - apply IH. now inversion Hlen. }
  assert (Hacc : exists acc,
             (if (1 <? length (r0 :: l'))%nat
              then add_components (fun x => Ok (nd_square x)) (PyList (r0 :: l'))
                                  (seq 1 (length (r0 :: l') - 1)) (Nd2 start)
              else Ok (Nd2 start)) = Ok (Nd2 acc)
             /\ congruent (Nd2 acc) (Nd2 t)
             /\ Forall2 (fun a x => x ^ 2 <= a) (concat acc) (concat t)).
  { destruct (1 <? length (r0 :: l'))%nat.
    - apply add_squares; try assumption.
      apply Forall_forall. intros i Hi. apply in_seq in Hi. simpl in *. lia.
    - exists start. repeat split; assumption. }
  destruct Hacc as (acc & Eacc & Hacc & Hgeacc).
  set (n := map (map (fun x => x + _eps self)) sqt).
  set (d := map (map (Qplus (_eps self))) acc).
  assert (Hn : congruent (Nd2 n) (Nd2 t)).
  { apply (congruent_map_l _ (Nd2 sqt)). exact Hsqt. }
  assert (Hd : congruent (Nd2 d) (Nd2 t)).
  { apply (congruent_map_l _ (Nd2 acc)). exact Hacc. }
  assert (Hnd : congruent (Nd2 n) (Nd2 d))
    by (eapply congruent_trans; [exact Hn|now apply congruent_sym]).
  exists (map2 (map2 Qdiv) n d).
  split; [|split].
  - unfold Wiener, wiener_like, bind, get, id, lift, modify. rewrite Ht, Hr.
    cbn [nd_square nd_map obind py_len py_item nth_error].
    fold sqt. fold sq0. unfold nd_add at 1.
    rewrite (nd_binop_congruent Qplus (Nd2 sq0) (Nd2 sqt) H0t).
    cbn [obind nd_zip]. fold start.
    change (Nd2 sqt) with (nd_square (Nd2 t)) in Eacc.
    rewrite Eacc. cbn [obind].
    unfold nd_add, nd_div. rewrite nd_binop_scalar_r, nd_binop_scalar_l.
    cbn [obind nd_map]. fold n. fold d.
    now rewrite (nd_binop_congruent Qdiv (Nd2 n) (Nd2 d) Hnd).
  - change (congruent (nd_zip Qdiv (Nd2 n) (Nd2 d)) (Nd2 t)).
    eapply congruent_trans; [now apply congruent_zip_l|exact Hn].
  - change (Forall (fun y => 0 < y /\ y <= 1) (flat (nd_zip Qdiv (Nd2 n) (Nd2 d)))).
    rewrite flat_zip by exact Hnd.
    change (Nd2 n) with (nd_map (fun x => x + _eps self)
                                (nd_map (fun v : Q => v ^ 2) (Nd2 t))).
    change (Nd2 d) with (nd_map (Qplus (_eps self)) (Nd2 acc)).
    rewrite !flat_map. cbn [flat].
    now apply Wiener_ratio_flat.
Qed.

Lemma Wiener_mask_in_unit_interval_witness :
  exists m,
    Wiener wiener_engine_two = (set_mask (PyArr (Nd2 m)) wiener_engine_two, Ok tt)
    /\ congruent (Nd2 m) (Nd2 [[1; 2]])
    /\ Forall (fun y => 0 < y /\ y <= 1) (concat m).
Proof.
  apply (Wiener_mask_in_unit_interval wiener_engine_two [[1; 2]] [[[2; 0]]; [[-1; 1]]]).
  - reflexivity.
  - reflexivity.
  - discriminate.
  - repeat constructor.
  - reflexivity.
Defined.

Lemma Wiener_without_residual_raises
      (self : FrequencyMasking)
      (Hr : _nResidual self = PyList []) :
  Wiener self = (self, Raise (IndexError index_msg)).
Proof.
  unfold Wiener, wiener_like, bind, get, id, lift, modify. rewrite Hr. reflexivity.
Qed.

Lemma alphaHarmonizableProcess_without_residual_raises
      (np_power : Q -> Q -> Q) (self : FrequencyMasking) (a : Q)
      (Hr : _nResidual self = PyList []) (Ha : _alpha self = Nd0 a) :
  alphaHarmonizableProcess np_power self = (self, Raise (IndexError index_msg)).
Proof.
  unfold alphaHarmonizableProcess, wiener_like, bind, get, id, lift, modify, nd_pow.
  rewrite Hr, Ha, nd_binop_scalar_r. reflexivity.
Qed.

(** X4.  With the method [Wiener], or [alphaWiener] with a scalar exponent,
    and an empty list of residual components, [__call__] stops at
    [self._nResidual[0]] with an IndexError, whatever the reverse flag, and
    leaves the engine as it was: no mask, no output. *)
Theorem call_wiener_without_residual_raises
        (np_power : Q -> Q -> Q) (np_log np_exp np_cos : Q -> Q)
        (np_pinv : arr2 -> arr2) (to_float32 : Q -> Q)
        (self : FrequencyMasking) (a : Q) (reverse : bool)
        (Hm : _method self = "Wiener" \/ _method self = "alphaWiener")
        (Ha : _alpha self = Nd0 a)
        (Hr : _nResidual self = PyList []) :
  call np_power np_log np_exp np_cos np_pinv to_float32 reverse self
  = (self, Raise (IndexError index_msg)).
Proof.
  unfold call at 1. unfold bind at 1. unfold get at 1. unfold id.
  destruct Hm as [Hm|Hm]; rewrite Hm; cbn [String.eqb Ascii.eqb Bool.eqb];
    unfold bind at 1 2.
  - now rewrite (Wiener_without_residual_raises self Hr).
  - now rewrite (alphaHarmonizableProcess_without_residual_raises np_power self a Hr Ha).
Qed.

Lemma call_wiener_without_residual_raises_witness :
  call (fun x _ => x) (fun x => x) (fun x => x) (fun x => x) (fun a => a) (fun x => x)
       false wiener_engine_none
  = (wiener_engine_none, Raise (IndexError index_msg)).
Proof.
  apply (call_wiener_without_residual_raises
           (fun x _ => x) (fun x => x) (fun x => x) (fun x => x) (fun a => a)
           (fun x => x) wiener_engine_none (12 # 10) false).
  - left. reflexivity.
  - reflexivity.
  - reflexivity.
Defined.

(** ** The values of [IRM] and [IAM] *)

Lemma IRM_value (self : FrequencyMasking) (r : ndarray) :
  _nResidual self = PyArr r -> congruent (_sTarget self) r ->
  IRM self
  = (set_mask (PyArr (nd_zip Qdiv (_sTarget self)
                             (nd_zip Qplus (nd_map (Qplus (_eps self)) (_sTarget self)) r)))
              self, Ok tt)
  /\ congruent (nd_zip Qdiv (_sTarget self)
                       (nd_zip Qplus (nd_map (Qplus (_eps self)) (_sTarget self)) r))
               (_sTarget self).
Proof.
  intros Hr Hc.
  assert (H1 : congruent (nd_map (Qplus (_eps self)) (_sTarget self)) r)
    by now apply congruent_map_l.
  assert (H2 : congruent (_sTarget self)
                         (nd_zip Qplus (nd_map (Qplus (_eps self)) (_sTarget self)) r)).
  { apply congruent_sym. eapply congruent_trans; [now apply congruent_zip_r|].
    now apply congruent_sym. }
  split; [|now apply congruent_zip_l].
  unfold IRM, bind, get, id, lift, modify. rewrite Hr.
  unfold nd_add, nd_div. rewrite nd_binop_scalar_l. cbn [obind asarray].
  rewrite (nd_binop_congruent Qplus _ _ H1). cbn [obind].
  now rewrite (nd_binop_congruent Qdiv _ _ H2).
Qed.

Lemma IAM_value (self : FrequencyMasking) (r : ndarray) :
  _nResidual self = PyArr r -> congruent (_sTarget self) r ->
  IAM self
  = (set_mask (PyArr (nd_zip Qdiv (_sTarget self) (nd_map (Qplus (_eps self)) r)))
              self, Ok tt).
Proof.
  intros Hr Hc.
  unfold IAM, bind, get, id, lift, modify. rewrite Hr.
  unfold nd_add, nd_div. cbn [obind asarray]. rewrite nd_binop_scalar_l. cbn [obind].
  rewrite nd_binop_congruent; [reflexivity|].
  apply congruent_sym, congruent_map_l. now apply congruent_sym.
Qed.

Lemma IAM_flat (eps : Q) (ft fy : list Q) :
  0 < eps ->
  Forall2 (fun t y => 0 <= t /\ t <= y) ft fy ->
  Forall (fun v => 0 <= v <= 1) (map2 Qdiv ft (map (Qplus eps) fy)).
Proof.
  intros He H. induction H as [|t y ft fy [Ht Hy] _ IH]; simpl; constructor;
    [|exact IH].
  assert (Hd : 0 < eps + y) by lra. split.
  - apply Qle_shift_div_l; [exact Hd|]. lra.
  - apply Qle_shift_div_r; [exact Hd|]. lra.
Qed.

(** X5.  [IAM] with the observed mixture in place of the residual, as its
    docstring asks: on a target and a mixture of one shape, with
    [0 <= target <= mixture] element by element, [IAM] sets the mask to
    [target / (eps + mixture)] and every element of the mask lies in
    [[0, 1]]. *)
Theorem IAM_mask_within_unit_interval
        (self : FrequencyMasking) (y : ndarray)
        (Hr : _nResidual self = PyArr y)
        (Hshape : congruent (_sTarget self) y)
        (Heps : 0 < _eps self)
        (Hle : Forall2 (fun t v => 0 <= t /\ t <= v) (flat (_sTarget self)) (flat y)) :
  exists m,
    IAM self = (set_mask (PyArr m) self, Ok tt)
    /\ congruent m (_sTarget self)
    /\ flat m = map2 Qdiv (flat (_sTarget self)) (map (Qplus (_eps self)) (flat y))
    /\ nd_all (fun v => 0 <= v <= 1) m.
Proof.
  assert (Hc : congruent (_sTarget self) (nd_map (Qplus (_eps self)) y))
    by (apply congruent_sym, congruent_map_l; now apply congruent_sym).
  assert (F : flat (nd_zip Qdiv (_sTarget self) (nd_map (Qplus (_eps self)) y))
              = map2 Qdiv (flat (_sTarget self)) (map (Qplus (_eps self)) (flat y)))
    by now rewrite flat_zip, flat_map.
  eexists. split; [exact (IAM_value self y Hr Hshape)|].
  split; [now apply congruent_zip_l|]. split; [exact F|].
  unfold nd_all. rewrite F. now apply IAM_flat.
Qed.

Lemma IAM_mask_within_unit_interval_witness :
  exists m,
    IAM (set_nResidual (PyArr (Nd2 [[4; 4]; [4; 4]])) irm_engine)
    = (set_mask (PyArr m) (set_nResidual (PyArr (Nd2 [[4; 4]; [4; 4]])) irm_engine),
       Ok tt)
    /\ congruent m (Nd2 [[2; 2]; [2; 2]])
    /\ flat m = map2 Qdiv [2; 2; 2; 2] (map (Qplus float_eps) [4; 4; 4; 4])
    /\ nd_all (fun v => 0 <= v <= 1) m.
Proof.
  apply (IAM_mask_within_unit_interval
           (set_nResidual (PyArr (Nd2 [[4; 4]; [4; 4]])) irm_engine)
           (Nd2 [[4; 4]; [4; 4]])).
  - reflexivity.
  - simpl. repeat constructor.
  - reflexivity.
  - simpl. repeat constructor; discriminate.
Defined.

(** ** A forward call followed by a reverse call *)

Lemma apply_step_value (np_power : Q -> Q -> Q) (self : FrequencyMasking)
      (m : ndarray) (reverse : bool) :
  _method self <> "expMask" -> _mask self = PyArr m -> congruent m (_mX self) ->
  apply_step np_power reverse self
  = (set_Out (PyArr (nd_zip Qmult (if reverse then nd_map (Qminus 1) m else m)
                            (_mX self))) self, Ok tt).
Proof.
  intros Hm Hmask Hc. apply String.eqb_neq in Hm.
  unfold apply_step. destruct reverse; cbn [negb].
  - unfold applyReverseMask, bind, get, id, lift, modify. rewrite Hm, Hmask.
    unfold nd_sub, nd_mul. rewrite nd_binop_scalar_l. cbn [obind].
    rewrite nd_binop_congruent; [reflexivity|now apply congruent_map_l].
  - unfold applyMask, bind, get, id, lift, modify, py_binop. rewrite Hm, Hmask.
    cbn [asarray obind]. now rewrite nd_binop_congruent.
Qed.

Lemma forward_plus_reverse (m mX : ndarray) :
  congruent m mX ->
  exists s,
    nd_add (nd_zip Qmult m mX) (nd_zip Qmult (nd_map (Qminus 1) m) mX) = Ok s
    /\ nd_all2 Qeq s mX.
Proof.
  intros Hc.
  assert (Hc' : congruent (nd_map (Qminus 1) m) mX) by now apply congruent_map_l.
  assert (H12 : congruent (nd_zip Qmult m mX) (nd_zip Qmult (nd_map (Qminus 1) m) mX)).
  { eapply congruent_trans; [now apply congruent_zip_r|].
    apply congruent_sym. now apply congruent_zip_r. }
  eexists. split; [unfold nd_add; now rewrite nd_binop_congruent|]. split.
  - eapply congruent_trans; [now apply congruent_zip_l|now apply congruent_zip_r].
  - rewrite !flat_zip, flat_map by assumption.
    apply complement_sum. now apply congruent_flat.
Qed.

(** X6.  An [IRM] engine on a target, a residual and a mixture of one
    shape, called forward and then, on the engine as the first call left it,
    in reverse: both calls return and both compute the same mask
    [target / (eps + target + residual)]; the forward call returns the
    product [mask * mX], the reverse call the product [(1 - mask) * mX]. *)
Theorem call_IRM_forward_then_reverse
        (np_power : Q -> Q -> Q) (np_log np_exp np_cos : Q -> Q)
        (np_pinv : arr2 -> arr2) (to_float32 : Q -> Q)
        (self : FrequencyMasking) (r : ndarray)
        (Hm : _method self = "IRM")
        (Hr : _nResidual self = PyArr r)
        (Hshape : congruent (_sTarget self) r)
        (HmX : congruent (_sTarget self) (_mX self)) :
  exists m o1 o2 s1 s2,
    call np_power np_log np_exp np_cos np_pinv to_float32 false self
    = (s1, Ok (PyArr o1))
    /\ call np_power np_log np_exp np_cos np_pinv to_float32 true s1
       = (s2, Ok (PyArr o2))
    /\ _mask s1 = PyArr m /\ _mask s2 = PyArr m
    /\ m = nd_zip Qdiv (_sTarget self)
                  (nd_zip Qplus (nd_map (Qplus (_eps self)) (_sTarget self)) r)
    /\ o1 = nd_zip Qmult m (_mX self)
    /\ o2 = nd_zip Qmult (nd_map (Qminus 1) m) (_mX self).
Proof.
  assert (Hcall : forall (st : FrequencyMasking) (reverse : bool) (m : ndarray),
             _method st = "IRM" -> _mX st = _mX self ->
             IRM st = (set_mask (PyArr m) st, Ok tt) -> congruent m (_mX self) ->
             call np_power np_log np_exp np_cos np_pinv to_float32 reverse st
             = (set_Out (PyArr (nd_zip Qmult (if reverse then nd_map (Qminus 1) m else m)
                                       (_mX self)))
                        (set_mask (PyArr m) st),
                Ok (PyArr (nd_zip Qmult (if reverse then nd_map (Qminus 1) m else m)
                                  (_mX self))))).
  { intros st reverse m Hst HX HI Hc.
    unfold call at 1. unfold bind at 1. unfold get at 1. unfold id.
    rewrite Hst. cbn [String.eqb Ascii.eqb Bool.eqb].
    unfold bind at 1 2. rewrite HI.
    rewrite (apply_step_value np_power (set_mask (PyArr m) st) m reverse).
    - cbn [_mX set_mask]. rewrite HX. reflexivity.
    - cbn [_method set_mask]. rewrite Hst. discriminate.
    - reflexivity.
    - cbn [_mX set_mask]. now rewrite HX. }
  destruct (IRM_value self r Hr Hshape) as [E1 C1].
  set (m := nd_zip Qdiv (_sTarget self)
                   (nd_zip Qplus (nd_map (Qplus (_eps self)) (_sTarget self)) r)) in *.
  assert (Hc : congruent m (_mX self))
    by (eapply congruent_trans; [exact C1|exact HmX]).
  set (s1 := set_Out (PyArr (nd_zip Qmult m (_mX self))) (set_mask (PyArr m) self)).
  destruct (IRM_value s1 r Hr Hshape) as [E2 _].
  exists m, (nd_zip Qmult m (_mX self)),
         (nd_zip Qmult (nd_map (Qminus 1) m) (_mX self)),
         s1, (set_Out (PyArr (nd_zip Qmult (nd_map (Qminus 1) m) (_mX self)))
                      (set_mask (PyArr m) s1)).
  split; [exact (Hcall self false m Hm eq_refl E1 Hc)|].
  split; [exact (Hcall s1 true m Hm eq_refl E2 Hc)|].
  repeat split; reflexivity.
Qed.

Lemma call_IRM_forward_then_reverse_witness :
  exists m o1 o2 s1 s2,
    call (fun x _ => x) (fun x => x) (fun x => x) (fun x => x) (fun a => a) (fun x => x)
         false irm_engine = (s1, Ok (PyArr o1))
    /\ call (fun x _ => x) (fun x => x) (fun x => x) (fun x => x) (fun a => a) (fun x => x)
            true s1 = (s2, Ok (PyArr o2))
    /\ _mask s1 = PyArr m /\ _mask s2 = PyArr m
    /\ m = nd_zip Qdiv (Nd2 [[2; 2]; [2; 2]])
                  (nd_zip Qplus (nd_map (Qplus float_eps) (Nd2 [[2; 2]; [2; 2]]))
                          (Nd2 [[2; 2]; [2; 2]]))
    /\ o1 = nd_zip Qmult m (Nd2 [[4; 4]; [4; 4]])
    /\ o2 = nd_zip Qmult (nd_map (Qminus 1) m) (Nd2 [[4; 4]; [4; 4]]).
Proof.
  apply (call_IRM_forward_then_reverse
           (fun x _ => x) (fun x => x) (fun x => x) (fun x => x) (fun a => a)
           (fun x => x) irm_engine (Nd2 [[2; 2]; [2; 2]])).
  - reflexivity.
  - reflexivity.
  - simpl. repeat constructor.
  - simpl. repeat constructor.
Defined.

(** ** Arguments [__call__] stops on *)

(** X7.  A [Phase] engine whose target phase is a Python list, as it is
    when the engine is built without the phase arguments ([ps_target=[]]):
    the guard reads [self._pTarget.size], which a list does not have, so the
    call stops with an [AttributeError], not with the [ValueError] of the
    guard, and leaves the engine as it was. *)
Theorem call_phase_list_target_phase_raises
        (np_power : Q -> Q -> Q) (np_log np_exp np_cos : Q -> Q)
        (np_pinv : arr2 -> arr2) (to_float32 : Q -> Q)
        (self : FrequencyMasking) (reverse : bool) (l : list arr2)
        (Hm : _method self = "Phase")
        (Hp : _pTarget self = PyList l) :
  call np_power np_log np_exp np_cos np_pinv to_float32 reverse self
  = (self, Raise (AttributeError no_size_msg)).
Proof.
  unfold call, bind, get, id. rewrite Hm. cbn [String.eqb Ascii.eqb Bool.eqb].
  unfold phase_guard, bind, get, id, lift. rewrite Hp. reflexivity.
Qed.

Lemma call_phase_list_target_phase_raises_witness :
  call (fun x _ => x) (fun x => x) (fun x => x) (fun x => x) (fun a => a) (fun x => x)
       false phase_engine_defaults
  = (phase_engine_defaults, Raise (AttributeError no_size_msg)).
Proof.
  apply (call_phase_list_target_phase_raises
           (fun x _ => x) (fun x => x) (fun x => x) (fun x => x) (fun a => a)
           (fun x => x) phase_engine_defaults false []).
  - reflexivity.
  - reflexivity.
Defined.

(** X8.  The binary masks on a residual given as a Python list, with the
    exponent a Python float as [__init__] takes it: [self._nResidual **
    self._alpha] has no meaning for a list, so the call stops with a
    [TypeError] before a mask is stored. *)
Theorem call_binary_mask_list_residual_raises
        (np_power : Q -> Q -> Q) (np_log np_exp np_cos : Q -> Q)
        (np_pinv : arr2 -> arr2) (to_float32 : Q -> Q)
        (self : FrequencyMasking) (reverse : bool) (a : Q) (l : list arr2)
        (Hm : _method self = "IBM" \/ _method self = "UBBM")
        (Ha : _alpha self = Nd0 a)
        (Hr : _nResidual self = PyList l) :
  call np_power np_log np_exp np_cos np_pinv to_float32 reverse self
  = (self, Raise (TypeError operand_msg)).
Proof.
  unfold call, bind, get, id.
  destruct Hm as [Hm|Hm]; rewrite Hm; cbn [String.eqb Ascii.eqb Bool.eqb].
  - unfold IBM, bind, get, id, lift, nd_pow. rewrite Ha, Hr.
    rewrite nd_binop_scalar_r. reflexivity.
  - unfold UBBM, bind, get, id, lift, nd_pow. rewrite Ha, Hr.
    rewrite nd_binop_scalar_r. cbn [obind]. unfold nd_add.
    rewrite nd_binop_scalar_l. reflexivity.
Qed.

Lemma call_binary_mask_list_residual_raises_witness :
  call (fun x _ => x) (fun x => x) (fun x => x) (fun x => x) (fun a => a) (fun x => x)
       false (set_nResidual (PyList [[[1; 3]]]) ibm_engine)
  = (set_nResidual (PyList [[[1; 3]]]) ibm_engine, Raise (TypeError operand_msg)).
Proof.
  apply (call_binary_mask_list_residual_raises
           (fun x _ => x) (fun x => x) (fun x => x) (fun x => x) (fun a => a)
           (fun x => x) (set_nResidual (PyList [[[1; 3]]]) ibm_engine) false 1 [[[1; 3]]]).
  - left. reflexivity.
  - reflexivity.
  - reflexivity.
Defined.

(** X9.  [MWF] on 2-D spectrograms, the shape every other method takes:
    [cX.shape[2]] does not exist, so the call stops with an [IndexError]
    and the engine, its output included, is left as it was. *)
Theorem call_MWF_two_dimensional_raises
        (np_power : Q -> Q -> Q) (np_log np_exp np_cos : Q -> Q)
        (np_pinv : arr2 -> arr2) (to_float32 : Q -> Q)
        (self : FrequencyMasking) (reverse : bool)
        (a : Q) (t : arr2) (r : ndarray) (x : vec) (xs : arr2)
        (Hm : _method self = "MWF")
        (Ha : _alpha self = Nd0 a)
        (Ht : _sTarget self = Nd2 t)
        (Hr : _nResidual self = PyArr r)
        (Hx : _mX self = Nd2 (x :: xs)) :
  call np_power np_log np_exp np_cos np_pinv to_float32 reverse self
  = (self, Raise (IndexError index_msg)).
Proof.
  unfold call, bind, get, id. rewrite Hm. cbn [String.eqb Ascii.eqb Bool.eqb].
  unfold MWF, bind, get, id, lift, mwf_pass. rewrite Ha, Ht, Hr, Hx.
  rewrite nd_binop_scalar_r. cbn [obind asarray]. rewrite nd_binop_scalar_r.
  reflexivity.
Qed.

Lemma call_MWF_two_dimensional_raises_witness :
  call (fun x _ => x) (fun x => x) (fun x => x) (fun x => x) (fun a => a) (fun x => x)
       false mwf_engine_2d
  = (mwf_engine_2d, Raise (IndexError index_msg)).
Proof.
  apply (call_MWF_two_dimensional_raises
           (fun x _ => x) (fun x => x) (fun x => x) (fun x => x) (fun a => a)
           (fun x => x) mwf_engine_2d false 2 [[1; 2]] (Nd2 [[2; 5]]) [3; 4] []);
    reflexivity.
Defined.

(** ** What [__call__] changes *)

Lemma set_mask_own (self : FrequencyMasking) : self = set_mask (_mask self) self.
Proof. now destruct self. Qed.

Lemma mask_only_ret {A : Type} (a : A) : mask_only (ret a).
Proof. intros self self' o H. injection H as <- _. apply set_mask_own. Qed.

Lemma mask_only_throw {A : Type} (e : exn) : mask_only (@throw A e).
Proof. intros self self' o H. injection H as <- _. apply set_mask_own. Qed.

Lemma mask_only_get {A : Type} (field : FrequencyMasking -> A) : mask_only (get field).
Proof. intros self self' o H. injection H as <- _. apply set_mask_own. Qed.

Lemma mask_only_lift {A : Type} (c : outcome A) : mask_only (lift c).
Proof. intros self self' o H. injection H as <- _. apply set_mask_own. Qed.

Lemma mask_only_set_mask (m : pyval) : mask_only (modify (set_mask m)).
Proof. intros self self' o H. injection H as <- _. reflexivity. Qed.

Lemma mask_only_bind {A B : Type} (c : M A) (k : A -> M B) :
  mask_only c -> (forall a, mask_only (k a)) -> mask_only (bind c k).
Proof.
  intros Hc Hk self self' o H. unfold bind in H.
  destruct (c self) as [s1 [a|e]] eqn:E.
  - pose proof (Hk a _ _ _ H) as E1. pose proof (Hc _ _ _ E) as E0.
    etransitivity; [exact E1|]. rewrite E0. reflexivity.
  - injection H as <- _. exact (Hc _ _ _ E).
Qed.

Lemma mask_and_Out_only_weaken {A : Type} (c : M A) :
  mask_only c -> mask_and_Out_only c.
Proof.
  intros Hc self self' o H. pose proof (Hc _ _ _ H) as E. split.
  - assert (EO : _Out self' = _Out self) by (rewrite E; reflexivity).
    etransitivity; [exact E|]. rewrite EO. generalize (_mask self'). intros m.
    now destruct self.
  - intros _ _. rewrite E. reflexivity.
Qed.

Lemma mask_and_Out_only_set_Out (v : pyval) : mask_and_Out_only (modify (set_Out v)).
Proof.
  intros self self' o H. injection H as <- <-. split.
  - now destruct self.
  - discriminate.
Qed.

Lemma mask_and_Out_only_bind {A B : Type} (c : M A) (k : A -> M B) :
  mask_only c -> (forall a, mask_and_Out_only (k a)) -> mask_and_Out_only (bind c k).
Proof.
  intros Hc Hk self self' o H. unfold bind in H.
  destruct (c self) as [s1 [a|e]] eqn:E.
  - destruct (Hk a _ _ _ H) as [E1 E2]. pose proof (Hc _ _ _ E) as E0. split.
    + etransitivity; [exact E1|]. rewrite E0. reflexivity.
    + intros e He. rewrite (E2 e He), E0. reflexivity.
  - injection H as <- <-.
    destruct (mask_and_Out_only_weaken c Hc _ _ _ E) as [E1 E2].
    split; [exact E1|]. intros _ _. exact (E2 e eq_refl).
Qed.

Ltac mask_only :=
  repeat (intros;
          first [ apply mask_only_bind | apply mask_only_get | apply mask_only_lift
                | apply mask_only_ret | apply mask_only_throw
                | apply mask_only_set_mask
                | match goal with
                  | |- mask_only (if ?b then _ else _) => destruct b
                  end ]).

Lemma mask_only_methods (np_power : Q -> Q -> Q) (np_log np_exp np_cos : Q -> Q) :
  mask_only IRM /\ mask_only IAM /\ mask_only (IBM np_power)
  /\ mask_only (UBBM np_power np_log) /\ mask_only Wiener
  /\ mask_only (alphaHarmonizableProcess np_power)
  /\ mask_only (ExpM np_power np_log) /\ mask_only (phaseSensitive np_exp np_cos)
  /\ mask_only phase_guard.
Proof.
  repeat split;
    unfold IRM, IAM, IBM, UBBM, Wiener, alphaHarmonizableProcess, wiener_like, ExpM,
           phaseSensitive, phase_guard;
    mask_only.
Qed.

Lemma apply_step_mask_and_Out_only (np_power : Q -> Q -> Q) (reverse : bool) :
  mask_and_Out_only (apply_step np_power reverse).
Proof.
  unfold apply_step, applyMask, applyReverseMask.
  destruct reverse; cbn [negb];
    (apply mask_and_Out_only_bind; [apply mask_only_get|]); intros self;
    destruct (String.eqb (_method self) "expMask");
    first [ apply mask_and_Out_only_weaken; apply mask_only_throw
          | apply mask_and_Out_only_bind;
            [apply mask_only_lift|intros; apply mask_and_Out_only_set_Out] ].
Qed.

Lemma MWF_mask_and_Out_only (np_power : Q -> Q -> Q) (np_pinv : arr2 -> arr2)
      (to_float32 : Q -> Q) :
  mask_and_Out_only (MWF np_power np_pinv to_float32).
Proof.
  unfold MWF.
  apply mask_and_Out_only_bind; [apply mask_only_get|]. intros self.
  apply mask_and_Out_only_bind; [apply mask_only_lift|]. intros st.
  apply mask_and_Out_only_set_Out.
Qed.

(** X10.  Whatever the method and the arguments, [__call__] changes no
    attribute of the engine but [_mask] and [_Out].  When it returns, the
    value is the [_Out] it leaves; when it raises, [_Out] is what it was
    before the call (the mask may have been replaced already). *)
Theorem call_changes_mask_and_Out_only
        (np_power : Q -> Q -> Q) (np_log np_exp np_cos : Q -> Q)
        (np_pinv : arr2 -> arr2) (to_float32 : Q -> Q)
        (self : FrequencyMasking) (reverse : bool) :
  let (self', o) := call np_power np_log np_exp np_cos np_pinv to_float32 reverse self in
  self' = set_Out (_Out self') (set_mask (_mask self') self)
  /\ match o with
     | Ok v => v = _Out self'
     | Raise _ => _Out self' = _Out self
     end.
Proof.
  destruct (mask_only_methods np_power np_log np_exp np_cos)
    as (HIRM & HIAM & HIBM & HUBBM & HW & HaW & HExp & HPh & Hguard).
  pose proof (apply_step_mask_and_Out_only np_power reverse) as Hstep.
  assert (Hthen : forall c : M unit, mask_only c ->
                    mask_and_Out_only (bind c (fun _ => apply_step np_power reverse))).
  { intros c Hc. apply mask_and_Out_only_bind; [exact Hc|intros _; exact Hstep]. }
  assert (Hbranch : forall s s' (o : outcome unit) (c : M unit),
             mask_and_Out_only c -> c s = (s', o) ->
             let (self', o) := bind c (fun _ => get _Out) s in
             self' = set_Out (_Out self') (set_mask (_mask self') s)
             /\ match o with
                | Ok v => v = _Out self'
                | Raise _ => _Out self' = _Out s
                end).
  { intros s s' o c Hc E. unfold bind, get. rewrite E.
    destruct (Hc _ _ _ E) as [E1 E2]. destruct o as [[]|e].
    - split; [exact E1|reflexivity].
    - split; [exact E1|exact (E2 e eq_refl)]. }
  unfold call. unfold bind at 1. unfold get at 1. unfold id.
  match goal with
  | |- context [bind ?c (fun _ => get _Out) self] =>
      destruct (c self) as [s' o] eqn:E; apply (Hbranch self s' o c); [|exact E]
  end.
  clear E Hbranch.
  repeat match goal with
         | |- mask_and_Out_only (if ?b then _ else _) => destruct b
         end;
    try (apply Hthen; assumption).
  - apply mask_and_Out_only_bind; [exact Hguard|]. intros [|].
    + apply mask_and_Out_only_weaken, mask_only_throw.
    + apply Hthen. exact HPh.
  - apply MWF_mask_and_Out_only.
  - apply mask_and_Out_only_weaken, mask_only_ret.
Qed.

(** ** Invariants of the optimizer's loop *)

Lemma rint_between (lo hi : Z) (x : Q) :
  inject_Z lo <= x -> x <= inject_Z hi -> (lo <= rint x <= hi)%Z.
Proof.
  intros Hlo Hhi. unfold rint.
  pose proof (Qfloor_le x) as Hf.
  assert (Lf : (lo <= Qfloor x)%Z).
  { rewrite <- (Qfloor_Z lo). now apply Qfloor_resp_le. }
  assert (Uf : (Qfloor x <= hi)%Z).
  { rewrite <- (Qfloor_Z hi). now apply Qfloor_resp_le. }
  destruct (Qcompare (x - inject_Z (Qfloor x)) (1 # 2)) eqn:E.
  - destruct (Z.even (Qfloor x)); [lia|].
    destruct (Z.eq_dec (Qfloor x) hi) as [Eq|Ne]; [|lia].
    apply Qeq_alt in E. rewrite Eq in E. lra.
  - lia.
  - destruct (Z.eq_dec (Qfloor x) hi) as [Eq|Ne]; [|lia].
    apply Qgt_alt in E. rewrite Eq in E. lra.
Qed.

Lemma clip_between (a_min a_max x : Q) :
  a_min <= a_max -> a_min <= clip a_min a_max x /\ clip a_min a_max x <= a_max.
Proof.
  intros H. unfold clip. split.
  - apply Q.min_glb; [exact H|apply Q.le_max_r].
  - apply Q.le_min_l.
Qed.

Lemma stabilize_on_grid (a : vec) :
  Forall (fun x => exists k : Z, (50 <= k <= 200)%Z /\ x = inject_Z k / 100)
         (stabilize a).
Proof.
  unfold stabilize. rewrite map_map. apply Forall_forall. intros y Hy.
  apply in_map_iff in Hy. destruct Hy as (x & <- & _).
  exists (rint (clip (1 # 2) 2 x * 100)). split; [|reflexivity].
  destruct (clip_between (1 # 2) 2 x) as [L U]; [discriminate|].
  apply rint_between.
  - change (inject_Z 50) with 50. lra.
  - change (inject_Z 200) with 200. lra.
Qed.

Section OptAlphaInvariants.

Variable np_power : Q -> Q -> Q.
Variable np_log : Q -> Q.
Variable self : FrequencyMasking.
Variable s_list : list arr2.

(** The state a run ends in comes out of one iteration, entered with one
    exponent and one learning rate per source. *)
Lemma opt_loop_last_inv (indices : list nat) (st st' : opt_state) :
  opt_loop np_power np_log self s_list indices st = Ok st' ->
  indices <> [] -> opt_inv s_list st ->
  exists i prev,
    In i indices /\ opt_inv s_list prev
    /\ opt_body np_power np_log self s_list i prev = Ok st'.
Proof.
  revert st. induction indices as [|i rest IH]; intros st H Hne Hinv; [congruence|].
  cbn [opt_loop] in H.
  destruct (opt_body np_power np_log self s_list i st) as [st1|e] eqn:E1;
    [|discriminate H].
  cbn [obind] in H.
  destruct (exit st1) eqn:Ex.
  - destruct rest as [|j rest'].
    + cbn in H. inversion H; subst. exists i, st. repeat split; auto; try apply Hinv.
      now left.
    + destruct (IH st1 H) as (k & prev & Hin & Hp & Hb); [discriminate| |].
      * exact (opt_body_keeps_inv _ _ _ _ _ _ _ Hinv E1 Ex).
      * exists k, prev. repeat split; auto; try apply Hp. now right.
  - inversion H; subst. exists i, st. repeat split; auto; try apply Hinv. now left.
  - inversion H; subst. exists i, st. repeat split; auto; try apply Hinv. now left.
Qed.

(** Every iteration appends one loss. *)
Lemma opt_body_losses (idx : nat) (st st' : opt_state) :
  opt_body np_power np_log self s_list idx st = Ok st' ->
  length (i_s_loss st') = S (length (i_s_loss st)).
Proof.
  intros Hb.
  destruct (opt_body_inv _ _ _ _ _ _ _ Hb) as (dis & loss & _ & _ & _ & _ & _ & Hex).
  destruct (exit st'); destruct Hex as (_ & Hl & _); rewrite Hl;
    unfold set_last; rewrite ?length_set_nth, length_app; simpl length; lia.
Qed.

Lemma opt_loop_counts (n k : nat) (st st' : opt_state) :
  opt_loop np_power np_log self s_list (seq k n) st = Ok st' ->
  (0 < n)%nat -> length (i_s_loss st) = k ->
  exists idx, iter_index st' = Some idx /\ length (i_s_loss st') = S idx
              /\ (k <= idx < k + n)%nat
              /\ (exit st' = GoOn -> idx = (k + n - 1)%nat)
              /\ (exit st' <> GoOn -> (5 <= idx)%nat).
Proof.
  revert k st. induction n as [|n IH]; intros k st H Hn Hk; [lia|].
  cbn [seq opt_loop] in H.
  destruct (opt_body np_power np_log self s_list k st) as [st1|e] eqn:E1;
    [|discriminate H].
  cbn [obind] in H.
  pose proof (opt_body_losses _ _ _ E1) as L1.
  destruct (opt_body_inv _ _ _ _ _ _ _ E1) as (dis & loss & _ & _ & _ & _ & Hi & Hex).
  destruct (exit st1) eqn:Ex.
  - destruct n as [|n'].
    + cbn in H. inversion H; subst st'. exists k.
      split; [exact Hi|]. split; [lia|]. split; [lia|]. split; [intros _; lia|].
      intros Hne. congruence.
    + destruct (IH (S k) st1 H) as (idx & Hidx & Hlen & Hr & Hg & Hb); [lia|lia|].
      exists idx. split; [exact Hidx|]. split; [exact Hlen|]. split; [lia|].
      split; [intros Hx; rewrite (Hg Hx); lia|exact Hb].
  - inversion H; subst st'. exists k.
    split; [exact Hi|]. split; [lia|]. split; [lia|].
    split; [intros Hx; congruence|]. intros _. destruct Hex as (_ & _ & H4 & _). lia.
  - inversion H; subst st'. exists k.
    split; [exact Hi|]. split; [lia|]. split; [lia|].
    split; [intros Hx; congruence|]. intros _. destruct Hex as (_ & _ & H4 & _). lia.
Qed.

(** All sources share one learning rate. *)
Lemma rprop_repeat (eta_plus eta_minus c : Q) (l : list Q) (n : nat) :
  exists c', rprop eta_plus eta_minus l (repeat c n) = repeat c' n.
Proof.
  unfold rprop.
  destruct (Qlt_le_dec 0 _), (Qlt_le_dec _ 0); rewrite ?map_repeat; eauto.
Qed.

Lemma opt_body_common_rate (idx : nat) (st st' : opt_state) (c : Q) (n : nat) :
  opt_body np_power np_log self s_list idx st = Ok st' ->
  lrs st = repeat c n ->
  exists c', lrs st' = repeat c' n.
Proof.
  unfold opt_body. intros H Hc.
  destruct (_dIS np_power self _) as [dis|e]; [|discriminate H].
  cbn [obind] in H. unfold alloc in H.
  destruct (_IS np_power np_log self _) as [loss|e]; [|discriminate H].
  cbn [obind] in H. rewrite Hc in H.
  destruct (rprop_repeat (_eta_plus self) (_eta_minus self) c
                         (i_s_loss st ++ [loss])%list n) as [c' Hc'].
  rewrite Hc' in H.
  destruct (2 <? idx)%nat.
  - destruct ((4 <? idx)%nat && stagnated _).
    + destruct (stuck _).
      * destruct (py_index _ _); [|discriminate H].
        inversion H; subst. cbn. eauto.
      * inversion H; subst. cbn. eauto.
    + inversion H; subst. cbn. eauto.
  - inversion H; subst. cbn. eauto.
Qed.

Lemma opt_loop_common_rate (indices : list nat) (st st' : opt_state) (c : Q) (n : nat) :
  opt_loop np_power np_log self s_list indices st = Ok st' ->
  lrs st = repeat c n ->
  exists c', lrs st' = repeat c' n.
Proof.
  revert st c. induction indices as [|i rest IH]; intros st c H Hc.
  - cbn in H. inversion H; subst. eauto.
  - cbn [opt_loop] in H.
    destruct (opt_body np_power np_log self s_list i st) as [st1|e] eqn:E1;
      [|discriminate H].
    cbn [obind] in H.
    destruct (opt_body_common_rate _ _ _ _ _ E1 Hc) as [c1 Hc1].
    destruct (exit st1); [exact (IH st1 c1 H Hc1)| |]; inversion H; subst; eauto.
Qed.

End OptAlphaInvariants.

(** X11.  When the loop of [optAlpha] ends in any way but 'Stuck...', the
    exponents written to [_alpha] are the clipped and rounded iterate of the
    last iteration: one per source, each of the form [k / 100] with [k] an
    integer between 50 and 200, that is, within [0.5, 2] on the 0.01 grid. *)
Theorem optAlpha_commits_clipped_rounded_exponents
        (np_power : Q -> Q -> Q) (np_log : Q -> Q)
        (self : FrequencyMasking) (s_list : list arr2) (st : opt_state)
        (initloss : Q)
        (Hiter : (0 < _iterations self)%nat)
        (Hsources : stack_sources self = Ok s_list)
        (Hrun : opt_run np_power np_log self s_list = Ok st)
        (Hexit : exit st <> Stuck) :
  exists self' a,
    optAlpha np_power np_log initloss self = (self', Ok tt)
    /\ _alpha self' = Nd1 a
    /\ length a = length s_list
    /\ Forall (fun x => exists k : Z, (50 <= k <= 200)%Z /\ x = inject_Z k / 100) a.
Proof.
  destruct (opt_run_index_below _ _ _ _ _ Hrun Hiter) as (idx & Hi & Hlt & _).
  pose proof Hrun as Hrun'. unfold opt_run in Hrun'.
  destruct (opt_loop_last_inv _ _ _ _ _ _ _ Hrun') as (i & prev & _ & [Ha Hl] & Hb).
  { destruct (_iterations self); [lia|discriminate]. }
  { apply opt_init_inv. }
  destruct (opt_body_inv _ _ _ _ _ _ _ Hb) as (dis & loss & _ & _ & Hh & _ & _ & Hex).
  assert (Hr : alpha st = length (heap prev)).
  { destruct (exit st); [apply Hex|apply Hex|congruence]. }
  assert (Hd : deref (heap st) (alpha st)
               = stabilize (gradient_step (deref (heap prev) (alpha prev)) (lrs prev)
                              (loss_derivatives np_power np_log (_eps self) dis s_list
                                 (deref (heap prev) (alpha prev))))).
  { rewrite Hh, Hr.
    replace (length (heap prev)) with (length (update (heap prev) (alpha prev)
      (gradient_step (deref (heap prev) (alpha prev)) (lrs prev)
         (loss_derivatives np_power np_log (_eps self) dis s_list
            (deref (heap prev) (alpha prev))))))
      by apply length_set_nth.
    apply deref_alloc. }
  eexists. exists (deref (heap st) (alpha st)).
  split; [eapply optAlpha_after_run; eauto|].
  split; [reflexivity|]. rewrite Hd. split.
  - now apply next_iterate_length.
  - apply stabilize_on_grid.
Qed.

Lemma optAlpha_commits_clipped_rounded_exponents_witness :
  exists self' a,
    optAlpha stuck_power stuck_log 0 (set_iterations 1 stuck_engine) = (self', Ok tt)
    /\ _alpha self' = Nd1 a
    /\ length a = 2%nat
    /\ Forall (fun x => exists k : Z, (50 <= k <= 200)%Z /\ x = inject_Z k / 100) a.
Proof.
  assert (S : match opt_run stuck_power stuck_log (set_iterations 1 stuck_engine)
                            stuck_sources with
              | Ok st => Some (exit st)
              | Raise _ => None
              end = Some GoOn)
    by (vm_compute; reflexivity).
  destruct (opt_run stuck_power stuck_log (set_iterations 1 stuck_engine) stuck_sources)
    as [st|e] eqn:Hrun; [|discriminate S].
  injection S as Hexit.
  apply (optAlpha_commits_clipped_rounded_exponents
           stuck_power stuck_log (set_iterations 1 stuck_engine) stuck_sources st 0
           (Nat.lt_0_succ 0) eq_refl Hrun).
  rewrite Hexit. discriminate.
Defined.

(** X12.  The learning rates of the sources are never told apart: the loop
    starts with [self._lr] for every source and scales the whole array by
    [eta_plus] or [eta_minus], so at the end of a run, as after every
    iteration, all sources have one common learning rate. *)
Theorem optAlpha_one_learning_rate
        (np_power : Q -> Q -> Q) (np_log : Q -> Q)
        (self : FrequencyMasking) (s_list : list arr2) (st : opt_state)
        (Hrun : opt_run np_power np_log self s_list = Ok st) :
  exists c, lrs st = repeat c (length s_list).
Proof.
  unfold opt_run in Hrun.
  exact (opt_loop_common_rate _ _ _ _ _ _ _ (_lr self) (length s_list) Hrun eq_refl).
Qed.

Lemma optAlpha_one_learning_rate_witness :
  exists st,
    opt_run stuck_power stuck_log (set_iterations 4 stuck_engine) stuck_sources = Ok st
    /\ exists c, lrs st = repeat c 2.
Proof.
  assert (S : match opt_run stuck_power stuck_log (set_iterations 4 stuck_engine)
                            stuck_sources with
              | Ok st => Some (exit st)
              | Raise _ => None
              end = Some GoOn)
    by (vm_compute; reflexivity).
  destruct (opt_run stuck_power stuck_log (set_iterations 4 stuck_engine) stuck_sources)
    as [st|e] eqn:Hrun; [|discriminate S].
  exists st. split; [reflexivity|].
  exact (optAlpha_one_learning_rate
           stuck_power stuck_log (set_iterations 4 stuck_engine) stuck_sources st Hrun).
Defined.

(** X13.  Once the loop of [optAlpha] has run, [optAlpha] returns, and
    [_amount_iter] holds the index of the last iteration executed: one less
    than the number of iterations run (of losses recorded), below
    [self._iterations], and at least 5 when the loop was left through a
    [break], which no run takes before its sixth iteration. *)
Theorem optAlpha_amount_iter_is_last_index
        (np_power : Q -> Q -> Q) (np_log : Q -> Q)
        (self : FrequencyMasking) (s_list : list arr2) (st : opt_state)
        (initloss : Q)
        (Hiter : (0 < _iterations self)%nat)
        (Hsources : stack_sources self = Ok s_list)
        (Hrun : opt_run np_power np_log self s_list = Ok st) :
  exists self',
    optAlpha np_power np_log initloss self = (self', Ok tt)
    /\ S (_amount_iter self') = length (i_s_loss st)
    /\ (_amount_iter self' < _iterations self)%nat
    /\ (exit st = GoOn -> _amount_iter self' = (_iterations self - 1)%nat)
    /\ (exit st <> GoOn -> (5 <= _amount_iter self')%nat).
Proof.
  pose proof Hrun as Hrun'. unfold opt_run in Hrun'.
  destruct (opt_loop_counts _ _ _ _ _ _ _ _ Hrun' Hiter eq_refl)
    as (idx & Hi & Hlen & Hr & Hg & Hb).
  eexists. split; [eapply optAlpha_after_run; eauto; lia|].
  cbn [_amount_iter set_mask commit].
  split; [now rewrite Hlen|]. split; [lia|]. split; [|exact Hb].
  intros Hx. rewrite (Hg Hx). lia.
Qed.

Lemma optAlpha_amount_iter_is_last_index_witness :
  exists st self',
    opt_run stuck_power stuck_log (set_iterations 3 stuck_engine) stuck_sources = Ok st
    /\ optAlpha stuck_power stuck_log 0 (set_iterations 3 stuck_engine) = (self', Ok tt)
    /\ S (_amount_iter self') = length (i_s_loss st)
    /\ (_amount_iter self' < 3)%nat
    /\ (exit st = GoOn -> _amount_iter self' = 2%nat)
    /\ (exit st <> GoOn -> (5 <= _amount_iter self')%nat).
Proof.
  assert (S : match opt_run stuck_power stuck_log (set_iterations 3 stuck_engine)
                            stuck_sources with
              | Ok st => Some (exit st)
              | Raise _ => None
              end = Some GoOn)
    by (vm_compute; reflexivity).
  destruct (opt_run stuck_power stuck_log (set_iterations 3 stuck_engine) stuck_sources)
    as [st|e] eqn:Hrun; [|discriminate S].
  exists st.
  destruct (optAlpha_amount_iter_is_last_index
              stuck_power stuck_log (set_iterations 3 stuck_engine) stuck_sources st 0
              (Nat.lt_0_succ 2) eq_refl Hrun) as (self' & H).
  exists self'. split; [reflexivity|exact H].
Defined.

(** X14.  With [self._iterations] set to 0 the loop body never runs and
    [iter_index] is never bound: on sources that stack into one array,
    [optAlpha] stops at line 337 with a [NameError] and leaves the engine as
    it was. *)
Theorem optAlpha_without_iterations_raises
        (np_power : Q -> Q -> Q) (np_log : Q -> Q)
        (self : FrequencyMasking) (t : arr2) (l : list arr2) (initloss : Q)
        (Hiter : _iterations self = 0%nat)
        (Ht : _sTarget self = Nd2 t)
        (Hr : _nResidual self = PyList l)
        (Hshape : all_same_shape (t :: l) = true) :
  optAlpha np_power np_log initloss self = (self, Raise (NameError iter_index_msg)).
Proof.
  unfold optAlpha, stack_sources. rewrite Ht, Hr. cbn [obind]. rewrite Hshape.
  unfold opt_run. rewrite Hiter. reflexivity.
Qed.

Lemma optAlpha_without_iterations_raises_witness :
  optAlpha stuck_power stuck_log 0 (set_iterations 0 stuck_engine)
  = (set_iterations 0 stuck_engine, Raise (NameError iter_index_msg)).
Proof.
  apply (optAlpha_without_iterations_raises
           stuck_power stuck_log (set_iterations 0 stuck_engine) [[1 # 4]] [[[1]]] 0);
    reflexivity.
Defined.

(** ** The Wiener mask with the residual given as one 2-D array *)

Lemma nd_binop_row_matrix (f : Q -> Q -> Q) (v : vec) (a : arr2) :
  Forall (fun row => length row = length v) a ->
  nd_binop f (Nd1 v) (Nd2 a) = Ok (Nd2 (map (fun row => map2 f v row) a)).
Proof.
  intros H. unfold nd_binop. cbn [lift3 rank Nat.max].
  unfold bc3. unfold bcast_axis at 1. cbn [length Nat.eqb zipM].
  fold (bc2 f). unfold bc2.
  rewrite (bcast_axis_one_l (bc1 f) (fun row => map2 f v row)); [reflexivity|].
  eapply Forall_impl; [|exact H]. intros row Hrow. now apply bc1_same.
Qed.

Lemma nd_binop_matrix_row (f : Q -> Q -> Q) (a : arr2) (v : vec) :
  Forall (fun row => length row = length v) a ->
  nd_binop f (Nd2 a) (Nd1 v) = Ok (Nd2 (map (fun row => map2 f row v) a)).
Proof.
  intros H. unfold nd_binop. cbn [lift3 rank Nat.max].
  unfold bc3. unfold bcast_axis at 1. cbn [length Nat.eqb zipM].
  fold (bc2 f). unfold bc2.
  rewrite (bcast_axis_one_r (bc1 f) (fun row => map2 f row v)); [reflexivity|].
  eapply Forall_impl; [|exact H]. intros row Hrow. now apply bc1_same.
Qed.

Lemma add_row_squares (r : arr2) (T : nat) (indices : list nat) (acc : arr2) :
  Forall (fun row => length row = T) r ->
  Forall (fun row => length row = T) acc ->
  Forall (fun i => (i < length r)%nat) indices ->
  add_components (fun x => Ok (nd_square x)) (PyArr (Nd2 r)) indices (Nd2 acc)
  = Ok (Nd2 (fold_left
               (fun A row => map (fun arow => map2 Qplus arow (map (fun v => v ^ 2) row)) A)
               (map (fun i => nth i r []) indices) acc)).
Proof.
  intros Hr Hacc Hi. revert acc Hacc.
  induction Hi as [|i indices Hlt _ IH]; intros acc Hacc; [reflexivity|].
  destruct (nth_error r i) as [row|] eqn:Er; [|apply nth_error_None in Er; lia].
  assert (Hrow : length row = T).
  { rewrite Forall_forall in Hr. apply Hr. eapply nth_error_In. exact Er. }
  cbn [add_components py_item]. rewrite Er. cbn [obind nd_square nd_map].
  unfold nd_iadd, nd_add.
  rewrite nd_binop_matrix_row
    by (eapply Forall_impl; [|exact Hacc]; intros a Ha; rewrite length_map; congruence).
  cbn [obind].
  assert (Hacc' : Forall (fun a => length a = T)
                         (map (fun arow => map2 Qplus arow (map (fun v => v ^ 2) row)) acc)).
  { apply Forall_forall. intros a Ha. apply in_map_iff in Ha.
    destruct Ha as (a0 & <- & Hin). rewrite Forall_forall in Hacc.
    rewrite map2_length_same; [now apply Hacc|].
    rewrite length_map. rewrite (Hacc a0 Hin). congruence. }
  assert (Hs : shape_eqb (shape (Nd2 (map (fun arow => map2 Qplus arow
                                               (map (fun v => v ^ 2) row)) acc)))
                         (shape (Nd2 acc)) = true).
  { unfold shape_eqb. destruct (list_eq_dec Nat.eq_dec _ _) as [_|N]; [reflexivity|].
    elim N. cbn [shape]. rewrite length_map. f_equal. f_equal.
    destruct acc as [|a0 acc0]; [reflexivity|]. cbn [map hd].
    inversion Hacc; subst.
    rewrite map2_length_same; [reflexivity|]. rewrite length_map. congruence. }
  rewrite Hs. cbn [obind]. rewrite (IH _ Hacc'). cbn [map fold_left].
  now rewrite (nth_error_nth _ _ _ Er).
Qed.

Lemma map_nth_seq {A : Type} (d : A) (l : list A) :
  map (fun i => nth i l d) (seq 0 (length l)) = l.
Proof.
  induction l as [|x l IH]; [reflexivity|].
  cbn [length seq map nth]. f_equal.
  rewrite <- seq_shift, map_map. exact IH.
Qed.

Lemma fold_rows_map {A B : Type} (g : B -> A -> A) (rows : list B) (M : list A) :
  fold_left (fun M' row => map (g row) M') rows M
  = map (fun a => fold_left (fun a' row => g row a') rows a) M.
Proof.
  revert M. induction rows as [|row rows IH]; intros M; cbn [fold_left].
  - now rewrite map_id.
  - rewrite IH, map_map. reflexivity.
Qed.

Lemma map2_Qplus_Qeq (a a' b b' : vec) :
  Forall2 Qeq a a' -> Forall2 Qeq b b' ->
  Forall2 Qeq (map2 Qplus a b) (map2 Qplus a' b').
Proof.
  intros Ha. revert b b'.
  induction Ha as [|x x' a a' Hx _ IH]; intros b b' Hb; [constructor|].
  destruct Hb as [|y y' b b' Hy Hb]; cbn [map2]; constructor.
  - now rewrite Hx, Hy.
  - now apply IH.
Qed.

Lemma fold_rows_shift_step (a u b s : vec) :
  length a = length u -> length b = length u -> length s = length u ->
  Forall2 Qeq a (map2 Qplus u b) ->
  Forall2 Qeq (map2 Qplus a s) (map2 Qplus u (map2 Qplus b s)).
Proof.
  revert u b s.
  induction a as [|x a IH]; intros [|y u] [|z b] [|w s] Ha Hb Hs Hab;
    simpl in *; try discriminate; constructor.
  - inversion Hab; subst. lra.
  - apply IH; try lia. now inversion Hab.
Qed.

(** Adding the squared rows one after the other onto [u + b] gives [u] plus
    what adding them onto [b] gives. *)
Lemma fold_rows_shift (T : nat) (rows : arr2) (u a b : vec) :
  Forall (fun row => length row = T) rows ->
  length u = T -> length a = T -> length b = T ->
  Forall2 Qeq a (map2 Qplus u b) ->
  Forall2 Qeq
    (fold_left (fun a' row => map2 Qplus a' (map (fun v => v ^ 2) row)) rows a)
    (map2 Qplus u
          (fold_left (fun a' row => map2 Qplus a' (map (fun v => v ^ 2) row)) rows b)).
Proof.
  intros Hrows Hu. revert a b.
  induction Hrows as [|row rows Hrow _ IH]; intros a b Ha Hb Hab; cbn [fold_left];
    [exact Hab|].
  assert (Hs : length (map (fun v : Q => v ^ 2) row) = T) by now rewrite length_map.
  apply IH.
  - rewrite map2_length_same; congruence.
  - rewrite map2_length_same; congruence.
  - apply fold_rows_shift_step; congruence.
Qed.

Lemma map2_ext_Forall2 (f g : Q -> Q -> Q) (xs ys ys' : vec) :
  Forall2 (fun y y' => forall x, f x y == g x y') ys ys' ->
  length xs = length ys ->
  Forall2 Qeq (map2 f xs ys) (map2 g xs ys').
Proof.
  intros H. revert xs.
  induction H as [|y y' ys ys' Hy _ IH]; intros [|x xs] Hlen; simpl in *;
    try discriminate; constructor.
  - apply Hy.
  - apply IH. now inversion Hlen.
Qed.

Lemma Wiener_row_Qeq (eps : Q) (trow a c : vec) :
  Forall2 Qeq a (map2 Qplus (map (fun v => v ^ 2) trow) c) ->
  Forall2 Qeq
    (map2 Qdiv (map (fun x => x + eps) (map (fun v => v ^ 2) trow)) (map (Qplus eps) a))
    (map2 (fun x c => (x ^ 2 + eps) / (eps + (x ^ 2 + c))) trow c).
Proof.
  revert a c. induction trow as [|x trow IH]; intros a c H; [constructor|].
  destruct c as [|z c]; cbn [map map2] in *; [inversion H; constructor|].
  inversion H as [|? ? ? ? Hx Hrest]; subst. cbn [map map2]. constructor.
  - now rewrite Hx.
  - now apply IH.
Qed.

(** X15.  [Wiener] on a residual given as one 2-D array, as the docstring
    describes it, of the width of the target: [len(self._nResidual)] counts
    the rows of that array and [self._nResidual[indx]] is one row, which
    numpy repeats along the rows of the target.  The mask at row [i], column
    [j] is therefore [(t^2 + eps) / (eps + t^2 + c)] with [t] the target
    there and [c] the sum of the squares of the whole column [j] of the
    residual: the residual of every frequency row enters every row of the
    mask. *)
Theorem Wiener_array_residual_sums_columns
        (self : FrequencyMasking) (t r : arr2) (T : nat)
        (Ht : _sTarget self = Nd2 t)
        (Hr : _nResidual self = PyArr (Nd2 r))
        (Hne : r <> [])
        (HtT : Forall (fun row => length row = T) t)
        (HrT : Forall (fun row => length row = T) r) :
  exists m,
    Wiener self = (set_mask (PyArr (Nd2 m)) self, Ok tt)
    /\ Forall2 (Forall2 Qeq) m
         (map (fun trow =>
                 map2 (fun x c => (x ^ 2 + _eps self) / (_eps self + (x ^ 2 + c)))
                      trow (column_energy T r)) t).
Proof.
  destruct r as [|r0 rest]; [congruence|]. clear Hne.
  assert (Hr0 : length r0 = T) by now inversion HrT.
  assert (Hrest : Forall (fun row => length row = T) rest) by now inversion HrT.
  set (sq := fun v : Q => v ^ 2).
  set (g := fun (row a : vec) => map2 Qplus a (map sq row)).
  set (start := map (fun trow => map2 Qplus (map sq r0) (map sq trow)) t).
  assert (Hstart : Forall (fun row => length row = T) start).
  { apply Forall_forall. intros a Ha. apply in_map_iff in Ha.
    destruct Ha as (trow & <- & Hin). rewrite Forall_forall in HtT.
    rewrite map2_length_same; rewrite !length_map; [exact Hr0|].
    rewrite (HtT trow Hin). exact Hr0. }
  set (acc := map (fun trow => fold_left (fun a' row => g row a') rest
                                         (map2 Qplus (map sq r0) (map sq trow))) t).
  assert (Eacc : (if (1 <? length (r0 :: rest))%nat
                  then add_components (fun x => Ok (nd_square x)) (PyArr (Nd2 (r0 :: rest)))
                                      (seq 1 (length (r0 :: rest) - 1)) (Nd2 start)
                  else Ok (Nd2 start)) = Ok (Nd2 acc)).
  { assert (Efold : fold_left (fun A row => map (g row) A) rest start = acc).
    { rewrite fold_rows_map. unfold start. rewrite map_map. reflexivity. }
    destruct (1 <? length (r0 :: rest))%nat eqn:E1.
    - rewrite (add_row_squares (r0 :: rest) T); try assumption.
      + cbn [length]. rewrite Nat.sub_succ, Nat.sub_0_r.
        rewrite <- seq_shift, map_map. cbn [nth]. rewrite map_nth_seq.
        fold sq. now rewrite <- Efold.
      + apply Forall_forall. intros i Hi. apply in_seq in Hi. simpl in *. lia.
    - apply Nat.ltb_ge in E1. destruct rest as [|? ?]; [|simpl in E1; lia].
      reflexivity. }
  set (n := map (map (fun x => x + _eps self)) (map (map sq) t)).
  set (d := map (map (Qplus (_eps self))) acc).
  assert (Hnd : congruent (Nd2 n) (Nd2 d)).
  { unfold n, d, acc. cbn [congruent]. rewrite !map_map.
    clear - HtT Hr0 Hrest. induction HtT as [|trow t Htrow _ IH]; cbn [map];
      constructor; [|exact IH].
    rewrite !length_map.
    assert (L : forall rows (a : vec),
               Forall (fun row => length row = T) rows -> length a = T ->
               length (fold_left (fun a' row => g row a') rows a) = T).
    { intros rows a Hrows. revert a.
      induction Hrows as [|row rows Hrow _ IHr]; intros a Ha; cbn [fold_left];
        [exact Ha|].
      apply IHr. unfold g. rewrite map2_length_same; rewrite ?length_map; congruence. }
    rewrite L; [exact Htrow|exact Hrest|].
    rewrite map2_length_same; rewrite !length_map; congruence. }
  exists (map2 (map2 Qdiv) n d). split.
  - unfold Wiener, wiener_like, bind, get, id, lift, modify. rewrite Ht, Hr.
    cbn [nd_square nd_map obind py_len py_item nth_error].
    fold sq. unfold nd_add at 1.
    rewrite nd_binop_row_matrix
      by (apply Forall_forall; intros a Ha; apply in_map_iff in Ha;
          destruct Ha as (trow & <- & Hin); rewrite Forall_forall in HtT;
          rewrite !length_map, (HtT trow Hin); congruence).
    rewrite map_map. cbn [obind]. fold start.
    change (Nd2 (map (map sq) t)) with (nd_square (Nd2 t)) in *.
    rewrite Eacc. cbn [obind].
    unfold nd_add, nd_div. rewrite nd_binop_scalar_r, nd_binop_scalar_l.
    cbn [obind nd_map nd_square]. fold sq. fold n. fold d.
    now rewrite (nd_binop_congruent Qdiv (Nd2 n) (Nd2 d) Hnd).
  - unfold n, d, acc. rewrite !map_map.
    clear - HtT Hr0 Hrest.
    induction HtT as [|trow t Htrow _ IH]; cbn [map map2]; constructor; [|exact IH].
    apply Wiener_row_Qeq. unfold column_energy. cbn [fold_left].
    apply (fold_rows_shift T); try assumption.
    + now rewrite length_map.
    + rewrite map2_length_same; rewrite !length_map; congruence.
    + rewrite map2_length_same; rewrite ?length_map, ?repeat_length; congruence.
    + rewrite <- Hr0 in Htrow |- *. clear - Htrow.
      revert trow Htrow. induction r0 as [|y r0 IHr]; intros [|x trow] Htrow;
        simpl in *; try discriminate; constructor.
      * unfold sq. ring.
      * apply IHr. now inversion Htrow.
Qed.

Lemma Wiener_array_residual_sums_columns_witness :
  exists m,
    Wiener wiener_engine_array = (set_mask (PyArr (Nd2 m)) wiener_engine_array, Ok tt)
    /\ Forall2 (Forall2 Qeq) m
         (map (fun trow =>
                 map2 (fun x c => (x ^ 2 + float_eps) / (float_eps + (x ^ 2 + c)))
                      trow (column_energy 2 [[2; 0]; [1; 5]])) [[1; 2]; [3; 4]]).
Proof.
  apply (Wiener_array_residual_sums_columns
           wiener_engine_array [[1; 2]; [3; 4]] [[2; 0]; [1; 5]] 2).
  - reflexivity.
  - reflexivity.
  - discriminate.
  - repeat constructor.
  - repeat constructor.
Defined.

(** ** A forward call followed by a reverse call, for every multiplicative mask *)

Lemma computes_mask_lift (g : FrequencyMasking -> outcome ndarray) :
  (forall self m o, g (set_Out o (set_mask m self)) = g self) ->
  computes_mask (bind (get id)
                      (fun self => bind (lift (g self))
                                        (fun m => modify (set_mask (PyArr m)))))
                g.
Proof.
  intros Hg. split; [|exact Hg].
  intros self. unfold bind, get, id, lift, modify. now destruct (g self).
Qed.

Lemma mask_methods_compute (np_power : Q -> Q -> Q) (np_log np_exp np_cos : Q -> Q) :
  (exists f, computes_mask IRM f)
  /\ (exists f, computes_mask IAM f)
  /\ (exists f, computes_mask (IBM np_power) f)
  /\ (exists f, computes_mask (UBBM np_power np_log) f)
  /\ (exists f, computes_mask Wiener f)
  /\ (exists f, computes_mask (alphaHarmonizableProcess np_power) f)
  /\ (exists f, computes_mask (phaseSensitive np_exp np_cos) f).
Proof.
  repeat split.
  - eexists. unfold IRM. apply computes_mask_lift. reflexivity.
  - eexists. unfold IAM. apply computes_mask_lift. reflexivity.
  - eexists. unfold IBM. apply computes_mask_lift. reflexivity.
  - eexists. unfold UBBM. apply computes_mask_lift. reflexivity.
  - eexists. unfold Wiener, wiener_like. apply computes_mask_lift. reflexivity.
  - destruct (computes_mask_lift
                (fun self =>
                   (localsTarget <- nd_pow np_power (_sTarget self) (_alpha self) ;;
                    numElements <- py_len (_nResidual self) ;;
                    first <- py_item (_nResidual self) 0 ;;
                    p0 <- nd_pow np_power first (_alpha self) ;;
                    start <- nd_add p0 localsTarget ;;
                    localnResidual <-
                      (if (1 <? numElements)%nat
                       then add_components (fun x => nd_pow np_power x (_alpha self))
                                           (_nResidual self)
                                           (seq 1 (numElements - 1)) start
                       else Ok start) ;;
                    n <- nd_add localsTarget (Nd0 (_eps self)) ;;
                    d <- nd_add (Nd0 (_eps self)) localnResidual ;;
                    nd_div n d)%out)) as [H1 H2]; [reflexivity|].
    eexists. split; [|exact H2]. intros self.
    etransitivity; [|exact (H1 self)]. reflexivity.
  - eexists. unfold phaseSensitive. apply computes_mask_lift. reflexivity.
Qed.

(** The guard of [Phase] in front of [phaseSensitive]. *)
Lemma phase_branch_computes (np_exp np_cos : Q -> Q) :
  exists f,
    computes_mask (bind phase_guard
                        (fun missing : bool =>
                           if missing then throw (ValueError phase_msg)
                           else phaseSensitive np_exp np_cos)) f.
Proof.
  destruct (mask_methods_compute (fun x _ => x) (fun x => x) np_exp np_cos)
    as (_ & _ & _ & _ & _ & _ & f & Hf1 & Hf2).
  exists (fun self =>
            match py_size (_pTarget self) with
            | Raise e => Raise e
            | Ok s1 => if Nat.eqb s1 0 then Raise (ValueError phase_msg) else f self
            end).
  split.
  - intros self. unfold phase_guard, bind, get, id, lift, ret, throw.
    destruct (py_size (_pTarget self)) as [s1|e]; [|reflexivity].
    cbv beta iota.
    destruct (Nat.eqb s1 0) eqn:E; [reflexivity|]. cbv beta iota. rewrite ?E.
    apply Hf1.
  - intros self m o. cbn [_pTarget set_Out set_mask]. now rewrite Hf2.
Qed.

(** What the two calls do once the mask method is known. *)
Lemma forward_then_reverse_with (np_power : Q -> Q -> Q) (c : M unit)
      (f : FrequencyMasking -> outcome ndarray)
      (self s1 : FrequencyMasking) (m o1 : ndarray) :
  computes_mask c f ->
  _method self <> "expMask" ->
  bind (bind c (fun _ => apply_step np_power false)) (fun _ => get _Out) self
  = (s1, Ok (PyArr o1)) ->
  _mask s1 = PyArr m ->
  congruent m (_mX self) ->
  _method s1 = _method self
  /\ exists o2 s2,
      bind (bind c (fun _ => apply_step np_power true)) (fun _ => get _Out) s1
      = (s2, Ok (PyArr o2))
      /\ _mask s2 = PyArr m
      /\ o1 = nd_zip Qmult m (_mX self)
      /\ o2 = nd_zip Qmult (nd_map (Qminus 1) m) (_mX self)
      /\ (nd_all (fun y => y == 0 \/ y == 1) m ->
          exists s, nd_add o1 o2 = Ok s /\ nd_all2 Qeq s (_mX self)).
Proof.
  intros [Hc Hf] Hm H1 Hmask Hcong.
  unfold bind at 1 2 in H1. rewrite Hc in H1.
  destruct (f self) as [m0|e] eqn:Ef; [|discriminate H1].
  unfold apply_step in H1. cbn [negb] in H1.
  unfold applyMask, bind, get, id, lift, modify in H1.
  cbn [_method _mask _mX set_mask] in H1.
  pose proof Hm as Hm'. apply String.eqb_neq in Hm'. rewrite Hm' in H1.
  cbn [py_binop asarray obind] in H1.
  destruct (nd_binop Qmult m0 (_mX self)) as [o|e] eqn:Eo; [|discriminate H1].
  cbn [_Out set_Out] in H1. injection H1 as <- <-.
  cbn [_mask set_Out set_mask] in Hmask. injection Hmask as ->.
  rewrite (nd_binop_congruent Qmult m (_mX self) Hcong) in Eo. injection Eo as <-.
  split; [reflexivity|].
  exists (nd_zip Qmult (nd_map (Qminus 1) m) (_mX self)).
  eexists.
  split; [|split; [|split; [reflexivity|split; [reflexivity|]]]].
  - unfold bind at 1 2. rewrite Hc, Hf, Ef.
    rewrite (apply_step_value np_power _ m true); [reflexivity|exact Hm|reflexivity|exact Hcong].
  - reflexivity.
  - intros _. exact (forward_plus_reverse m (_mX self) Hcong).
Qed.

Ltac finish_with Hcall Hcomputes :=
  match goal with
  | Hforward : call ?p _ _ _ _ _ false ?self = (?s1, Ok (PyArr ?o1)),
    Hmask : _mask ?s1 = PyArr ?m,
    Hshape : congruent ?m (_mX ?self),
    Hexp : _method ?self <> "expMask" |- _ =>
      rewrite Hcall in Hforward by (trivial; cbn; tauto);
      let Hs1 := fresh "Hs1" in
      let H := fresh "H" in
      destruct (forward_then_reverse_with p _ _ self s1 m o1 Hcomputes Hexp
                                          Hforward Hmask Hshape) as [Hs1 H];
      rewrite Hcall by (try congruence; cbn; tauto);
      exact H
  end.

(** X16.  For every method that applies its mask by multiplication: when a
    forward call has returned an array, with a mask of the shape of the
    mixture, a reverse call on the engine as the forward call left it
    returns too and computes the same mask again; the forward call has
    returned the product [mask * mX], the reverse call returns the product
    [(1 - mask) * mX].  Where every element of the mask is 0 or 1, the two
    outputs add up to the mixture.  This is the pattern of the demo,
    [sinhat = mask()] then [noisehat = mask(reverse=True)]. *)
Theorem call_forward_then_reverse
        (np_power : Q -> Q -> Q) (np_log np_exp np_cos : Q -> Q)
        (np_pinv : arr2 -> arr2) (to_float32 : Q -> Q)
        (self s1 : FrequencyMasking) (m o1 : ndarray)
        (Hm : In (_method self) multiplicative_methods)
        (Hforward : call np_power np_log np_exp np_cos np_pinv to_float32 false self
                    = (s1, Ok (PyArr o1)))
        (Hmask : _mask s1 = PyArr m)
        (Hshape : congruent m (_mX self)) :
  exists o2 s2,
    call np_power np_log np_exp np_cos np_pinv to_float32 true s1
    = (s2, Ok (PyArr o2))
    /\ _mask s2 = PyArr m
    /\ o1 = nd_zip Qmult m (_mX self)
    /\ o2 = nd_zip Qmult (nd_map (Qminus 1) m) (_mX self)
    /\ (nd_all (fun y => y == 0 \/ y == 1) m ->
        exists s, nd_add o1 o2 = Ok s /\ nd_all2 Qeq s (_mX self)).
Proof.
  destruct (mask_methods_compute np_power np_log np_exp np_cos)
    as ([fIRM HIRM] & [fIAM HIAM] & [fIBM HIBM] & [fUBBM HUBBM] & [fW HW]
        & [faW HaW] & _).
  destruct (phase_branch_computes np_exp np_cos) as [fP HP].
  assert (Hassoc : forall (r : bool) (st : FrequencyMasking),
             bind (bind phase_guard
                        (fun missing : bool =>
                           if missing then throw (ValueError phase_msg)
                           else bind (phaseSensitive np_exp np_cos)
                                     (fun _ => apply_step np_power r)))
                  (fun _ => get _Out) st
             = bind (bind (bind phase_guard
                                (fun missing : bool =>
                                   if missing then throw (ValueError phase_msg)
                                   else phaseSensitive np_exp np_cos))
                          (fun _ => apply_step np_power r))
                    (fun _ => get _Out) st).
  { intros r st. unfold bind, throw.
    destruct (phase_guard st) as [st' [[|]|e]]; reflexivity. }
  assert (Hcall : forall (name : string) (c : M unit) (r : bool) (st : FrequencyMasking),
             _method st = name ->
             In (name, c)
                [("IRM", IRM); ("IAM", IAM); ("IBM", IBM np_power);
                 ("UBBM", UBBM np_power np_log); ("Wiener", Wiener);
                 ("alphaWiener", alphaHarmonizableProcess np_power)] ->
             call np_power np_log np_exp np_cos np_pinv to_float32 r st
             = bind (bind c (fun _ => apply_step np_power r)) (fun _ => get _Out) st).
  { intros name c r st Hst Hin. unfold call at 1. unfold bind at 1. unfold get at 1.
    unfold id. rewrite Hst.
    cbn [In] in Hin.
    destruct Hin as [E|[E|[E|[E|[E|[E|[]]]]]]]; injection E as <- <-; reflexivity. }
  assert (Hexp : _method self <> "expMask").
  { intros E. rewrite E in Hm. cbn in Hm.
    destruct Hm as [H|[H|[H|[H|[H|[H|[H|[]]]]]]]]; discriminate H. }
  cbn [multiplicative_methods In] in Hm.
  destruct Hm as [E|[E|[E|[E|[E|[E|[E|[]]]]]]]]; symmetry in E.
  - assert (Ecall : forall r st, _method st = "Phase" ->
              call np_power np_log np_exp np_cos np_pinv to_float32 r st
              = bind (bind (bind phase_guard
                                 (fun missing : bool =>
                                    if missing then throw (ValueError phase_msg)
                                    else phaseSensitive np_exp np_cos))
                           (fun _ => apply_step np_power r))
                     (fun _ => get _Out) st).
    { intros r st Hst. rewrite <- Hassoc. unfold call at 1. unfold bind at 1.
      unfold get at 1. unfold id. rewrite Hst. reflexivity. }
    rewrite Ecall in Hforward by exact E.
    destruct (forward_then_reverse_with np_power _ fP self s1 m o1 HP Hexp
                                        Hforward Hmask Hshape) as [Hs1 H].
    rewrite Ecall by congruence. exact H.
  - finish_with (Hcall "IRM" IRM) HIRM.
  - finish_with (Hcall "IAM" IAM) HIAM.
  - finish_with (Hcall "IBM" (IBM np_power)) HIBM.
  - finish_with (Hcall "UBBM" (UBBM np_power np_log)) HUBBM.
  - finish_with (Hcall "Wiener" Wiener) HW.
  - finish_with (Hcall "alphaWiener" (alphaHarmonizableProcess np_power)) HaW.
Qed.

Lemma call_forward_then_reverse_witness :
  exists s1 o1 m,
    call (fun x _ => x * x) (fun x => x) (fun x => x) (fun x => x) (fun a => a)
         (fun x => x) false alpha_wiener_engine = (s1, Ok (PyArr o1))
    /\ _mask s1 = PyArr m
    /\ exists o2 s2,
        call (fun x _ => x * x) (fun x => x) (fun x => x) (fun x => x) (fun a => a)
             (fun x => x) true s1 = (s2, Ok (PyArr o2))
        /\ _mask s2 = PyArr m
        /\ o1 = nd_zip Qmult m (Nd2 [[3; 4]])
        /\ o2 = nd_zip Qmult (nd_map (Qminus 1) m) (Nd2 [[3; 4]])
        /\ (nd_all (fun y => y == 0 \/ y == 1) m ->
            exists s, nd_add o1 o2 = Ok s /\ nd_all2 Qeq s (Nd2 [[3; 4]])).
Proof.
  assert (H : exists s1 o1 m,
             call (fun x _ => x * x) (fun x => x) (fun x => x) (fun x => x) (fun a => a)
                  (fun x => x) false alpha_wiener_engine = (s1, Ok (PyArr o1))
             /\ _mask s1 = PyArr m
             /\ congruent m (Nd2 [[3; 4]])).
  { eexists _, _, _. split; [vm_compute; reflexivity|].
    split; [reflexivity|]. repeat constructor. }
  destruct H as (s1 & o1 & m & H1 & Hm & Hc).
  exists s1, o1, m. split; [exact H1|]. split; [exact Hm|].
  apply (call_forward_then_reverse
           (fun x _ => x * x) (fun x => x) (fun x => x) (fun x => x) (fun a => a)
           (fun x => x) alpha_wiener_engine s1 m o1).
  - cbn. tauto.
  - exact H1.
  - exact Hm.
  - exact Hc.
Defined.

(** ** The range of the phase-sensitive mask *)

Lemma logistic_range (e : Q) : 0 <= e -> -1 <= 2 / (1 + e) - 1 /\ 2 / (1 + e) - 1 <= 1.
Proof.
  intros He.
  assert (Hd : 0 < 1 + e) by lra.
  assert (L : 0 <= 2 / (1 + e)) by (apply Qle_shift_div_l; [exact Hd|lra]).
  assert (U : 2 / (1 + e) <= 2) by (apply Qle_shift_div_r; [exact Hd|lra]).
  split; lra.
Qed.

(** X17.  Whenever [phaseSensitive] completes, every element of the mask
    it stores lies in [[-1, 1]] (numpy's [exp] is never negative): the mask
    may be negative, and its complement [1 - mask], which a reverse call
    applies, lies in [[0, 2]]. *)
Theorem phaseSensitive_mask_range
        (np_exp np_cos : Q -> Q) (self self' : FrequencyMasking)
        (Hexp : forall x, 0 <= np_exp x)
        (H : phaseSensitive np_exp np_cos self = (self', Ok tt)) :
  exists m,
    self' = set_mask (PyArr m) self
    /\ nd_all (fun y => -1 <= y /\ y <= 1) m
    /\ nd_all (fun y => 0 <= y /\ y <= 2) (nd_map (Qminus 1) m).
Proof.
  unfold phaseSensitive, bind, get, id, lift, modify in H.
  repeat match type of H with
         | context [obind ?c _] =>
             let E := fresh "E" in
             destruct c eqn:E; cbn [obind] in H; [|discriminate H]
         end.
  inversion H; subst. eexists. split; [reflexivity|].
  unfold nd_all. rewrite !flat_map. split.
  - apply Forall_forall. intros y Hy. apply in_map_iff in Hy.
    destruct Hy as (x & <- & _). apply logistic_range, Hexp.
  - apply Forall_forall. intros y Hy. apply in_map_iff in Hy.
    destruct Hy as (y' & <- & Hy'). apply in_map_iff in Hy'.
    destruct Hy' as (x & <- & _).
    destruct (logistic_range (np_exp (- x)) (Hexp _)) as [L U]. split; lra.
Qed.

Lemma phaseSensitive_mask_range_witness :
  exists self' m,
    phaseSensitive (fun x => 1 + x * x) (fun x => 1 - x * x / 2) phase_engine
    = (self', Ok tt)
    /\ self' = set_mask (PyArr m) phase_engine
    /\ nd_all (fun y => -1 <= y /\ y <= 1) m
    /\ nd_all (fun y => 0 <= y /\ y <= 2) (nd_map (Qminus 1) m).
Proof.
  assert (H : exists self',
             phaseSensitive (fun x => 1 + x * x) (fun x => 1 - x * x / 2) phase_engine
             = (self', Ok tt)).
  { eexists. vm_compute. reflexivity. }
  destruct H as [self' H]. exists self'.
  assert (Hpos : forall x : Q, 0 <= 1 + x * x) by (intros x; nra).
  destruct (phaseSensitive_mask_range
              (fun x => 1 + x * x) (fun x => 1 - x * x / 2) phase_engine self'
              Hpos H) as (m & Hm).
  exists m. split; [exact H|exact Hm].
Defined.

(** ** The output of the multichannel filter *)

Lemma for_each_invariant {S : Type} (P : S -> Prop) (body : nat -> S -> outcome S)
      (xs : list nat) (st st' : S) :
  (forall x s s', body x s = Ok s' -> P s -> P s') ->
  for_each xs body st = Ok st' -> P st -> P st'.
Proof.
  intros Hbody. revert st. induction xs as [|x xs IH]; intros st H Hst.
  - cbn in H. now inversion H; subst.
  - cbn [for_each] in H. destruct (body x st) as [s1|e] eqn:E; [|discriminate H].
    cbn [obind] in H. exact (IH s1 H (Hbody x st s1 E Hst)).
Qed.

Lemma Forall_set_nth {A : Type} (P : A -> Prop) (n : nat) (x : A) (l : list A) :
  Forall P l -> P x -> Forall P (set_nth n x l).
Proof.
  intros Hl Hx. revert n. induction Hl as [|y l Hy Hl IH]; intros [|n]; simpl;
    constructor; auto.
Qed.

Lemma zeros3_out_shape (M F T : nat) : out_shape M F T (zeros3 M F T).
Proof.
  unfold out_shape, zeros3. split; [apply repeat_length|].
  apply Forall_forall. intros chan Hc. apply repeat_spec in Hc. subst chan.
  split; [apply repeat_length|].
  apply Forall_forall. intros row Hr. apply repeat_spec in Hr. subst row.
  apply repeat_length.
Qed.

Lemma assign_ft_out_shape (cast : Q -> Q) (M F T f t : nat) (o o' : arr3) (v : ndarray) :
  assign_ft cast o f t v = Ok o' -> out_shape M F T o -> out_shape M F T o'.
Proof.
  unfold assign_ft. intros H [Hlen Hch].
  destruct (nd_binop _ _ v) as [[x|b|b|b]|e]; cbn [obind] in H; try discriminate H.
  destruct (Nat.eqb (length b) (length o)) eqn:E; [|discriminate H].
  apply Nat.eqb_eq in E. inversion H; subst o'; clear H. split.
  - rewrite map2_length_same; [exact Hlen|symmetry; exact E].
  - clear Hlen. revert b E. induction Hch as [|chan o [Hc Hrows] _ IH];
      intros [|x b] E; simpl in *; try discriminate; constructor.
    + match goal with
      | |- context [match ?c with Some _ => _ | None => _ end] =>
          destruct c as [row|] eqn:Er
      end.
      * split; [now rewrite length_set_nth|].
        apply Forall_set_nth; [exact Hrows|].
        rewrite length_set_nth. rewrite Forall_forall in Hrows. apply Hrows.
        eapply nth_error_In. exact Er.
      * split; [exact Hc|exact Hrows].
    + apply IH. now inversion E.
Qed.

Lemma mwf_covariances_keeps_fout (cX cN : ndarray) (eM f t : nat) (st st' : mwf_state) :
  mwf_covariances cX cN eM f t st = Ok st' -> fout st' = fout st.
Proof.
  unfold mwf_covariances. intros H.
  destruct (Nat.eqb eM 1);
    repeat match type of H with
           | context [obind ?c _] =>
               let E := fresh "E" in
               destruct c eqn:E; cbn [obind] in H; [|discriminate H]
           end;
    inversion H; subst; reflexivity.
Qed.

Lemma mwf_filter_out_shape (np_pinv : arr2 -> arr2) (to_float32 : Q -> Q)
      (mX cX cN : ndarray) (I : arr2) (gF : Q) (eM f t M F T : nat)
      (st st' : mwf_state) :
  mwf_filter np_pinv to_float32 mX cX cN I gF eM f t st = Ok st' ->
  out_shape M F T (fout st) -> out_shape M F T (fout st').
Proof.
  unfold mwf_filter. intros H Hs.
  repeat match type of H with
         | context [obind ?c _] =>
             let E := fresh "E" in
             destruct c eqn:E; cbn [obind] in H; [|discriminate H]
         end.
  inversion H; subst; cbn [fout].
  match goal with
  | E : assign_ft _ _ _ _ _ = Ok _ |- _ => exact (assign_ft_out_shape _ _ _ _ _ _ _ _ _ E Hs)
  end.
Qed.

Lemma mwf_loops_out_shape (np_pinv : arr2 -> arr2) (to_float32 : Q -> Q)
      (mX cX cN : ndarray) (I : arr2) (gF : Q) (eM F T M F' T' : nat)
      (st st' : mwf_state) :
  mwf_loops np_pinv to_float32 mX cX cN I gF eM F T st = Ok st' ->
  out_shape M F' T' (fout st) -> out_shape M F' T' (fout st').
Proof.
  unfold mwf_loops.
  apply (for_each_invariant (fun s => out_shape M F' T' (fout s))).
  intros t s s'.
  apply (for_each_invariant (fun s => out_shape M F' T' (fout s))).
  intros f s1 s2 H Hs. unfold mwf_step in H.
  destruct (mwf_covariances cX cN eM f t s1) as [s1'|e] eqn:E; [|discriminate H].
  cbn [obind] in H.
  apply (mwf_filter_out_shape _ _ _ _ _ _ _ _ _ _ _ _ _ _ _ H).
  now rewrite (mwf_covariances_keeps_fout _ _ _ _ _ _ _ E).
Qed.

(** X18.  Whenever [MWF] completes, on a 3-D target and a scalar exponent,
    the output it stores has one channel per channel of the mixture, each
    with the frequency rows and time frames of the target's first channel,
    and no negative entry; the mask and every other attribute are as
    before. *)
Theorem MWF_output_shape
        (np_power : Q -> Q -> Q) (np_pinv : arr2 -> arr2) (to_float32 : Q -> Q)
        (self self' : FrequencyMasking) (a : Q) (t : arr3)
        (Ha : _alpha self = Nd0 a)
        (Ht : _sTarget self = Nd3 t)
        (H : MWF np_power np_pinv to_float32 self = (self', Ok tt)) :
  exists o M,
    self' = set_Out (PyArr (Nd3 o)) self
    /\ shape_at (_mX self) 0 = Ok M
    /\ out_shape M (length (hd [] t)) (length (hd [] (hd [] t))) o
    /\ nd_all (fun y => 0 <= y) (Nd3 o).
Proof.
  unfold MWF, bind, get, id, lift, modify in H.
  destruct (mwf_pass np_power np_pinv to_float32 self) as [st|e] eqn:E;
    [|discriminate H].
  inversion H; subst self'; clear H.
  unfold mwf_pass in E. rewrite Ha, Ht, nd_binop_scalar_r in E. cbn [obind] in E.
  match type of E with
  | context [obind ?c _] => destruct c as [cN|e]; cbn [obind] in E; [|discriminate E]
  end.
  destruct (shape_at (_mX self) 0) as [M|e] eqn:EM; cbn [obind] in E; [|discriminate E].
  destruct (Nat.eqb M 0); cbn [obind] in E; [discriminate E|].
  unfold shape_at in E at 1 2 3. cbn [nd_map shape nth_error obind] in E.
  match type of E with
  | context [mwf_init M ?F ?T] =>
      assert (EF : F = length (hd [] t))
        by (destruct t; [reflexivity|cbn [map hd]; now rewrite length_map]);
      assert (ET : T = length (hd [] (hd [] t)))
        by (destruct t as [|[|row chan] t']; try reflexivity; cbn [map hd];
            now rewrite length_map);
      rewrite EF, ET in E
  end.
  exists (map (map (map Qabs)) (fout st)), M.
  split; [reflexivity|]. split; [reflexivity|]. split.
  - pose proof (mwf_loops_out_shape _ _ _ _ _ _ _ _ _ _ M _ _ _ _ E
                                    (zeros3_out_shape _ _ _)) as [Hlen Hch].
    split; [now rewrite length_map|].
    apply Forall_forall. intros chan Hc. apply in_map_iff in Hc.
    destruct Hc as (c0 & <- & Hin). rewrite Forall_forall in Hch.
    destruct (Hch c0 Hin) as [HF HT]. split; [now rewrite length_map|].
    apply Forall_forall. intros row Hr. apply in_map_iff in Hr.
    destruct Hr as (r0 & <- & Hin'). rewrite Forall_forall in HT.
    rewrite length_map. now apply HT.
  - unfold nd_all.
    change (Nd3 (map (map (map Qabs)) (fout st))) with (nd_map Qabs (Nd3 (fout st))).
    rewrite flat_map. apply Forall_forall. intros y Hy. apply in_map_iff in Hy.
    destruct Hy as (x & <- & _). apply Qabs_nonneg.
Qed.

Lemma MWF_output_shape_witness :
  exists self' o M,
    MWF (fun x _ => x) (fun a => a) (fun x => x) mwf_engine = (self', Ok tt)
    /\ self' = set_Out (PyArr (Nd3 o)) mwf_engine
    /\ shape_at (Nd3 [[[3; 1]]; [[4; 2]]]) 0 = Ok M
    /\ out_shape M 1 2 o
    /\ nd_all (fun y => 0 <= y) (Nd3 o).
Proof.
  assert (H : exists self',
             MWF (fun x _ => x) (fun a => a) (fun x => x) mwf_engine = (self', Ok tt)).
  { eexists. vm_compute. reflexivity. }
  destruct H as [self' H]. exists self'.
  destruct (MWF_output_shape (fun x _ => x) (fun a => a) (fun x => x)
                             mwf_engine self' 1 [[[4; 1]]] eq_refl eq_refl H)
    as (o & M & Hm).
  exists o, M. split; [exact H|exact Hm].
Defined.

(** ** The distance and its derivative at an exact estimate *)

Lemma Qsum_all_zero (l : list Q) : Forall (fun y => y == 0) l -> Qsum l == 0.
Proof.
  unfold Qsum. intros H.
  assert (G : forall acc, acc == 0 -> fold_left Qplus l acc == 0).
  { induction H as [|y l Hy _ IH]; intros acc Hacc; cbn [fold_left]; [exact Hacc|].
    apply IH. rewrite Hacc, Hy. reflexivity. }
  apply G. reflexivity.
Qed.

Lemma IS_terms_zero (np_power : Q -> Q -> Q) (np_log : Q -> Q) (eps a : Q)
      (fx fm : list Q) :
  0 < eps ->
  Forall2 (fun x m => Qabs x = np_power (Qabs m) a) fx fm ->
  Forall (fun y => y == 0)
         (map2 (fun m x =>
                  let num := np_power (Qabs m) a + eps in
                  let den := Qabs x + eps in
                  num / den - (np_log num - np_log den) - 1) fm fx).
Proof.
  intros He H. induction H as [|x m fx fm Hx _ IH]; cbn [map2]; constructor;
    [|exact IH].
  cbv zeta. rewrite <- Hx.
  assert (Hpos : 0 < Qabs x + eps) by (pose proof (Qabs_nonneg x); lra).
  field. lra.
Qed.

Lemma dIS_terms_zero (np_power : Q -> Q -> Q) (h : Q -> Q) (eps a : Q)
      (fx fm : list Q) :
  Forall2 (fun x m => Qabs x = np_power (Qabs m) a) fx fm ->
  Forall (fun y => y == 0)
         (map2 Qmult (map h (map (fun x => x + eps) fx))
               (map2 Qminus (map Qabs fx)
                     (map (fun x => np_power x a) (map Qabs fm)))).
Proof.
  intros H. induction H as [|x m fx fm Hx _ IH]; cbn [map map2]; constructor;
    [|exact IH].
  rewrite <- Hx. ring.
Qed.

(** X19.  At an exact estimate, where [|Xhat|] equals [|mX| ** alpha]
    element by element (arrays of one shape, a scalar engine exponent,
    [eps > 0]), the Itakura-Saito distance [_IS] is 0 and so is its mean
    derivative [_dIS]. *)
Theorem IS_and_dIS_vanish_at_exact_estimate
        (np_power : Q -> Q -> Q) (np_log : Q -> Q)
        (self : FrequencyMasking) (a : Q) (mX X : arr2)
        (Ha : _alpha self = Nd0 a)
        (Hm : _mX self = Nd2 mX)
        (Hc : congruent (Nd2 X) (Nd2 mX))
        (Heps : 0 < _eps self)
        (Hexact : Forall2 (fun x m => Qabs x = np_power (Qabs m) a)
                          (concat X) (concat mX)) :
  exists loss d,
    _IS np_power np_log self (Nd2 X) = Ok loss /\ loss == 0
    /\ _dIS np_power self (Nd2 X) = Ok d /\ d == 0.
Proof.
  eexists. eexists.
  split; [apply (IS_same_shape np_power np_log self a mX X Ha Hm Hc)|].
  split.
  { unfold IS_code.
    rewrite (Qsum_all_zero _ (IS_terms_zero np_power np_log _ a _ _ Heps Hexact)).
    unfold Qdiv. ring. }
  set (S := nd_map (fun y => Qabs y ^ (-2)) (nd_map (fun x => x + _eps self) (Nd2 X))).
  set (P := nd_map (fun x => np_power x a) (nd_map Qabs (Nd2 mX))).
  assert (HP : congruent (nd_map Qabs (Nd2 X)) P).
  { apply congruent_map_l. apply congruent_sym. repeat apply congruent_map_l.
    now apply congruent_sym. }
  assert (HS : congruent S (nd_zip Qminus (nd_map Qabs (Nd2 X)) P)).
  { repeat apply congruent_map_l. apply congruent_sym.
    eapply congruent_trans; [now apply congruent_zip_l|].
    apply congruent_map_l, congruent_refl. }
  assert (E : _dIS np_power self (Nd2 X)
              = Ok (nd_mean (nd_zip Qmult S (nd_zip Qminus (nd_map Qabs (Nd2 X)) P)))).
  { unfold _dIS. rewrite Ha, Hm. unfold nd_add, nd_sub, nd_mul.
    rewrite !nd_binop_scalar_r. cbn [obind]. fold P.
    rewrite (nd_binop_congruent Qminus _ _ HP). cbn [obind].
    fold S. rewrite (nd_binop_congruent Qmult _ _ HS). reflexivity. }
  split; [exact E|].
  unfold nd_mean. rewrite !flat_zip by assumption. unfold S, P.
  rewrite !flat_map. cbn [flat].
  rewrite (Qsum_all_zero _ (dIS_terms_zero np_power _ (_eps self) a _ _ Hexact)).
  unfold Qdiv. ring.
Qed.

Lemma IS_and_dIS_vanish_at_exact_estimate_witness :
  exists loss d,
    _IS (fun x _ => x * x) (fun x => x - 1) exact_engine (Nd2 [[4; 9]]) = Ok loss
    /\ loss == 0
    /\ _dIS (fun x _ => x * x) exact_engine (Nd2 [[4; 9]]) = Ok d /\ d == 0.
Proof.
  apply (IS_and_dIS_vanish_at_exact_estimate
           (fun x _ => x * x) (fun x => x - 1) exact_engine 2 [[2; 3]] [[4; 9]]).
  - reflexivity.
  - reflexivity.
  - repeat constructor.
  - reflexivity.
  - repeat constructor.
Defined.
